(** * Sub-resource collection: the network-observed and the DOM-query
      collectors, embedded from [src/src/network.ts], [src/index.ts] and the
      type declarations of the package.

    JavaScript strings are modelled as [string], read as a sequence of code
    units below 256; a value that is a string or [undefined] as [Text]; the
    set of seen URLs as [gset Text]; header objects as [gmap string string].
    An async generator is a computation over the state of one run: it logs what it asks of the browser and what it hands
    to its consumer, and completes normally, by a throw, or by the
    consumer's return.  The browser engine and the consumer are the
    [World] of the run. *)

From Stdlib Require Import ZArith Ascii String DecimalString.
From stdpp Require Import base gmap sets list strings.

(** ** String primitives of the host language *)

Module JsString.

(** [s.startsWith(p)] *)
Definition startsWith (s p : string) : bool := String.prefix p s.

(** [s.includes(needle)] *)
Fixpoint includes (s needle : string) : bool :=
  String.prefix needle s ||
  match s with
  | EmptyString => false
  | String _ s' => includes s' needle
  end.

(** Canonicalisation used by the [i] flag on code units below 256: only the
    letters a-z are folded onto A-Z; no other unit folds onto a letter. *)
Definition canonicalize (c : ascii) : ascii :=
  let n := N_of_ascii c in
  if ((97 <=? n) && (n <=? 122))%N then ascii_of_N (n - 32) else c.

Fixpoint fold_case (s : string) : string :=
  match s with
  | EmptyString => EmptyString
  | String c s' => String (canonicalize c) (fold_case s')
  end.

(** [s.match(/lit/i)] is truthy, for a literal pattern [lit]. *)
Definition includes_i (s lit : string) : bool :=
  includes (fold_case s) (fold_case lit).

(** White space of [trim] and of the class [\s], below 256. *)
Definition is_space (c : ascii) : bool :=
  match c with
  | "009" | "010" | "011" | "012" | "013" | " " | "160" => true
  | _ => false
  end%char.

Fixpoint trimStart (s : string) : string :=
  match s with
  | EmptyString => EmptyString
  | String c s' => if is_space c then trimStart s' else s
  end.

Fixpoint trimEnd (s : string) : string :=
  match s with
  | EmptyString => EmptyString
  | String c s' =>
      match trimEnd s' with
      | EmptyString => if is_space c then EmptyString else String c EmptyString
      | t => String c t
      end
  end.

(** [s.trim()] *)
Definition trim (s : string) : string := trimEnd (trimStart s).

(** Prepends a unit to the first piece of a split. *)
Definition extend (c : ascii) (pieces : list string) : list string :=
  match pieces with
  | piece :: rest => String c piece :: rest
  | [] => [String c EmptyString]
  end.

Definition starts_with_space (s : string) : bool :=
  match s with
  | String c _ => is_space c
  | EmptyString => false
  end.

(** [s.split(",")] *)
Fixpoint split_comma (s : string) : list string :=
  match s with
  | EmptyString => [EmptyString]
  | String c s' =>
      if Ascii.eqb c "," then EmptyString :: split_comma s'
      else extend c (split_comma s')
  end.

(** [s.split(/,\s+/)]: a separator is a comma and the longest run of
    white space after it, which must not be empty.  [skipping] holds while
    the run of the separator just met is being consumed. *)
Fixpoint split_comma_space_from (skipping : bool) (s : string) : list string :=
  match s with
  | EmptyString => [EmptyString]
  | String c s' =>
      if skipping && is_space c then split_comma_space_from true s'
      else if Ascii.eqb c "," && starts_with_space s'
      then EmptyString :: split_comma_space_from true s'
      else extend c (split_comma_space_from false s')
  end.
Definition split_comma_space (s : string) : list string :=
  split_comma_space_from false s.

(** [s.split(/\s+/)] *)
Fixpoint split_space_from (skipping : bool) (s : string) : list string :=
  match s with
  | EmptyString => [EmptyString]
  | String c s' =>
      if is_space c
      then (if skipping then split_space_from true s'
            else EmptyString :: split_space_from true s')
      else extend c (split_space_from false s')
  end.
Definition split_space (s : string) : list string :=
  split_space_from false s.

Definition quote : ascii := "034"%char.

Fixpoint skip (n : nat) (s : string) : string :=
  match n, s with
  | S n', String _ s' => skip n' s'
  | _, _ => s
  end.

(** After [url(]+quote: the group [[^)]+] followed by quote and [)].  The
    closing parenthesis is the first one met, the group is what stands
    before the quote that precedes it. *)
Fixpoint group_to_close (s : string) : option string :=
  match s with
  | EmptyString => None
  | String c s' =>
      if Ascii.eqb c ")" then None
      else if Ascii.eqb c quote && String.prefix ")" s' then Some EmptyString
      else match group_to_close s' with
           | Some g => Some (String c g)
           | None => None
           end
  end.

Definition url_open : string := "url(" +:+ String quote EmptyString.

Definition match_url_here (s : string) : option string :=
  if String.prefix url_open s then
    match group_to_close (skip 5 s) with
    | Some EmptyString => None
    | r => r
    end
  else None.

(** [s.match(/url\(quote([^)]+)quote\)/)]: the first group of the
    leftmost match, [None] when there is no match. *)
Fixpoint match_url (s : string) : option string :=
  match match_url_here s with
  | Some g => Some g
  | None =>
      match s with
      | EmptyString => None
      | String _ s' => match_url s'
      end
  end.

End JsString.

(** ** Data model ([types.ts]) *)

Inductive ResourceType :=
| stylesheet | script | image | favicon | video | audio
| object | iframe | link | font | manifest.

Global Instance ResourceType_eq_dec : EqDecision ResourceType.
Proof. solve_decision. Defined.

(** A value read where the source expects a string.  The type
    declarations say [string]; at run time a property that an element does
    not have reads as [undefined]. *)
Inductive Text :=
| text (s : string)
| undefined.

Coercion text : string >-> Text.

Global Instance Text_eq_dec : EqDecision Text.
Proof. solve_decision. Defined.

Definition option_of_Text (t : Text) : option string :=
  match t with text s => Some s | undefined => None end.

Definition Text_of_option (o : option string) : Text :=
  match o with Some s => text s | None => undefined end.

Lemma Text_of_option_of_Text t : Text_of_option (option_of_Text t) = t.
Proof. by destruct t. Qed.

Global Instance Text_countable : Countable Text :=
  inj_countable' option_of_Text Text_of_option Text_of_option_of_Text.

(** [String(t)], as where a value is passed for a string parameter. *)
Definition to_string (t : Text) : string :=
  match t with
  | text s => s
  | undefined => "undefined"
  end.

Record Resource := mkResource { type : ResourceType; url : Text }.

Global Instance Resource_eq_dec : EqDecision Resource.
Proof. solve_decision. Defined.

Record Options := mkOptions { links : option bool }.

(** ** What the browser engine reports about a response *)

(** A frame, with the identifier of its parent frame when it has one. *)
Record Frame := mkFrame { frame_id : string; parentFrame : option string }.

Record HTTPRequest := mkRequest {
  resourceType : string;
  frame : option Frame;
}.

Record HTTPResponse := mkResponse {
  request : HTTPRequest;
  response_url : string;
  status : Z;
  headers : gmap string string;
}.

(** [response.ok()] of the browser-automation library: the status is 0 or
    lies in 200..299. *)
Definition ok (r : HTTPResponse) : bool :=
  ((status r =? 0) || ((200 <=? status r) && (status r <=? 299)))%Z.

(** ** The document as the page queries see it *)

(** An element of the document: its namespace, its local name, its content
    attributes, the values the engine reports for the reflected properties
    [href], [src], [srcset] and [data] where the element's interface has
    them, and, for its parent element, the namespace flag and local name.
    The elements of a document are listed in tree order. *)
Record Element := mkElement {
  isHTML : bool;
  localName : string;
  attributes : list (string * string);
  properties : list (string * string);
  parentElement : option (bool * string);
}.

Fixpoint assoc (k : string) (l : list (string * string)) : option string :=
  match l with
  | [] => None
  | (k', v) :: l' => if String.eqb k k' then Some v else assoc k l'
  end.

(** The HTML interfaces that have the property [name] as a string. *)
Definition reflects (tag name : string) : bool :=
  if String.eqb name "href" then
    existsb (String.eqb tag) ["a"; "area"; "base"; "link"]
  else if String.eqb name "src" then
    existsb (String.eqb tag)
            ["audio"; "embed"; "frame"; "iframe"; "img"; "input"; "script";
             "source"; "track"; "video"]
  else if String.eqb name "srcset" then
    existsb (String.eqb tag) ["img"; "source"]
  else if String.eqb name "data" then String.eqb tag "object"
  else false.

(** [elem.name] for one of the four properties.  An HTML element whose
    interface has the property gives a string, empty when the engine
    reports none; any other element gives [undefined].  (There [href] can
    be an object, for an SVG anchor; the collectors read it of no such
    element.) *)
Definition prop (e : Element) (name : string) : Text :=
  if isHTML e && reflects (localName e) name then
    text (match assoc name (properties e) with Some v => v | None => "" end)
  else undefined.

(** [elem instanceof HTML<tag>Element] *)
Definition instanceof (e : Element) (tag : string) : bool :=
  isHTML e && String.eqb (localName e) tag.

(** [elem.parentElement instanceof HTML<tag>Element] *)
Definition parent_instanceof (e : Element) (tag : string) : bool :=
  match parentElement e with
  | Some (html, name) => html && String.eqb name tag
  | None => false
  end.

Inductive CSSRule :=
| CSSImportRule (href : string)
| CSSStyleRule (backgroundImage content : string)
| CSSFontFaceRule (src : string)
| CSSOtherRule.

(** A style sheet: its [href] ([None] for an inline sheet) and its rule list;
    [cssRules = None] when reading the rules raises the cross-origin
    security error. *)
Record StyleSheet := mkStyleSheet {
  sheet_href : option string;
  cssRules : option (list CSSRule);
}.

Record Document := mkDocument {
  elements : list Element;
  styleSheets : list StyleSheet;
}.

(** *** The selectors the collectors use *)

Module Selector.

Inductive AttrTest :=
| Has (name : string)                 (* [name] *)
| Word (name word : string).          (* [name~="word"] *)

Record Compound := mkCompound { tag : string; test : AttrTest }.

Inductive Complex :=
| Plain (c : Compound)                (* tag[...] *)
| ChildOf (parent : string) (c : Compound).  (* parent > tag[...] *)

Definition is_css_space (c : ascii) : bool :=
  match c with
  | "009" | "010" | "012" | "013" | " " => true
  | _ => false
  end%char.

(** The white-space separated words of an attribute value. *)
Fixpoint words_aux (cur : string) (s : string) : list string :=
  match s with
  | EmptyString => if String.eqb cur "" then [] else [cur]
  | String c s' =>
      if is_css_space c
      then (if String.eqb cur "" then [] else [cur]) ++ words_aux "" s'
      else words_aux (cur +:+ String c "") s'
  end.
Definition words (s : string) : list string := words_aux "" s.

(** The only attribute tested with [~=] is [rel], whose values a selector
    compares without regard to the case of ASCII letters. *)
Definition attr_matches (t : AttrTest) (e : Element) : bool :=
  match t with
  | Has name => bool_decide (is_Some (assoc name (attributes e)))
  | Word name w =>
      match assoc name (attributes e) with
      | Some v =>
          existsb (fun x => String.eqb (JsString.fold_case x)
                                       (JsString.fold_case w)) (words v)
      | None => false
      end
  end.

Definition compound_matches (c : Compound) (e : Element) : bool :=
  String.eqb (localName e) (tag c) && attr_matches (test c) e.

Definition complex_matches (c : Complex) (e : Element) : bool :=
  match c with
  | Plain c => compound_matches c e
  | ChildOf p c =>
      compound_matches c e &&
      match parentElement e with
      | Some (_, name) => String.eqb name p
      | None => false
      end
  end.

(** A selector list matches when one of its members does. *)
Definition matches (sel : list Complex) (e : Element) : bool :=
  existsb (fun c => complex_matches c e) sel.

(** [document.querySelectorAll(sel)], in tree order. *)
Definition querySelectorAll (sel : list Complex) (d : Document) : list Element :=
  List.filter (matches sel) (elements d).

End Selector.

(** ** Completions, the generator protocol and the run state *)

(** A thrown value: an [Error] object, or some other value, which may be
    falsy. *)
Inductive JsValue :=
| JsError (message : string)
| JsOther (truthy : bool).

Definition is_truthy (v : JsValue) : bool :=
  match v with JsError _ => true | JsOther b => b end.

Inductive Completion (A : Type) :=
| Normal (a : A)
| Throw (e : JsValue)
| Return.                      (* the consumer closed the generator *)
Arguments Normal {A} a.
Arguments Throw {A} e.
Arguments Return {A}.

(** How the consumer resumes the generator after an item:
    [next()], [return()] or [throw(e)]. *)
Inductive Resume := Next | DoReturn | DoThrow (e : JsValue).

Inductive Event :=
| EvLaunch | EvNewPage | EvGoto (href : string)
| EvYield (r : Resource) | EvClose.

Global Instance Event_eq_dec : EqDecision Event.
Proof. solve_decision. Defined.

(** The outside world of one run: what the browser engine answers and how
    the consumer pulls. *)
Record World := mkWorld {
  launch_result : option JsValue;          (* [Some e]: launch rejects with e *)
  newPage_result : option JsValue;
  goto_result : JsValue + option HTTPResponse;
  close_result : option JsValue;
  page_url : string;
  document : nat -> Document;              (* as seen by the n-th evaluation *)
  responses : list (list HTTPResponse);    (* arriving at the successive
                                              suspension points of the page *)
  consumer : nat -> Resume;                (* after the n-th item, from 0 *)
  delegated_throw : JsValue -> JsValue;    (* what [yield*] over an array
                                              raises for a consumer's throw(e) *)
  evaluation_message : nat -> string -> string;
                                           (* the message of the Error that
                                              the n-th evaluation rejects with
                                              when its page function throws an
                                              Error with the given message *)
  evaluation_value : nat -> bool -> JsValue;
                                           (* what it rejects with when the
                                              page function throws a value that
                                              is no Error, of that truthiness *)
}.

(** What [page.evaluate] and [page.$$eval] reject with when the page
    function throws [e]: the exception does not cross from the page as it
    is, the library builds the rejection from its description. *)
Definition rejected (w : World) (n : nat) (e : JsValue) : JsValue :=
  match e with
  | JsError m => JsError (evaluation_message w n m)
  | JsOther t => evaluation_value w n t
  end.

Section Runtime.

Context {L : Type}.

Record Run := mkRun {
  events : list Event;
  caughtError : option JsValue;
  evals : nat;
  locals : L;
}.

(** A computation either runs out of fuel ([None]) or completes. *)
Definition M (A : Type) : Type := Run -> option (Completion A * Run).

Definition ret {A} (a : A) : M A := fun s => Some (Normal a, s).

Definition bind {A B} (m : M A) (k : A -> M B) : M B := fun s =>
  match m s with
  | None => None
  | Some (Normal a, s') => k a s'
  | Some (Throw e, s') => Some (Throw e, s')
  | Some (Return, s') => Some (Return, s')
  end.

Definition throw {A} (e : JsValue) : M A := fun s => Some (Throw e, s).

(** [try { m } catch (error) { h error }] *)
Definition try_catch {A} (m : M A) (h : JsValue -> M A) : M A := fun s =>
  match m s with
  | Some (Throw e, s') => h e s'
  | r => r
  end.

(** [try { m } finally { f }]: an abrupt completion of [f] wins. *)
Definition try_finally {A} (m : M A) (f : M unit) : M A := fun s =>
  match m s with
  | None => None
  | Some (c, s') =>
      match f s' with
      | None => None
      | Some (Normal _, s'') => Some (c, s'')
      | Some (Throw e, s'') => Some (Throw e, s'')
      | Some (Return, s'') => Some (Return, s'')
      end
  end.

Definition get : M Run := fun s => Some (Normal s, s).
Definition modify (f : Run -> Run) : M unit := fun s => Some (Normal tt, f s).

Definition log (ev : Event) : M unit :=
  modify (fun s => mkRun (events s ++ [ev]) (caughtError s) (evals s) (locals s)).

(** [let caughtError;] *)
Definition declare_caughtError : M unit :=
  modify (fun s => mkRun (events s) None (evals s) (locals s)).

(** [caughtError = error;] *)
Definition set_caughtError (e : JsValue) : M unit :=
  modify (fun s => mkRun (events s) (Some e) (evals s) (locals s)).

Definition set_locals (f : L -> L) : M unit :=
  modify (fun s => mkRun (events s) (caughtError s) (evals s) (f (locals s))).

(** The Resources handed to the consumer so far. *)
Fixpoint emitted_of (evs : list Event) : list Resource :=
  match evs with
  | [] => []
  | EvYield r :: evs' => r :: emitted_of evs'
  | _ :: evs' => emitted_of evs'
  end.
Definition emitted (s : Run) : list Resource := emitted_of (events s).

Variable w : World.

(** A rejected promise throws at the [await]. *)
Definition settle (r : option JsValue) : M unit :=
  match r with Some e => throw e | None => ret tt end.

Definition launch : M unit := bind (log EvLaunch) (fun _ => settle (launch_result w)).
Definition newPage : M unit := bind (log EvNewPage) (fun _ => settle (newPage_result w)).

(** [await browser.close()]; [idle] is what runs while the generator waits. *)
Definition close (idle : M unit) : M unit :=
  bind (log EvClose) (fun _ => bind idle (fun _ => settle (close_result w))).

(** One evaluation round-trip in the page: the document as it is then. *)
Definition snapshot : M Document := fun s =>
  Some (Normal (document w (evals s)),
        mkRun (events s) (caughtError s) (S (evals s)) (locals s)).

(** The item is handed over. *)
Definition emit (r : Resource) : M unit := log (EvYield r).

(** The consumer resumes the suspended generator. *)
Definition resume : M unit := fun s =>
  match consumer w (Nat.pred (length (emitted s))) with
  | Next => Some (Normal tt, s)
  | DoReturn => Some (Return, s)
  | DoThrow e => Some (Throw e, s)
  end.

(** The navigation check, the same text in both collectors:
    [if (!response || !response.ok()) { ... throw new Error(...) }] *)
Definition failure_message (href : string) (response : option HTTPResponse)
  : string :=
  let reason :=
    match response with
    | Some r => ". HTTP " +:+ NilZero.string_of_int (Z.to_int (status r))
    | None => ""
    end in
  "Failed to navigate to " +:+ href +:+ reason.

Definition navigation_failed (response : option HTTPResponse) : bool :=
  match response with
  | None => true
  | Some r => negb (ok r)
  end.

Definition check_navigation (href : string) (response : option HTTPResponse)
  : M unit :=
  if navigation_failed response
  then throw (JsError (failure_message href response))
  else ret tt.

(** The consumer resumes a generator suspended inside [yield*] over an
    array.  The array's iterator has no [throw] method, so what a value
    thrown in by the consumer surfaces as is the engine's choice (the value
    itself, or a TypeError of the delegation). *)
Definition resume_delegated : M unit := fun s =>
  match consumer w (Nat.pred (length (emitted s))) with
  | Next => Some (Normal tt, s)
  | DoReturn => Some (Return, s)
  | DoThrow e => Some (Throw (delegated_throw w e), s)
  end.

(** The [finally] block shared by both collectors:
    [await browser.close(); if (caughtError) throw caughtError;] *)
Definition teardown (idle : M unit) : M unit :=
  bind (close idle) (fun _ =>
  bind get (fun s =>
  match caughtError s with
  | Some e => if is_truthy e then throw e else ret tt
  | None => ret tt
  end)).

End Runtime.

Arguments Run : clear implicits.
Arguments M : clear implicits.

Declare Scope run_scope.
Delimit Scope run_scope with run.
Notation "'do' x <- m ; k" := (bind m (fun x => k))
  (at level 10, x name, m at level 100, k at level 200) : run_scope.
Notation "m ;; k" := (bind m (fun _ => k))
  (at level 100, k at level 200, right associativity) : run_scope.

(** ** Functions evaluated in the page *)

(** A page function returns a value or throws. *)
Inductive Result (A : Type) :=
| Ok (a : A)
| Raised (e : JsValue).
Arguments Ok {A} a.
Arguments Raised {A} e.

(** Runs [f] on the items in order and appends what it pushes; the first
    throw ends the loop. *)
Fixpoint collect {X Y : Type} (f : X -> Result (list Y)) (l : list X)
  : Result (list Y) :=
  match l with
  | [] => Ok []
  | x :: l' =>
      match f x with
      | Raised e => Raised e
      | Ok ys =>
          match collect f l' with
          | Raised e => Raised e
          | Ok zs => Ok (ys ++ zs)
          end
      end
  end.

(** What [new URL(input, base)] yields. *)
Record URLRecord := mkURL { url_href : string; protocol : string }.

Definition invalid_url : JsValue :=
  JsError "Failed to construct 'URL': Invalid URL".

(** ** The network-observed collector ([network.ts]) *)

Module Network.

Import JsString.

(** [response.headers()["content-type"] || ""] *)
Definition content_type (response : HTTPResponse) : string :=
  match headers response !! "content-type" with
  | Some v => v
  | None => ""
  end.

(** [request.frame()?.parentFrame()] is truthy *)
Definition has_parent_frame (rq : HTTPRequest) : bool :=
  match frame rq with
  | Some f => bool_decide (is_Some (parentFrame f))
  | None => false
  end.

Definition mapResourceType (response : HTTPResponse) (mainFrameUrl : string)
  : option ResourceType :=
  let request := request response in
  let type := resourceType request in
  let url := response_url response in
  if startsWith url "data:" then None else
  let contentType := content_type response in
  if String.eqb type "stylesheet" then Some stylesheet
  else if String.eqb type "script" then Some script
  else if String.eqb type "image" then
    if includes_i url "favicon" || includes_i url "apple-touch-icon"
    then Some favicon else Some image
  else if String.eqb type "media" then
    if startsWith contentType "audio/" then Some audio
    else if startsWith contentType "video/" then Some video
    else None
  else if String.eqb type "font" then Some font
  else if String.eqb type "manifest" then Some manifest
  else if String.eqb type "document" then
    if startsWith contentType "image/svg" then Some image
    else if has_parent_frame request then Some iframe
    else None
  else if String.eqb type "other" then
    if includes contentType "application/pdf"
       || includes contentType "application/octet-stream"
    then Some object else None
  else None.

(** The variables of one run: the seen-set, the queue, and the responses
    that are still to arrive. *)
Record Vars := mkVars {
  seen : gset Text;
  queue : list Resource;
  pending : list (list HTTPResponse);
}.

Local Open Scope run_scope.

Section Collector.

Variable w : World.
Variable href : string.        (* [url.href] *)
Variable options : Options.

(** The listener of [page.on("response", ...)]. *)
Definition on_response (v : Vars) (response : HTTPResponse) : Vars :=
  match mapResourceType response href with
  | None => v
  | Some resourceType =>
      let resourceUrl : Text := response_url response in
      if decide (resourceUrl ∈ seen v) then v
      else mkVars ({[resourceUrl]} ∪ seen v)
                  (queue v ++ [mkResource resourceType resourceUrl])
                  (pending v)
  end.

(** A suspension point of the generator: the listener runs on the
    responses that arrive meanwhile. *)
Definition deliver (v : Vars) : Vars :=
  match pending v with
  | [] => v
  | batch :: rest =>
      foldl on_response (mkVars (seen v) (queue v) rest) batch
  end.
Definition suspend : M Vars unit := set_locals deliver.

(** [yield resource] *)
Definition yield_ (r : Resource) : M Vars unit :=
  emit r ;; suspend ;; resume w.

(** [await page.goto(url.href, { waitUntil: "networkidle0" })] *)
Definition goto : M Vars (option HTTPResponse) :=
  log (EvGoto href) ;; suspend ;;
  match goto_result w with
  | inl e => throw e
  | inr response => ret response
  end.

(** [for (const resource of queue) yield resource;] the array iterator
    reads [queue[i]] afresh at every step. *)
Fixpoint yield_queue (fuel i : nat) : M Vars unit :=
  match fuel with
  | O => fun _ => None
  | S fuel' =>
      do s <- get;
      match queue (locals s) !! i with
      | None => ret tt
      | Some resource => yield_ resource ;; yield_queue fuel' (S i)
      end
  end.

(** Steps that certainly exhaust the queue: one per queued item and one
    per response still to arrive, plus the final test. *)
Definition steps (v : Vars) : nat :=
  S (length (queue v) + length (concat (pending v))).

Definition sel_links : list Selector.Complex :=
  [Selector.Plain (Selector.mkCompound "a" (Selector.Has "href"))].

(** [await page.$$eval("a[href]", elems => ...)] *)
Definition eval_links : M Vars (list Resource) :=
  do d <- snapshot w;
  suspend ;;
  ret (map (fun el => mkResource link (prop el "href"))
           (List.filter (fun el => instanceof el "a")
                        (Selector.querySelectorAll sel_links d))).

(** [for (const link of links) if (!seen.has(link.url)) { ... }] *)
Fixpoint yield_links (ls : list Resource) : M Vars unit :=
  match ls with
  | [] => ret tt
  | l :: rest =>
      do s <- get;
      (if decide (url l ∈ seen (locals s)) then ret tt
       else
         set_locals (fun v => mkVars ({[url l]} ∪ seen v) (queue v) (pending v)) ;;
         yield_ l) ;;
      yield_links rest
  end.

Definition links_enabled : bool :=
  match links options with Some b => b | None => false end.

(** The [try] block. *)
Definition body : M Vars unit :=
  newPage w ;;
  set_locals (fun _ => mkVars ∅ [] (responses w)) ;;
  do response <- goto;
  check_navigation href response ;;
  do s <- get;
  yield_queue (steps (locals s)) 0 ;;
  if links_enabled then
    do ls <- eval_links;
    yield_links ls
  else ret tt.

Definition getAllSubResources : M Vars unit :=
  declare_caughtError ;;
  launch w ;;
  try_finally (try_catch body set_caughtError) (teardown w suspend).

Definition start : Run Vars := mkRun [] None 0 (mkVars ∅ [] []).

End Collector.

End Network.

(** ** The DOM-query collector ([index.ts]) *)

Module Dom.

Import JsString Selector.
Local Open Scope run_scope.

Section Collector.

(** [new URL(input, base)]: the engine's URL parser, [None] when it
    throws. *)
Variable URL : string -> option string -> option URLRecord.

Definition new_URL (input : string) (base : option string) : Result URLRecord :=
  match URL input base with
  | Some u => Ok u
  | None => Raised invalid_url
  end.

Definition resource_of (t : ResourceType) (u : Text) : Resource :=
  mkResource t u.

Definition sel_stylesheets := [Plain (mkCompound "link" (Word "rel" "stylesheet"))].
Definition sel_scripts := [Plain (mkCompound "script" (Has "src"))].
Definition sel_media :=
  [Plain (mkCompound "img" (Has "src"));
   ChildOf "video" (mkCompound "source" (Has "src"));
   Plain (mkCompound "video" (Has "src"));
   Plain (mkCompound "audio" (Has "src"))].
Definition sel_srcset :=
  [Plain (mkCompound "img" (Has "srcset"));
   ChildOf "picture" (mkCompound "source" (Has "srcset"))].
Definition sel_iframes := [Plain (mkCompound "iframe" (Has "src"))].
Definition sel_favicons :=
  [Plain (mkCompound "link" (Word "rel" "icon"));
   Plain (mkCompound "link" (Word "rel" "apple-touch-icon"))].
Definition sel_manifest := [Plain (mkCompound "link" (Word "rel" "manifest"))].
Definition sel_objects := [Plain (mkCompound "object" (Has "data"))].

(** *** [getStyleSheets] *)
Definition getStyleSheets (d : Document) : Result (list Resource) :=
  Ok (map (fun elem => resource_of stylesheet (prop elem "href"))
          (querySelectorAll sel_stylesheets d)).

(** [stylesheet.href || pageURL] *)
Definition base_of (sheet : StyleSheet) (pageURL : string) : string :=
  match sheet_href sheet with
  | Some h => if String.eqb h "" then pageURL else h
  | None => pageURL
  end.

(** The loop over [document.styleSheets] of the three style-sheet passes:
    a sheet whose [cssRules] cannot be read is left with [continue]. *)
Definition over_sheets {Y} (per_rule : string -> CSSRule -> Result (list Y))
  (pageURL : string) (d : Document) : Result (list Y) :=
  collect (fun sheet =>
             match cssRules sheet with
             | None => Ok []
             | Some rules => collect (per_rule (base_of sheet pageURL)) rules
             end)
          (styleSheets d).

(** *** [getImportedStyleSheets] *)
Definition imported_of_rule (baseURL : string) (rule : CSSRule)
  : Result (list Resource) :=
  match rule with
  | CSSImportRule href =>
      match new_URL href (Some baseURL) with
      | Ok u => Ok [resource_of stylesheet (url_href u)]
      | Raised e => Raised e
      end
  | _ => Ok []
  end.

Definition getImportedStyleSheets (pageURL : string) (d : Document)
  : Result (list Resource) :=
  over_sheets imported_of_rule pageURL d.

(** *** [getScripts] *)
Definition getScripts (d : Document) : Result (list Resource) :=
  Ok (map (fun elem => resource_of script (prop elem "src"))
          (querySelectorAll sel_scripts d)).

(** *** [getMedia] *)
Definition media_type (elem : Element) : Result ResourceType :=
  if instanceof elem "img" then Ok image
  else if instanceof elem "video" then Ok video
  else if instanceof elem "source" then
    if parent_instanceof elem "video" then Ok video else Ok audio
  else Raised (JsError "Reached unreachable code.").

Definition mediaSources (d : Document) : Result (list Resource) :=
  collect (fun elem =>
             match media_type elem with
             | Ok t => Ok [resource_of t (prop elem "src")]
             | Raised e => Raised e
             end)
          (querySelectorAll sel_media d).

(** [part.trim().split(/\\s+/, 2)[0]] *)
Definition candidate_src (part : string) : string :=
  match take 2 (split_space (trim part)) with
  | src :: _ => src
  | [] => "undefined"
  end.

(** [srcset.trim().split(/,\\s+/).filter(s => s.trim())] *)
Definition candidates (srcset : string) : list string :=
  List.filter (fun s => negb (String.eqb (trim s) ""))
              (split_comma_space (trim srcset)).

Definition srcset_images (pageURL : string) (srcset : string)
  : Result (list Resource) :=
  collect (fun part =>
             match new_URL (candidate_src part) (Some pageURL) with
             | Ok u => Ok [resource_of image (url_href u)]
             | Raised e => Raised e
             end)
          (candidates srcset).

(** [undefined.trim()] *)
Definition undefined_trim : JsValue :=
  JsError "Cannot read properties of undefined (reading 'trim')".

Definition imageSrcSets (pageURL : string) (d : Document)
  : Result (list Resource) :=
  collect (fun elem =>
             match prop elem "srcset" with
             | undefined => Raised undefined_trim
             | text srcset => srcset_images pageURL srcset
             end)
          (querySelectorAll sel_srcset d).

(** *** [getStyleSheetImages] and [getFonts] *)

(** [value.split(",").map(match).map(trim).filter(truthy)
     .map(url => new URL(url, baseURL).href)] *)
Definition quoted_urls (value : string) : list string :=
  List.filter (fun s => negb (String.eqb s ""))
    (omap (fun s => match match_url s with
                    | Some g => Some (trim g)
                    | None => None
                    end)
          (split_comma value)).

Definition resolve_all (baseURL : string) (us : list string)
  : Result (list string) :=
  collect (fun u =>
             match new_URL u (Some baseURL) with
             | Ok r => Ok [url_href r]
             | Raised e => Raised e
             end) us.

Definition images_of_rule (baseURL : string) (rule : CSSRule)
  : Result (list string) :=
  match rule with
  | CSSStyleRule backgroundImage content =>
      if negb (String.eqb backgroundImage "") then
        resolve_all baseURL (quoted_urls backgroundImage)
      else if negb (String.eqb content "") then
        match match_url content with
        | None => Ok []
        | Some g =>
            let url := trim g in
            if String.eqb url "" then Ok []
            else
              match new_URL url (Some baseURL) with
              | Raised e => Raised e
              | Ok r =>
                  if String.eqb (protocol r) "data:" then Ok []
                  else Ok [url_href r]
              end
        end
      else Ok []
  | _ => Ok []
  end.

Definition as_type (t : ResourceType) (r : Result (list string))
  : Result (list Resource) :=
  match r with
  | Ok urls => Ok (map (fun url : string => resource_of t url) urls)
  | Raised e => Raised e
  end.

Definition getStyleSheetImages (pageURL : string) (d : Document)
  : Result (list Resource) :=
  as_type image (over_sheets images_of_rule pageURL d).

Definition fonts_of_rule (baseURL : string) (rule : CSSRule)
  : Result (list string) :=
  match rule with
  | CSSFontFaceRule src =>
      if negb (String.eqb src "") then resolve_all baseURL (quoted_urls src)
      else Ok []
  | _ => Ok []
  end.

Definition getFonts (pageURL : string) (d : Document)
  : Result (list Resource) :=
  as_type font (over_sheets fonts_of_rule pageURL d).

(** *** [getIframes] *)
Definition getIframes (d : Document) : Result (list Resource) :=
  Ok (map (fun elem => resource_of iframe (prop elem "src"))
          (querySelectorAll sel_iframes d)).

(** *** [getFavicons] *)
Definition getFavicons (d : Document) : Result (list Resource) :=
  collect (fun elem =>
             match prop elem "href" with
             | undefined => Ok []
             | text href =>
                 if String.eqb href "" then Ok []
                 else
                   match new_URL href None with
                   | Raised e => Raised e
                   | Ok r =>
                       if String.eqb (protocol r) "data:" then Ok []
                       else Ok [resource_of favicon (prop elem "href")]
                   end
             end)
          (querySelectorAll sel_favicons d).

(** *** [getMiscResources] *)

(** [page.$eval(sel, ...).catch(() => null)]: the first match, if any. *)
Definition manifest_of (d : Document) : list Resource :=
  match querySelectorAll sel_manifest d with
  | elem :: _ => [resource_of manifest (prop elem "href")]
  | [] => []
  end.

(** [try { ... new URL(elem.data, pageURL) ... } catch {}] per element. *)
Definition dataObjects (pageURL : string) (d : Document) : list Resource :=
  omap (fun elem =>
          match URL (to_string (prop elem "data")) (Some pageURL) with
          | Some u => Some (resource_of object (url_href u))
          | None => None
          end)
       (querySelectorAll sel_objects d).

(** *** [getAllSubResources] *)

Variable w : World.
Variable href : string.        (* [url.href] *)

(** [await page.evaluate(...)] / [await page.$$eval(...)] *)
Definition evaluate {A} (f : Document -> Result A) : M unit A :=
  do s <- get;
  do d <- snapshot w;
  match f d with
  | Ok a => ret a
  | Raised e => throw (rejected w (evals s) e)
  end.

(** One item of [yield* resources]. *)
Definition yield_ (r : Resource) : M unit unit := emit r ;; resume_delegated w.

(** [yield* resources] *)
Fixpoint yield_all (rs : list Resource) : M unit unit :=
  match rs with
  | [] => ret tt
  | r :: rs' => yield_ r ;; yield_all rs'
  end.

(** [await page.goto(url.href, {})] *)
Definition goto : M unit (option HTTPResponse) :=
  log (EvGoto href) ;;
  match goto_result w with
  | inl e => throw e
  | inr response => ret response
  end.

Definition getMedia : M unit (list Resource) :=
  do mediaSources <- evaluate mediaSources;
  do imageSrcSets <- evaluate (imageSrcSets (page_url w));
  ret (mediaSources ++ imageSrcSets).

Definition getMiscResources : M unit (list Resource) :=
  do manifest <- evaluate (fun d => Ok (manifest_of d));
  do dataObjects <- evaluate (fun d => Ok (dataObjects (page_url w) d));
  ret (manifest ++ dataObjects).

(** The [try] block. *)
Definition body : M unit unit :=
  newPage w ;;
  do response <- goto;
  check_navigation href response ;;
  (do rs <- evaluate getStyleSheets; yield_all rs) ;;
  (do rs <- evaluate (getImportedStyleSheets (page_url w)); yield_all rs) ;;
  (do rs <- evaluate getScripts; yield_all rs) ;;
  (do rs <- getMedia; yield_all rs) ;;
  (do rs <- evaluate (getStyleSheetImages (page_url w)); yield_all rs) ;;
  (do rs <- evaluate (getFonts (page_url w)); yield_all rs) ;;
  (do rs <- evaluate getFavicons; yield_all rs) ;;
  (do rs <- evaluate getIframes; yield_all rs) ;;
  (do rs <- getMiscResources; yield_all rs).

Definition getAllSubResources : M unit unit :=
  declare_caughtError ;;
  launch w ;;
  try_finally (try_catch body set_caughtError) (teardown w (ret tt)).

Definition start : Run unit := mkRun [] None 0 tt.

End Collector.

End Dom.

(** * Reasoning about runs *)

Section RunLogic.

Context {L : Type}.
Implicit Types (s : Run L) (P I : Run L -> Prop).

(** Partial correctness: whatever way [m] completes from a state of [P],
    [Q] holds of the completion and the final state. *)
Definition triple {A} P (m : M L A) (Q : Completion A -> Run L -> Prop) : Prop :=
  forall s c s', P s -> m s = Some (c, s') -> Q c s'.

(** [I] survives [m], however [m] completes. *)
Definition keeps {A} I (m : M L A) : Prop := triple I m (fun _ => I).

(** [m] completes from every state. *)
Definition total {A} (m : M L A) : Prop := forall s, is_Some (m s).

Lemma bind_Some {A B} (m : M L A) (k : A -> M L B) s c s' :
  bind m k s = Some (c, s') ->
  (exists a s1, m s = Some (Normal a, s1) /\ k a s1 = Some (c, s'))
  \/ (exists e, m s = Some (Throw e, s') /\ c = Throw e)
  \/ (m s = Some (Return, s') /\ c = Return).
Proof.
  unfold bind. destruct (m s) as [[[a|e|] s1]|]; intros H; simplify_eq; eauto 10.
Qed.

Lemma triple_bind {A B} P (R : Completion A -> Run L -> Prop) Q
    (m : M L A) (k : A -> M L B) :
  triple P m R ->
  (forall a, triple (R (Normal a)) (k a) Q) ->
  (forall e s, R (Throw e) s -> Q (Throw e) s) ->
  (forall s, R Return s -> Q Return s) ->
  triple P (bind m k) Q.
Proof.
  intros Hm Hk He Hr s c s' HP Hrun.
  apply bind_Some in Hrun as [(a & s1 & H1 & H2)|[(e & H1 & ->)|[H1 ->]]].
  - eapply Hk; [|exact H2]. eapply Hm; eauto.
  - apply He. eapply Hm; eauto.
  - apply Hr. eapply Hm; eauto.
Qed.

Lemma triple_weaken {A} P P' (Q Q' : Completion A -> Run L -> Prop) (m : M L A) :
  triple P m Q ->
  (forall s, P' s -> P s) -> (forall c s, Q c s -> Q' c s) ->
  triple P' m Q'.
Proof. intros Hm HP HQ s c s' H Hrun. apply HQ. eapply Hm; eauto. Qed.

Lemma keeps_bind {A B} I (m : M L A) (k : A -> M L B) :
  keeps I m -> (forall a, keeps I (k a)) -> keeps I (bind m k).
Proof. intros Hm Hk. eapply triple_bind; eauto. Qed.

Lemma keeps_ret {A} I (a : A) : keeps I (ret a).
Proof. intros s c s' HI H. unfold ret in H. by simplify_eq. Qed.

Lemma keeps_throw {A} I e : keeps I (@throw L A e).
Proof. intros s c s' HI H. unfold throw in H. by simplify_eq. Qed.

Lemma keeps_get I : keeps I (@get L).
Proof. intros s c s' HI H. unfold get in H. by simplify_eq. Qed.

Lemma keeps_modify I (f : Run L -> Run L) :
  (forall s, I s -> I (f s)) -> keeps I (modify f).
Proof. intros Hf s c s' HI H. unfold modify in H. simplify_eq. auto. Qed.

Lemma keeps_settle I r : keeps I (@settle L r).
Proof. destruct r; [apply keeps_throw | apply keeps_ret]. Qed.

Lemma keeps_resume I w : keeps I (@resume L w).
Proof.
  intros s c s' HI H. unfold resume in H.
  destruct (consumer w _); by simplify_eq.
Qed.

Lemma keeps_resume_delegated I w : keeps I (@resume_delegated L w).
Proof.
  intros s c s' HI H. unfold resume_delegated in H.
  destruct (consumer w _); by simplify_eq.
Qed.

Lemma keeps_check_navigation I href response :
  keeps I (@check_navigation L href response).
Proof.
  unfold check_navigation. destruct (navigation_failed response);
    [apply keeps_throw | apply keeps_ret].
Qed.

Lemma keeps_try_catch {A} I (m : M L A) h :
  keeps I m -> (forall e, keeps I (h e)) -> keeps I (try_catch m h).
Proof.
  intros Hm Hh s c s' HI H. unfold try_catch in H.
  destruct (m s) as [[[a|e|] s1]|] eqn:E; simplify_eq.
  - eapply Hm; eauto.
  - eapply Hh; [|exact H]. eapply Hm; eauto.
  - eapply Hm; eauto.
Qed.

Lemma try_finally_Some {A} (m : M L A) f s c s' :
  try_finally m f s = Some (c, s') ->
  exists c1 s1 c2, m s = Some (c1, s1) /\ f s1 = Some (c2, s') /\
    c = match c2 with Normal _ => c1 | Throw e => Throw e | Return => Return end.
Proof.
  unfold try_finally. destruct (m s) as [[c1 s1]|]; [|done].
  destruct (f s1) as [[c2 s2]|] eqn:E; [|done].
  intros H. exists c1, s1, c2. destruct c2; by simplify_eq.
Qed.

Lemma keeps_try_finally {A} I (m : M L A) f :
  keeps I m -> keeps I f -> keeps I (try_finally m f).
Proof.
  intros Hm Hf s c s' HI H.
  apply try_finally_Some in H as (c1 & s1 & c2 & H1 & H2 & _).
  eapply Hf; [|exact H2]. eapply Hm; eauto.
Qed.

Lemma triple_seq {A B} P R Q (m : M L A) (k : A -> M L B) :
  triple P m (fun _ => R) ->
  (forall a, triple R (k a) (fun _ => Q)) ->
  (forall s, R s -> Q s) ->
  triple P (bind m k) (fun _ => Q).
Proof. intros Hm Hk HRQ. eapply triple_bind; eauto. Qed.

Lemma triple_try_catch {A} P R (m : M L A) h :
  triple P m (fun _ => R) -> (forall e, keeps R (h e)) ->
  triple P (try_catch m h) (fun _ => R).
Proof.
  intros Hm Hh s c s' HP H. unfold try_catch in H.
  destruct (m s) as [[[a|e|] s1]|] eqn:E; simplify_eq.
  - eapply Hm; eauto.
  - eapply Hh; [|exact H]. eapply Hm; eauto.
  - eapply Hm; eauto.
Qed.

Lemma triple_try_finally {A} P R (m : M L A) f :
  triple P m (fun _ => R) -> keeps R f ->
  triple P (try_finally m f) (fun _ => R).
Proof.
  intros Hm Hf s c s' HP H.
  apply try_finally_Some in H as (c1 & s1 & c2 & H1 & H2 & _).
  eapply Hf; [|exact H2]. eapply Hm; eauto.
Qed.

(** *** Totality *)

Lemma total_ret {A} (a : A) : total (@ret L A a).
Proof. intros s. by eexists. Qed.

Lemma total_throw {A} e : total (@throw L A e).
Proof. intros s. by eexists. Qed.

Lemma total_get : total (@get L).
Proof. intros s. by eexists. Qed.

Lemma total_modify f : total (@modify L f).
Proof. intros s. by eexists. Qed.

Lemma total_bind {A B} (m : M L A) (k : A -> M L B) :
  total m -> (forall a, total (k a)) -> total (bind m k).
Proof.
  intros Hm Hk s. unfold bind. destruct (Hm s) as [[[a|e|] s1] ->]; eauto.
  apply Hk.
Qed.

Lemma total_settle r : total (@settle L r).
Proof. destruct r; [apply total_throw | apply total_ret]. Qed.

Lemma total_resume w : total (@resume L w).
Proof. intros s. unfold resume. destruct (consumer w _); by eexists. Qed.

Lemma total_resume_delegated w : total (@resume_delegated L w).
Proof. intros s. unfold resume_delegated. destruct (consumer w _); by eexists. Qed.

Lemma total_snapshot w : total (@snapshot L w).
Proof. intros s. by eexists. Qed.

Lemma total_check_navigation href response :
  total (@check_navigation L href response).
Proof.
  unfold check_navigation. destruct (navigation_failed response);
    [apply total_throw | apply total_ret].
Qed.

Lemma total_try_catch {A} (m : M L A) h :
  total m -> (forall e, total (h e)) -> total (try_catch m h).
Proof.
  intros Hm Hh s. unfold try_catch. destruct (Hm s) as [[[a|e|] s1] ->]; eauto.
  apply Hh.
Qed.

Lemma total_try_finally {A} (m : M L A) f :
  total m -> total f -> total (try_finally m f).
Proof.
  intros Hm Hf s. unfold try_finally. destruct (Hm s) as [[c1 s1] ->].
  destruct (Hf s1) as [[[[]|e|] s2] ->]; eauto.
Qed.

(** *** The frame around the [try] block *)

(** The [try] block neither assigns [caughtError] nor closes the browser. *)
Definition calm s : Prop := caughtError s = None /\ EvClose ∉ events s.

Lemma keeps_calm_log ev : ev <> EvClose -> keeps calm (@log L ev).
Proof.
  intros Hev. apply keeps_modify. intros s [Hc He]. split; [done|]. simpl.
  intros [?|?%list_elem_of_singleton]%elem_of_app; [done|]. by apply Hev.
Qed.

Lemma keeps_calm_set_locals f : keeps calm (@set_locals L f).
Proof. apply keeps_modify. by intros s [? ?]. Qed.

Lemma keeps_calm_snapshot w : keeps calm (@snapshot L w).
Proof. intros s c s' [Hc He] H. unfold snapshot in H. by simplify_eq. Qed.

Lemma keeps_calm_newPage w : keeps calm (@newPage L w).
Proof.
  apply keeps_bind; [by apply keeps_calm_log|]. intros _. apply keeps_settle.
Qed.

(** What [try { b } catch (error) { caughtError = error; } finally
    { await browser.close(); if (caughtError) throw caughtError; }] does,
    from how the block [b] completes. *)
Definition after_teardown (w : World) (c1 : Completion unit) : Completion unit :=
  match close_result w with
  | Some e' => Throw e'
  | None =>
      match c1 with
      | Throw e => if is_truthy e then Throw e else Normal tt
      | _ => c1
      end
  end.

(** What runs while the generator waits for the close leaves the trace and
    [caughtError] alone. *)
Definition silent (idle : M L unit) : Prop :=
  forall s, exists l,
    idle s = Some (Normal tt, mkRun (events s) (caughtError s) (evals s) l).

Lemma silent_ret : silent (ret tt).
Proof. intros [evs ce n l]. by exists l. Qed.

Lemma silent_set_locals f : silent (set_locals f).
Proof. intros s. by eexists. Qed.

Lemma guarded_run w idle (b : M L unit) s c1 s2 :
  silent idle ->
  b s = Some (c1, s2) ->
  caughtError s2 = None ->
  exists s3,
    try_finally (try_catch b set_caughtError) (teardown w idle) s
      = Some (after_teardown w c1, s3)
    /\ events s3 = events s2 ++ [EvClose].
Proof.
  intros Hidle Hb Hc. unfold try_finally, try_catch, teardown, after_teardown.
  rewrite Hb.
  unfold close, bind, log, modify, settle, get, set_caughtError, throw, ret.
  destruct c1 as [[]|e|]; simpl;
    match goal with
    | |- context [idle ?s] => destruct (Hidle s) as [l ->]
    end; simpl; rewrite ?Hc;
    destruct (close_result w) as [e'|]; simpl;
    try destruct (is_truthy e); simpl; eauto.
Qed.

(** [let caughtError; const browser = await puppeteer.launch(...)] when the
    launch succeeds. *)
Definition launched (s : Run L) : Run L :=
  mkRun (events s ++ [EvLaunch]) None (evals s) (locals s).

Lemma launch_run {A} w (k : M L A) s :
  launch_result w = None ->
  bind declare_caughtError (fun _ => bind (launch w) (fun _ => k)) s
    = k (launched s).
Proof.
  intros Hl. unfold bind, declare_caughtError, launch, bind, log, modify, settle.
  simpl. rewrite Hl. reflexivity.
Qed.

End RunLogic.

(** * Classification of observed responses *)

Section Classification.

Import JsString Network.

(** A media response served from a [data:] URL, as an inline audio clip
    produces. *)
Definition inline_audio : HTTPResponse :=
  mkResponse (mkRequest "media" None) "data:audio/wav;base64,UklGRg=="
             200%Z {[ "content-type" := "audio/wav" ]}.

(** C8, the claim as stated fails: a media response whose content type
    starts with [audio/] is dropped when its URL starts with [data:]. *)
Lemma mapResourceType_media_data :
  resourceType (request inline_audio) = "media"
  /\ startsWith (content_type inline_audio) "audio/" = true
  /\ mapResourceType inline_audio "https://example.org/" = None.
Proof. by vm_compute. Qed.

(** C8, as amended: for a response of request category media, the response
    is dropped when its URL starts with [data:]; otherwise the result is
    audio when the content type starts with [audio/], else video when it
    starts with [video/], else the response is dropped. *)
Theorem mapResourceType_media response mainFrameUrl :
  resourceType (request response) = "media" ->
  mapResourceType response mainFrameUrl =
    if startsWith (response_url response) "data:" then None
    else if startsWith (content_type response) "audio/" then Some audio
    else if startsWith (content_type response) "video/" then Some video
    else None.
Proof.
  intros Hty. unfold mapResourceType. rewrite Hty.
  by destruct (startsWith (response_url response) "data:").
Qed.

Definition streamed_video : HTTPResponse :=
  mkResponse (mkRequest "media" None) "https://example.org/clip.webm"
             206%Z {[ "content-type" := "video/webm" ]}.

Lemma mapResourceType_media_witness :
  mapResourceType streamed_video "https://example.org/" = Some video.
Proof.
  rewrite (mapResourceType_media streamed_video "https://example.org/");
    by vm_compute.
Defined.

(** C10: the result of [mapResourceType] is determined by the request
    category, the URL, the content-type header and whether the request's
    frame has a parent; in particular it does not depend on
    [mainFrameUrl]. *)
Theorem mapResourceType_deterministic r1 r2 m1 m2 :
  resourceType (request r1) = resourceType (request r2) ->
  response_url r1 = response_url r2 ->
  headers r1 !! "content-type" = headers r2 !! "content-type" ->
  has_parent_frame (request r1) = has_parent_frame (request r2) ->
  mapResourceType r1 m1 = mapResourceType r2 m2.
Proof.
  intros Hty Hurl Hct Hpf. unfold mapResourceType, content_type.
  by rewrite Hty, Hurl, Hct, Hpf.
Qed.

(** Two responses that differ in status, in the other headers and in the
    frame they belong to. *)
Definition framed_a : HTTPResponse :=
  mkResponse (mkRequest "document" (Some (mkFrame "child-1" (Some "main"))))
             "https://example.org/embed.html" 200%Z
             {[ "content-type" := "text/html" ]}.
Definition framed_b : HTTPResponse :=
  mkResponse (mkRequest "document" (Some (mkFrame "child-2" (Some "child-1"))))
             "https://example.org/embed.html" 203%Z
             (<[ "content-type" := "text/html" ]> {[ "server" := "nginx" ]}).

Lemma mapResourceType_deterministic_witness :
  mapResourceType framed_a "https://example.org/" =
  mapResourceType framed_b "https://elsewhere.example/".
Proof.
  apply (mapResourceType_deterministic framed_a framed_b); by vm_compute.
Defined.

End Classification.

(** * The network-observed collector *)

Section NetworkRuns.

Import JsString Network.

Variable w : World.
Variable href : string.
Variable options : Options.

Implicit Types (v : Vars) (s : Run Vars) (r : Resource).

Lemma emitted_of_app evs evs' :
  emitted_of (evs ++ evs') = emitted_of evs ++ emitted_of evs'.
Proof.
  induction evs as [|[] evs IH]; simpl; rewrite ?IH; reflexivity.
Qed.

Lemma mapResourceType_not_link response m t :
  mapResourceType response m = Some t -> t <> link.
Proof.
  unfold mapResourceType. intros H.
  repeat (match type of H with context [if ?b then _ else _] =>
            destruct b end); by simplify_eq.
Qed.

(** What the seen-set and the queue satisfy together with the links [ls]
    emitted so far. *)
Definition Base v (ls : list Resource) : Prop :=
  NoDup (url <$> (queue v ++ ls))
  /\ (forall r, r ∈ queue v ++ ls -> url r ∈ seen v)
  /\ Forall (fun r => type r <> link) (queue v)
  /\ Forall (fun r => type r = link) ls.

(** The queue only grows, at its end. *)
Definition grows v v' : Prop := exists new, queue v' = queue v ++ new.

Definition load v : nat := length (queue v) + length (concat (pending v)).

Lemma grows_refl v : grows v v.
Proof. exists []. by rewrite app_nil_r. Qed.

Lemma grows_trans v1 v2 v3 : grows v1 v2 -> grows v2 v3 -> grows v1 v3.
Proof. intros [n1 H1] [n2 H2]. exists (n1 ++ n2). by rewrite H2, H1, <-app_assoc. Qed.

Lemma on_response_frame v response :
  grows v (on_response href v response)
  /\ pending (on_response href v response) = pending v
  /\ length (queue (on_response href v response)) <= S (length (queue v)).
Proof.
  unfold on_response.
  destruct (mapResourceType response href) as [t|];
    [|by split_and!; [apply grows_refl|done|lia]].
  case_decide; [by split_and!; [apply grows_refl|done|lia]|].
  simpl. split_and!; [by eexists|done|].
  rewrite length_app. simpl. lia.
Qed.

Lemma on_response_Base v response ls :
  Base v ls -> Base (on_response href v response) ls.
Proof.
  intros (Hnd & Hseen & Hq & Hl). unfold on_response.
  destruct (mapResourceType response href) as [t|] eqn:Ht; [|done].
  apply mapResourceType_not_link in Ht.
  case_decide as Hin; [done|].
  set (x := mkResource t (response_url response)).
  assert (Hperm : (queue v ++ [x]) ++ ls ≡ₚ x :: (queue v ++ ls)).
  { rewrite <-app_assoc. simpl. by rewrite <-Permutation_middle. }
  unfold Base. simpl. split_and!.
  - rewrite Hperm, fmap_cons. apply NoDup_cons. split; [|done].
    intros (r & Hr & Hrl)%list_elem_of_fmap.
    apply Hin. simpl in Hr. rewrite Hr. by apply Hseen.
  - intros r Hr. rewrite Hperm in Hr.
    apply elem_of_cons in Hr as [->|Hr]; [set_solver|].
    apply elem_of_union_r. by apply Hseen.
  - apply Forall_app. split; [done|]. by apply Forall_singleton.
  - done.
Qed.

Lemma foldl_on_response_frame batch : forall v,
  grows v (foldl (on_response href) v batch)
  /\ pending (foldl (on_response href) v batch) = pending v
  /\ length (queue (foldl (on_response href) v batch))
     <= length (queue v) + length batch.
Proof.
  induction batch as [|response batch IH]; intros v; simpl.
  - split_and!; [apply grows_refl|done|lia].
  - destruct (on_response_frame v response) as (Hg1 & Hp1 & Hl1).
    destruct (IH (on_response href v response)) as (Hg2 & Hp2 & Hl2).
    split_and!; [by eapply grows_trans|congruence|lia].
Qed.

Lemma foldl_on_response_Base batch : forall v ls,
  Base v ls -> Base (foldl (on_response href) v batch) ls.
Proof.
  induction batch as [|response batch IH]; intros v ls HB; simpl; [done|].
  by apply IH, on_response_Base.
Qed.

Lemma deliver_frame v :
  grows v (deliver href v) /\ load (deliver href v) <= load v.
Proof.
  unfold deliver, load.
  destruct (pending v) as [|batch rest] eqn:Hp.
  - rewrite Hp. split; [apply grows_refl|lia].
  - destruct (foldl_on_response_frame batch (mkVars (seen v) (queue v) rest))
      as (Hg & Hp' & Hl).
    simpl in *. split; [exact Hg|].
    rewrite Hp', length_app. lia.
Qed.

Lemma deliver_Base v ls : Base v ls -> Base (deliver href v) ls.
Proof.
  intros HB. unfold deliver. destruct (pending v) as [|batch rest]; [done|].
  by apply foldl_on_response_Base.
Qed.

(** Before the first item: nothing emitted yet. *)
Definition Pre s : Prop := emitted s = [] /\ Base (locals s) [].

(** The items emitted are the first [n] of the queue followed by links;
    with [b = false] there are no links. *)
Definition Inv (b : bool) s : Prop :=
  exists n ls,
    n <= length (queue (locals s))
    /\ emitted s = take n (queue (locals s)) ++ ls
    /\ Base (locals s) ls
    /\ (b = false -> ls = []).

Lemma Pre_Inv b s : Pre s -> Inv b s.
Proof.
  intros [He HB]. exists 0, []. rewrite He, take_0.
  split_and!; [lia|done|done|done].
Qed.

Lemma Inv_true b s : Inv b s -> Inv true s.
Proof. intros (n & ls & ? & ? & ? & _). by exists n, ls. Qed.

Lemma yield_Some r s c s' :
  yield_ w href r s = Some (c, s') ->
  s' = mkRun (events s ++ [EvYield r]) (caughtError s) (evals s)
             (deliver href (locals s)).
Proof.
  unfold yield_, bind, emit, log, suspend, set_locals, modify, resume. simpl.
  destruct (consumer w _); intros; by simplify_eq.
Qed.

Lemma yield_total r : total (yield_ w href r).
Proof.
  intros s. unfold yield_, bind, emit, log, suspend, set_locals, modify, resume.
  simpl. destruct (consumer w _); by eexists.
Qed.

Lemma emitted_yield r s :
  emitted (mkRun (events s ++ [EvYield r]) (caughtError s) (evals s)
                 (deliver href (locals s)))
  = emitted s ++ [r].
Proof. unfold emitted. simpl. by rewrite emitted_of_app. Qed.

(** The state after [yield queue[i]]. *)
Lemma after_yield_queue i r s s1 :
  queue (locals s) !! i = Some r ->
  emitted s = take i (queue (locals s)) ->
  Base (locals s) [] ->
  s1 = mkRun (events s ++ [EvYield r]) (caughtError s) (evals s)
             (deliver href (locals s)) ->
  S i <= length (queue (locals s1))
  /\ emitted s1 = take (S i) (queue (locals s1))
  /\ Base (locals s1) [].
Proof.
  intros Hq He HB ->. rewrite emitted_yield. simpl.
  destruct (deliver_frame (locals s)) as [[new Hnew] _].
  pose proof (lookup_lt_Some _ _ _ Hq) as Hlt.
  rewrite Hnew. split_and!.
  - rewrite length_app. lia.
  - rewrite take_app_le by lia. rewrite He. symmetry. by apply take_S_r.
  - by apply deliver_Base.
Qed.

Lemma yield_queue_spec fuel : forall i,
  triple (fun s => i <= length (queue (locals s))
                   /\ emitted s = take i (queue (locals s))
                   /\ Base (locals s) [])
         (yield_queue w href fuel i)
         (fun _ s => Inv false s).
Proof.
  induction fuel as [|fuel IH]; intros i s c s' (Hi & He & HB) H;
    simpl in H; [done|].
  apply bind_Some in H as [(s0 & s1 & Hget & H)|[(e & Hget & _)|[Hget _]]];
    unfold get in Hget; simplify_eq.
  destruct (queue (locals s0) !! i) as [r|] eqn:Hq.
  - apply bind_Some in H as [([] & s2 & Hy & H)|[(e & Hy & _)|[Hy _]]];
      apply yield_Some in Hy;
      destruct (after_yield_queue i r s0 _ Hq He HB Hy) as (Hi' & He' & HB').
    + eapply (IH (S i)); [|exact H]. done.
    + exists (S i), []. by rewrite app_nil_r.
    + exists (S i), []. by rewrite app_nil_r.
  - unfold ret in H. simplify_eq. exists i, []. by rewrite app_nil_r.
Qed.

Lemma yield_queue_total fuel : forall i s,
  length (queue (locals s)) - i + length (concat (pending (locals s))) < fuel ->
  is_Some (yield_queue w href fuel i s).
Proof.
  induction fuel as [|fuel IH]; intros i s Hlt; [lia|].
  simpl. unfold bind at 1, get.
  destruct (queue (locals s) !! i) as [r|] eqn:Hq; [|by eexists].
  unfold bind. destruct (yield_total r s) as [[c s1] Hy]. rewrite Hy.
  pose proof (yield_Some _ _ _ _ Hy) as ->.
  destruct c; [|by eexists..].
  apply IH. simpl.
  destruct (deliver_frame (locals s)) as [[new Hnew] Hload].
  pose proof (lookup_lt_Some _ _ _ Hq) as Hi.
  unfold load in Hload. rewrite Hnew, length_app in *. lia.
Qed.

(** Adding a fresh link target to the seen-set. *)
Lemma Base_add_link v ls l :
  Base v ls -> type l = link -> url l ∉ seen v ->
  Base (mkVars ({[url l]} ∪ seen v) (queue v) (pending v)) (ls ++ [l]).
Proof.
  intros (Hnd & Hseen & Hq & Hlk) Hl Hin.
  assert (Hperm : queue v ++ ls ++ [l] ≡ₚ l :: (queue v ++ ls)).
  { by rewrite app_assoc, <-Permutation_cons_append. }
  unfold Base. simpl. split_and!.
  - rewrite Hperm, fmap_cons. apply NoDup_cons. split; [|done].
    intros (r & Hr & Hrl)%list_elem_of_fmap.
    apply Hin. rewrite Hr. by apply Hseen.
  - intros r Hr. rewrite Hperm in Hr.
    apply elem_of_cons in Hr as [->|Hr]; [set_solver|].
    apply elem_of_union_r. by apply Hseen.
  - done.
  - apply Forall_app. split; [done|]. by apply Forall_singleton.
Qed.

Lemma keeps_bind_get {A} (I : Run Vars -> Prop) (k : Run Vars -> M Vars A) :
  (forall s0, triple (fun s => s = s0 /\ I s) (k s0) (fun _ => I)) ->
  keeps I (bind get k).
Proof.
  intros Hk s c s' HI H. unfold bind, get in H. eapply Hk; [|exact H]. done.
Qed.

(** The loop over the links. *)
Lemma yield_links_spec ls0 :
  Forall (fun r => type r = link) ls0 ->
  keeps (Inv true) (yield_links w href ls0).
Proof.
  induction ls0 as [|l ls0 IH]; intros Hls; simpl; [apply keeps_ret|].
  apply Forall_cons in Hls as [Hl Hls].
  apply keeps_bind_get. intros s0.
  eapply triple_bind with (R := fun _ => Inv true);
    [|intros _; by apply IH|done..].
  case_decide as Hin; [intros s c s' [_ HI] H; by eapply keeps_ret|].
  intros s c s' [-> (n & ls & Hn & He & HB & _)] H.
  apply bind_Some in H as [([] & s1 & Hm & H)|[(e & Hm & _)|[Hm _]]];
    unfold set_locals, modify in Hm; simplify_eq.
  apply yield_Some in H. subst s'.
  set (v1 := mkVars ({[url l]} ∪ seen (locals s0)) (queue (locals s0))
                    (pending (locals s0))).
  pose proof (Base_add_link _ _ _ HB Hl Hin) as HB1. fold v1 in HB1.
  destruct (deliver_frame v1) as [[new Hnew] _].
  exists n, (ls ++ [l]). simpl. unfold emitted. simpl.
  rewrite Hnew. simpl. split_and!.
  - rewrite length_app. lia.
  - rewrite emitted_of_app. simpl. fold (emitted s0). rewrite He.
    rewrite take_app_le by lia. by rewrite app_assoc.
  - by apply deliver_Base.
  - done.
Qed.

Lemma yield_links_total ls0 : total (yield_links w href ls0).
Proof.
  induction ls0 as [|l ls0 IH]; simpl; [apply total_ret|].
  apply total_bind; [apply total_get|]. intros s0.
  apply total_bind; [|intros _; exact IH].
  case_decide; [apply total_ret|].
  apply total_bind; [apply total_modify|]. intros _. apply yield_total.
Qed.

(** Predicates that look at the emitted items and at the variables only. *)
Definition stable (I : Run Vars -> Prop) : Prop :=
  forall s s', emitted s' = emitted s -> locals s' = locals s -> I s -> I s'.

Lemma Pre_stable : stable Pre.
Proof. intros s s' He Hl [? ?]. split; congruence. Qed.

Lemma Inv_stable b : stable (Inv b).
Proof.
  intros s s' He Hl (n & ls & ? & ? & ? & ?). exists n, ls.
  rewrite He, Hl. done.
Qed.

Lemma keeps_log I ev :
  stable I -> (forall r, ev <> EvYield r) -> keeps I (@log Vars ev).
Proof.
  intros HI Hev. apply keeps_modify. intros s. apply HI; [|done].
  unfold emitted. simpl. rewrite emitted_of_app.
  destruct ev as [| | |r|]; simpl; rewrite ?app_nil_r; try done.
  by destruct (Hev r).
Qed.

Lemma keeps_suspend_Pre : keeps Pre (suspend href).
Proof.
  apply keeps_modify. intros s [He HB]. split; [done|]. by apply deliver_Base.
Qed.

Lemma keeps_suspend_Inv b : keeps (Inv b) (suspend href).
Proof.
  apply keeps_modify. intros s (n & ls & Hn & He & HB & Hb).
  destruct (deliver_frame (locals s)) as [[new Hnew] _].
  exists n, ls. simpl. unfold emitted in *. simpl. rewrite Hnew.
  split_and!; [rewrite length_app; lia| |by apply deliver_Base|done].
  by rewrite take_app_le by lia.
Qed.

Lemma keeps_snapshot I :
  stable I -> triple I (@snapshot Vars w) (fun _ => I).
Proof.
  intros HI s c s' H Hs. unfold snapshot in Hs. simplify_eq.
  by eapply HI; [| |exact H].
Qed.

Lemma eval_links_spec :
  triple (Inv true) (eval_links w href)
         (fun c s => Inv true s /\
                     forall ls, c = Normal ls -> Forall (fun r => type r = link) ls).
Proof.
  unfold eval_links.
  eapply triple_bind with (R := fun _ => Inv true);
    [apply keeps_snapshot, Inv_stable| |done..].
  intros d.
  eapply triple_bind with (R := fun _ => Inv true);
    [apply keeps_suspend_Inv| |done..].
  intros _ s c s' HI H. unfold ret in H. simplify_eq. split; [done|].
  intros ls [= <-]. apply Forall_fmap, Forall_forall. done.
Qed.

Lemma eval_links_total : total (eval_links w href).
Proof.
  unfold eval_links. apply total_bind; [apply total_snapshot|]. intros d.
  apply total_bind; [apply total_modify|]. intros _. apply total_ret.
Qed.

Lemma Inv_false b s : Inv false s -> Inv b s.
Proof.
  intros (n & ls & ? & ? & ? & Hls). specialize (Hls eq_refl). subst ls.
  by exists n, [].
Qed.

Lemma keeps_newPage I : stable I -> keeps I (@newPage Vars w).
Proof.
  intros HI. apply keeps_bind; [by apply keeps_log|]. intros _. apply keeps_settle.
Qed.

Lemma keeps_launch I : stable I -> keeps I (@launch Vars w).
Proof.
  intros HI. apply keeps_bind; [by apply keeps_log|]. intros _. apply keeps_settle.
Qed.

Lemma keeps_teardown I :
  stable I -> keeps I (suspend href) -> keeps I (teardown w (suspend href)).
Proof.
  intros HI Hs. apply keeps_bind.
  - apply keeps_bind; [by apply keeps_log|]. intros _.
    apply keeps_bind; [done|]. intros _. apply keeps_settle.
  - intros _. apply keeps_bind; [apply keeps_get|]. intros s.
    destruct (caughtError s) as [e|]; [|apply keeps_ret].
    destruct (is_truthy e); [apply keeps_throw|apply keeps_ret].
Qed.

Lemma keeps_goto : keeps Pre (goto w href).
Proof.
  apply keeps_bind; [apply keeps_log; [apply Pre_stable|done]|]. intros _.
  apply keeps_bind; [apply keeps_suspend_Pre|]. intros _.
  destruct (goto_result w); [apply keeps_throw|apply keeps_ret].
Qed.

Lemma body_spec :
  triple Pre (body w href options) (fun _ => Inv (links_enabled options)).
Proof.
  unfold body.
  eapply triple_seq; [apply keeps_newPage, Pre_stable| |apply Pre_Inv]. intros _.
  eapply triple_seq with (R := Pre); [| |apply Pre_Inv].
  { apply keeps_modify. intros s [He _]. split; [done|]. simpl.
    unfold Base. simpl. split_and!; [constructor|set_solver|done|done]. }
  intros _.
  eapply triple_seq; [apply keeps_goto| |apply Pre_Inv]. intros response.
  eapply triple_seq; [apply keeps_check_navigation| |apply Pre_Inv]. intros _.
  intros s c s' [He HB] H. unfold bind at 1, get in H. revert H.
  eapply triple_seq with (R := Inv false);
    [apply (yield_queue_spec _ 0)| |apply Inv_false|].
  - intros _. destruct (links_enabled options).
    + eapply triple_bind; [eapply triple_weaken; [apply eval_links_spec| |];
                           [apply Inv_false|done]| | |].
      * intros ls s1 c1 s1' [HI Hls] H1.
        eapply yield_links_spec; [by apply Hls|exact HI|exact H1].
      * intros e s1 [HI _]. exact HI.
      * intros s1 [HI _]. exact HI.
    + apply keeps_ret.
  - simpl. rewrite He, take_0. split_and!; [lia|done|done].
Qed.

Lemma body_total : total (body w href options).
Proof.
  unfold body.
  apply total_bind.
  { apply total_bind; [apply total_modify|intros _; apply total_settle]. }
  intros _. apply total_bind; [apply total_modify|]. intros _.
  apply total_bind.
  { apply total_bind; [apply total_modify|]. intros _.
    apply total_bind; [apply total_modify|]. intros _.
    destruct (goto_result w); [apply total_throw|apply total_ret]. }
  intros response. apply total_bind; [apply total_check_navigation|]. intros _.
  intros s. unfold bind at 1, get. unfold bind at 1.
  destruct (yield_queue_total (steps (locals s)) 0 s) as [[c s1] ->].
  { unfold steps. lia. }
  destruct c; [|by eexists..].
  destruct (links_enabled options); [|apply total_ret].
  apply total_bind; [apply eval_links_total|]. intros ls. apply yield_links_total.
Qed.

Lemma getAllSubResources_spec :
  triple Pre (getAllSubResources w href options)
         (fun _ => Inv (links_enabled options)).
Proof.
  unfold getAllSubResources.
  eapply triple_seq with (R := Pre); [| |apply Pre_Inv].
  { apply keeps_modify. intros s. by apply Pre_stable. }
  intros _.
  eapply triple_seq; [apply keeps_launch, Pre_stable| |apply Pre_Inv]. intros _.
  apply triple_try_finally;
    [|apply keeps_teardown; [apply Inv_stable|apply keeps_suspend_Inv]].
  apply triple_try_catch; [apply body_spec|].
  intros e. apply keeps_modify. intros s. by apply Inv_stable.
Qed.

Lemma getAllSubResources_total : total (getAllSubResources w href options).
Proof.
  unfold getAllSubResources.
  apply total_bind; [apply total_modify|]. intros _.
  apply total_bind.
  { apply total_bind; [apply total_modify|intros _; apply total_settle]. }
  intros _. apply total_try_finally.
  - apply total_try_catch; [apply body_total|]. intros e. apply total_modify.
  - apply total_bind.
    + apply total_bind; [apply total_modify|]. intros _.
      apply total_bind; [apply total_modify|intros _; apply total_settle].
    + intros _. apply total_bind; [apply total_get|]. intros s.
      destruct (caughtError s) as [e|]; [|apply total_ret].
      destruct (is_truthy e); [apply total_throw|apply total_ret].
Qed.

Lemma Pre_start : Pre start.
Proof.
  split; [done|]. unfold Base. simpl.
  split_and!; [constructor|set_solver|done|done].
Qed.

(** Every run completes, in a state of the invariant. *)
Lemma run_completes :
  exists c s', getAllSubResources w href options start = Some (c, s')
               /\ Inv (links_enabled options) s'.
Proof.
  destruct (getAllSubResources_total start) as [[c s'] H].
  exists c, s'. split; [done|].
  eapply getAllSubResources_spec; [apply Pre_start|exact H].
Qed.

End NetworkRuns.

(** * The [try] blocks leave teardown to the [finally] block *)

Ltac keeps_step :=
  first
    [ apply keeps_ret | apply keeps_throw | apply keeps_get
    | apply keeps_settle | apply keeps_resume | apply keeps_resume_delegated
    | apply keeps_check_navigation
    | apply keeps_calm_set_locals | apply keeps_calm_snapshot
    | apply keeps_calm_newPage
    | apply keeps_calm_log; discriminate
    | apply keeps_bind; [|intros ?]
    | match goal with
      | |- keeps _ (match ?x with _ => _ end) => destruct x
      end ].

Ltac total_step :=
  first
    [ apply total_ret | apply total_throw | apply total_get
    | apply total_modify | apply total_settle | apply total_resume
    | apply total_resume_delegated
    | apply total_check_navigation | apply total_snapshot
    | apply total_bind; [|intros ?]
    | match goal with
      | |- total (match ?x with _ => _ end) => destruct x
      end ].

Section NetworkFrame.

Import Network.

Variable w : World.
Variable href : string.
Variable options : Options.

Lemma yield_calm r : keeps calm (yield_ w href r).
Proof. unfold yield_, emit, suspend. repeat keeps_step. Qed.

Lemma yield_queue_calm fuel : forall i, keeps calm (yield_queue w href fuel i).
Proof.
  induction fuel as [|fuel IH]; intros i; simpl; [by intros s c s' _ ?|].
  apply keeps_bind; [apply keeps_get|]. intros s.
  destruct (queue (locals s) !! i); [|apply keeps_ret].
  apply keeps_bind; [apply yield_calm|]. intros _. apply IH.
Qed.

Lemma yield_links_calm ls : keeps calm (yield_links w href ls).
Proof.
  induction ls as [|l ls IH]; simpl; [apply keeps_ret|].
  apply keeps_bind; [apply keeps_get|]. intros s.
  apply keeps_bind; [|intros _; apply IH].
  case_decide; [apply keeps_ret|].
  apply keeps_bind; [apply keeps_calm_set_locals|]. intros _. apply yield_calm.
Qed.

Lemma network_body_calm : keeps calm (body w href options).
Proof.
  unfold body.
  apply keeps_bind; [apply keeps_calm_newPage|]. intros _.
  apply keeps_bind; [apply keeps_calm_set_locals|]. intros _.
  apply keeps_bind; [unfold goto, suspend; repeat keeps_step|]. intros response.
  apply keeps_bind; [apply keeps_check_navigation|]. intros _.
  apply keeps_bind; [apply keeps_get|]. intros s.
  apply keeps_bind; [apply yield_queue_calm|]. intros _.
  destruct (links_enabled options); [|apply keeps_ret].
  apply keeps_bind; [unfold eval_links, suspend; repeat keeps_step|].
  intros ls. apply yield_links_calm.
Qed.

End NetworkFrame.

Section DomFrame.

Import Dom.

Variable URL : string -> option string -> option URLRecord.
Variable w : World.
Variable href : string.

Lemma evaluate_calm {A} (f : Document -> Result A) : keeps calm (evaluate w f).
Proof. unfold evaluate. repeat keeps_step. Qed.

Lemma evaluate_total {A} (f : Document -> Result A) : total (evaluate w f).
Proof. unfold evaluate. repeat total_step. Qed.

Lemma yield_all_calm rs : keeps calm (yield_all w rs).
Proof.
  induction rs as [|r rs IH]; simpl; [apply keeps_ret|].
  apply keeps_bind; [|intros _; apply IH].
  unfold yield_, emit. repeat keeps_step.
Qed.

Lemma yield_all_total rs : total (yield_all w rs).
Proof.
  induction rs as [|r rs IH]; simpl; [apply total_ret|].
  apply total_bind; [|intros _; apply IH].
  unfold yield_, emit, log. repeat total_step.
Qed.

Ltac pass_calm :=
  apply keeps_bind;
  [apply keeps_bind; [|intros ?; apply yield_all_calm]|intros _].

Ltac pass_total :=
  apply total_bind;
  [apply total_bind; [|intros ?; apply yield_all_total]|intros _].

Lemma getMedia_calm : keeps calm (getMedia URL w).
Proof.
  unfold getMedia.
  apply keeps_bind; [apply evaluate_calm|]. intros ?.
  apply keeps_bind; [apply evaluate_calm|]. intros ?. apply keeps_ret.
Qed.

Lemma getMiscResources_calm : keeps calm (getMiscResources URL w).
Proof.
  unfold getMiscResources.
  apply keeps_bind; [apply evaluate_calm|]. intros ?.
  apply keeps_bind; [apply evaluate_calm|]. intros ?. apply keeps_ret.
Qed.

Lemma getMedia_total : total (getMedia URL w).
Proof.
  unfold getMedia.
  apply total_bind; [apply evaluate_total|]. intros ?.
  apply total_bind; [apply evaluate_total|]. intros ?. apply total_ret.
Qed.

Lemma getMiscResources_total : total (getMiscResources URL w).
Proof.
  unfold getMiscResources.
  apply total_bind; [apply evaluate_total|]. intros ?.
  apply total_bind; [apply evaluate_total|]. intros ?. apply total_ret.
Qed.

Lemma dom_body_calm : keeps calm (body URL w href).
Proof.
  unfold body, goto.
  do 3 (apply keeps_bind; [repeat keeps_step|intros ?]).
  pass_calm; [apply evaluate_calm|].
  pass_calm; [apply evaluate_calm|].
  pass_calm; [apply evaluate_calm|].
  pass_calm; [apply getMedia_calm|].
  pass_calm; [apply evaluate_calm|].
  pass_calm; [apply evaluate_calm|].
  pass_calm; [apply evaluate_calm|].
  pass_calm; [apply evaluate_calm|].
  apply keeps_bind; [apply getMiscResources_calm|intros ?; apply yield_all_calm].
Qed.

Lemma dom_body_total : total (body URL w href).
Proof.
  unfold body, goto, newPage, log.
  do 3 (apply total_bind; [repeat total_step|intros ?]).
  pass_total; [apply evaluate_total|].
  pass_total; [apply evaluate_total|].
  pass_total; [apply evaluate_total|].
  pass_total; [apply getMedia_total|].
  pass_total; [apply evaluate_total|].
  pass_total; [apply evaluate_total|].
  pass_total; [apply evaluate_total|].
  pass_total; [apply evaluate_total|].
  apply total_bind; [apply getMiscResources_total|intros ?; apply yield_all_total].
Qed.

End DomFrame.

(** * Facts about the string primitives *)

Section StringFacts.

Import JsString.

Lemma app_cons c s t : String c s +:+ t = String c (s +:+ t).
Proof. reflexivity. Qed.

Lemma app_empty_r s : s +:+ "" = s.
Proof. induction s as [|c s IH]; [done|]. by rewrite app_cons, IH. Qed.

Lemma app_assoc_s s t u : (s +:+ t) +:+ u = s +:+ (t +:+ u).
Proof. induction s as [|c s IH]; [done|]. by rewrite !app_cons, IH. Qed.

Lemma prefix_app x post : String.prefix x (x +:+ post) = true.
Proof.
  induction x as [|c x IH]; [by destruct post|].
  rewrite app_cons. simpl. by destruct (ascii_dec c c).
Qed.

Lemma includes_here s x : String.prefix x s = true -> includes s x = true.
Proof. intros H. destruct s; cbn [includes]; by rewrite H. Qed.

Lemma includes_app pre x post : includes (pre +:+ x +:+ post) x = true.
Proof.
  induction pre as [|c pre IH].
  - change ("" +:+ x +:+ post) with (x +:+ post).
    apply includes_here, prefix_app.
  - rewrite app_cons. cbn [includes]. rewrite IH. apply orb_true_r.
Qed.

End StringFacts.

(** * Sample pages for the examples *)

(** A small stand-in for the engine's URL parser, for the examples only: an
    input that starts with a scheme is kept as it is, any other input is
    appended to the base up to its last slash. *)
Fixpoint scheme_of (s : string) : option string :=
  match s with
  | EmptyString => None
  | String c s' =>
      if Ascii.eqb c ":" then Some ":"
      else if Ascii.eqb c "/" then None
      else option_map (String c) (scheme_of s')
  end.

Fixpoint directory_of (s : string) : string :=
  match s with
  | EmptyString => EmptyString
  | String c s' =>
      if JsString.includes s' "/" then String c (directory_of s')
      else if Ascii.eqb c "/" then "/" else EmptyString
  end.

Definition sample_URL (input : string) (base : option string) : option URLRecord :=
  match scheme_of input with
  | Some p => Some (mkURL input p)
  | None =>
      match base with
      | Some b =>
          match scheme_of b with
          | Some p => Some (mkURL (directory_of b +:+ input) p)
          | None => None
          end
      | None => None
      end
  end.

Definition origin : string := "https://example.org/".

(** An HTML element whose parent, when given, is an HTML element too. *)
Definition element (tag : string) (attrs props : list (string * string))
  (parent : option string) : Element :=
  mkElement true tag attrs props (option_map (pair true) parent).

Definition main_response (st : Z) : HTTPResponse :=
  mkResponse (mkRequest "document" (Some (mkFrame "main" None))) origin st
             {[ "content-type" := "text/html" ]}.

(** The page at [origin] answers with status [st] and shows the document
    [d]; the consumer pulls every item; the library rejects an evaluation
    with the message of the page's error. *)
Definition page_world (st : Z) (d : Document) : World :=
  mkWorld None None (inr (Some (main_response st))) None origin
          (fun _ => d) [[main_response st]] (fun _ => Next) (fun e => e)
          (fun _ m => m) (fun _ t => JsOther t).

Definition completion_of {L} (r : option (Completion unit * Run L))
  : option (Completion unit) :=
  option_map fst r.

Definition emitted_by {L} (r : option (Completion unit * Run L)) : list Resource :=
  match r with
  | Some (_, s) => emitted s
  | None => []
  end.

Definition trace_of {L} (r : option (Completion unit * Run L)) : list Event :=
  match r with
  | Some (_, s) => events s
  | None => []
  end.

(** * Teardown *)

(** The browser is released: the run's trace is the trace of the [try]
    block followed by one close, the block itself never closes, and when the
    close completes a truthy value thrown in the block is what the run
    throws, while after a falsy one the run completes normally. *)
Definition released {L} (w : World) (block run : M L unit) (s0 : Run L) : Prop :=
  exists c1 s2 c s',
    block (launched s0) = Some (c1, s2)
    /\ run s0 = Some (c, s')
    /\ events s' = events s2 ++ [EvClose]
    /\ (EvClose ∉ events s2)
    /\ (close_result w = None ->
        forall e, c1 = Throw e ->
                  c = if is_truthy e then Throw e else Normal tt).

Lemma released_guarded {L} (w : World) (idle b : M L unit) (s0 : Run L) :
  launch_result w = None ->
  EvClose ∉ events s0 ->
  silent idle -> total b -> keeps calm b ->
  released w b
    (bind declare_caughtError (fun _ => bind (launch w) (fun _ =>
       try_finally (try_catch b set_caughtError) (teardown w idle))))
    s0.
Proof.
  intros Hl Hs0 Hidle Ht Hc. destruct (Ht (launched s0)) as [[c1 s2] Hb].
  assert (Hcalm : calm s2).
  { eapply Hc; [|exact Hb]. split; [done|]. simpl.
    intros [?|?%list_elem_of_singleton]%elem_of_app; done. }
  destruct Hcalm as [Hce Hev].
  destruct (guarded_run w idle b _ _ _ Hidle Hb Hce) as (s3 & Hrun & Hev3).
  exists c1, s2, (after_teardown w c1), s3. split_and!; [done| |done|done|].
  - by rewrite launch_run.
  - intros Hclose e ->. unfold after_teardown. by rewrite Hclose.
Qed.

Definition image_response : HTTPResponse :=
  mkResponse (mkRequest "image" (Some (mkFrame "main" None)))
             "https://example.org/logo.png" 200
             {[ "content-type" := "image/png" ]}.

(** The consumer takes the first item and throws the value [0] into the
    generator. *)
Definition throwing_consumer : World :=
  mkWorld None None (inr (Some (main_response 200))) None origin
          (fun _ => mkDocument [] []) [[main_response 200; image_response]]
          (fun _ => DoThrow (JsOther false)) (fun e => e)
          (fun _ m => m) (fun _ t => JsOther t).

(** C4, at the failing input: the consumer takes the first item and throws
    the value [0] into the generator.  The [try] block completes by throwing
    that value, it is caught, the browser is closed, and the test
    [if (caughtError)] of the [finally] block, false for a falsy value, lets
    the run complete normally: the value caught is not thrown again. *)
Lemma falsy_throw_swallowed :
  completion_of (Network.body throwing_consumer origin (mkOptions None)
                              (launched Network.start))
  = Some (Throw (JsOther false))
  /\ completion_of (Network.getAllSubResources throwing_consumer origin
                                               (mkOptions None) Network.start)
     = Some (Normal tt)
  /\ trace_of (Network.getAllSubResources throwing_consumer origin
                                          (mkOptions None) Network.start)
     = [EvLaunch; EvNewPage; EvGoto origin;
        EvYield (mkResource image "https://example.org/logo.png"); EvClose].
Proof. split_and!; by vm_compute. Qed.

(** X21: in both collectors, once the browser is launched it is closed on
    every exit path, exactly once and as the last step, and a truthy value
    caught in the [try] block, as every Error object is, is thrown again
    unchanged after a close that completes; a falsy value caught there is
    not thrown again. *)
Theorem browser_released URL w href options :
  launch_result w = None ->
  released w (Network.body w href options)
           (Network.getAllSubResources w href options) Network.start
  /\ released w (Dom.body URL w href)
              (Dom.getAllSubResources URL w href) Dom.start.
Proof.
  intros Hl. split.
  - apply released_guarded; [done|by apply not_elem_of_nil| | |].
    + apply silent_set_locals.
    + apply body_total.
    + apply network_body_calm.
  - apply released_guarded; [done|by apply not_elem_of_nil| | |].
    + apply silent_ret.
    + apply dom_body_total.
    + apply dom_body_calm.
Qed.

(** A page on which the media pass throws. *)
Definition audio_page : Document :=
  mkDocument [element "audio" [("src", "a.mp3")]
                      [("src", "https://example.org/a.mp3")] (Some "body")] [].

Lemma browser_released_witness :
  released (page_world 200 audio_page)
           (Network.body (page_world 200 audio_page) origin (mkOptions (Some true)))
           (Network.getAllSubResources (page_world 200 audio_page) origin
                                       (mkOptions (Some true)))
           Network.start
  /\ released (page_world 200 audio_page)
              (Dom.body sample_URL (page_world 200 audio_page) origin)
              (Dom.getAllSubResources sample_URL (page_world 200 audio_page) origin)
              Dom.start.
Proof.
  apply (browser_released sample_URL (page_world 200 audio_page) origin
                          (mkOptions (Some true))).
  reflexivity.
Defined.

(** * Navigation failure *)

Section Navigation.

Import JsString.

Lemma navigation_failed_iff response :
  navigation_failed response = true <->
  response = None \/
  exists r, response = Some r /\ status r <> 0%Z /\ ~ (200 <= status r <= 299)%Z.
Proof.
  unfold navigation_failed, ok. destruct response as [r|]; [|naive_solver].
  rewrite negb_true_iff, orb_false_iff, andb_false_iff, Z.eqb_neq, !Z.leb_gt.
  split.
  - intros [H0 H]. right. exists r. split_and!; [done|done|lia].
  - intros [?|(r' & [= <-] & H0 & H)]; [done|]. split; [done|lia].
Qed.

Lemma check_navigation_throws {L} href response (s : Run L) :
  (exists e, check_navigation href response s = Some (Throw e, s)) <->
  navigation_failed response = true.
Proof.
  unfold check_navigation. destruct (navigation_failed response).
  - split; [done|]. intros _. by eexists.
  - split; [|done]. by intros [e ?].
Qed.

Lemma message_has_href href response :
  includes (failure_message href response) href = true.
Proof. unfold failure_message. apply includes_app. Qed.

Lemma message_has_status href r :
  includes (failure_message href (Some r))
           (NilZero.string_of_int (Z.to_int (status r))) = true.
Proof.
  unfold failure_message.
  rewrite <-(app_empty_r (NilZero.string_of_int _)) at 1.
  rewrite <-!app_assoc_s. rewrite app_assoc_s. apply includes_app.
Qed.

Variable URL : string -> option string -> option URLRecord.
Variable w : World.
Variable href : string.
Variable options : Options.
Variable response : option HTTPResponse.

Hypothesis launch_ok : launch_result w = None.
Hypothesis newPage_ok : newPage_result w = None.
Hypothesis goto_done : goto_result w = inr response.
Hypothesis close_ok : close_result w = None.
Hypothesis failed : navigation_failed response = true.

Lemma network_navigation_failure :
  exists s',
    Network.getAllSubResources w href options Network.start
      = Some (Throw (JsError (failure_message href response)), s')
    /\ emitted s' = [].
Proof.
  unfold Network.getAllSubResources. rewrite launch_run by done.
  edestruct (guarded_run w (Network.suspend href) (Network.body w href options)
               (launched Network.start)) as (s3 & Hrun & Hev);
    [apply silent_set_locals| | |].
  - unfold Network.body, Network.goto, Network.suspend, newPage, bind, log,
      set_locals, modify, settle, check_navigation, throw. simpl.
    rewrite newPage_ok, goto_done. simpl. rewrite failed. reflexivity.
  - reflexivity.
  - exists s3. split.
    + rewrite Hrun. unfold after_teardown. by rewrite close_ok.
    + unfold emitted. by rewrite Hev.
Qed.

Lemma dom_navigation_failure :
  exists s',
    Dom.getAllSubResources URL w href Dom.start
      = Some (Throw (JsError (failure_message href response)), s')
    /\ emitted s' = [].
Proof.
  unfold Dom.getAllSubResources. rewrite launch_run by done.
  edestruct (guarded_run w (ret tt) (Dom.body URL w href)
               (launched Dom.start)) as (s3 & Hrun & Hev);
    [apply silent_ret| | |].
  - unfold Dom.body, Dom.goto, newPage, bind, log,
      modify, settle, check_navigation, throw. simpl.
    rewrite newPage_ok, goto_done. simpl. rewrite failed. reflexivity.
  - reflexivity.
  - exists s3. split.
    + rewrite Hrun. unfold after_teardown. by rewrite close_ok.
    + unfold emitted. by rewrite Hev.
Qed.

End Navigation.

(** C3, the claim as stated fails: a final status of 304 is a 3xx status,
    and yet both collectors end with the navigation error. *)
Lemma navigation_fails_on_304 :
  (300 <= status (main_response 304) <= 399)%Z
  /\ completion_of (Network.getAllSubResources
                      (page_world 304 (mkDocument [] [])) origin (mkOptions None)
                      Network.start)
     = Some (Throw (JsError "Failed to navigate to https://example.org/. HTTP 304"))
  /\ completion_of (Dom.getAllSubResources sample_URL
                      (page_world 304 (mkDocument [] [])) origin Dom.start)
     = Some (Throw (JsError "Failed to navigate to https://example.org/. HTTP 304")).
Proof. split; [simpl; lia|]. split; by vm_compute. Qed.

(** C3, as amended: when the browser launches, the page opens, [page.goto]
    resolves with [response] and the browser closes normally, the navigation
    check throws exactly when there is no response or its status is neither
    0 nor in 200..299 (a final 3xx status is fatal too); in that case both
    collectors emit nothing and throw an error whose message contains the
    target URL and, when there is a response, its status in decimal, so
    [404] for a 404 page. *)
Theorem navigation_failure URL w href options response :
  launch_result w = None ->
  newPage_result w = None ->
  goto_result w = inr response ->
  close_result w = None ->
  (forall L (s : Run L),
     (exists e, check_navigation href response s = Some (Throw e, s)) <->
     (response = None \/
      exists r, response = Some r /\ status r <> 0%Z
                /\ ~ (200 <= status r <= 299)%Z))
  /\ (navigation_failed response = true ->
      (exists s',
         Network.getAllSubResources w href options Network.start
           = Some (Throw (JsError (failure_message href response)), s')
         /\ emitted s' = [])
      /\ (exists s',
            Dom.getAllSubResources URL w href Dom.start
              = Some (Throw (JsError (failure_message href response)), s')
            /\ emitted s' = [])
      /\ JsString.includes (failure_message href response) href = true
      /\ (forall r, response = Some r ->
            JsString.includes (failure_message href response)
              (NilZero.string_of_int (Z.to_int (status r))) = true)
      /\ (forall r, response = Some r -> status r = 404%Z ->
            JsString.includes (failure_message href response) "404" = true)).
Proof.
  intros Hl Hn Hg Hc. split.
  - intros L s. rewrite check_navigation_throws. apply navigation_failed_iff.
  - intros Hf. split_and!.
    + by apply network_navigation_failure.
    + by apply dom_navigation_failure.
    + apply message_has_href.
    + intros r ->. apply message_has_status.
    + intros r -> H404. pose proof (message_has_status href r) as H.
      by rewrite H404 in H.
Qed.

Definition not_found_world : World := page_world 404 (mkDocument [] []).

Lemma navigation_failure_witness :
  (exists s',
     Network.getAllSubResources not_found_world origin (mkOptions None) Network.start
       = Some (Throw (JsError (failure_message origin (Some (main_response 404)))), s')
     /\ emitted s' = [])
  /\ JsString.includes (failure_message origin (Some (main_response 404))) "404"
     = true.
Proof.
  destruct (navigation_failure sample_URL not_found_world origin (mkOptions None)
              (Some (main_response 404)) eq_refl eq_refl eq_refl eq_refl)
    as [_ H].
  destruct (H eq_refl) as (Hnet & _ & _ & _ & H404).
  split; [exact Hnet|]. by apply (H404 (main_response 404)).
Defined.

(** * De-duplication and the place of links *)

Definition same_script_twice : Document :=
  mkDocument
    [element "script" [("src", "a.js")] [("src", "https://example.org/a.js")]
             (Some "head");
     element "script" [("src", "a.js")] [("src", "https://example.org/a.js")]
             (Some "body")]
    [].

(** C1, the claim as stated fails for the DOM-query collector, which keeps
    no seen-set: two script elements with the same source are both
    emitted. *)
Lemma dom_emits_duplicates :
  emitted_by (Dom.getAllSubResources sample_URL (page_world 200 same_script_twice)
                                     origin Dom.start)
  = [mkResource script "https://example.org/a.js";
     mkResource script "https://example.org/a.js"].
Proof. by vm_compute. Qed.

(** C1, as amended: every run of the network-observed collector completes,
    and no two Resources it emitted share a url. *)
Theorem network_urls_unique w href options :
  exists c s',
    Network.getAllSubResources w href options Network.start = Some (c, s')
    /\ NoDup (url <$> emitted s').
Proof.
  destruct (run_completes w href options)
    as (c & s' & Hrun & n & ls & Hn & He & (Hnd & _) & _).
  exists c, s'. split; [done|]. rewrite He.
  eapply sublist_NoDup; [exact Hnd|].
  apply fmap_sublist, sublist_app; [apply sublist_take|done].
Qed.

(** C5: every run of the network-observed collector completes; the items
    emitted are Resources of other types, all taken from the front of the
    queue, followed by the links; there are no links unless [options.links]
    is true; and no link has the url of a queued Resource or of another
    link. *)
Theorem network_links_last w href options :
  exists c s' others ls,
    Network.getAllSubResources w href options Network.start = Some (c, s')
    /\ emitted s' = others ++ ls
    /\ Forall (fun r => type r <> link) others
    /\ Forall (fun r => type r = link) ls
    /\ (links options <> Some true -> ls = [])
    /\ (exists n, others = take n (Network.queue (locals s')))
    /\ NoDup (url <$> (Network.queue (locals s') ++ ls)).
Proof.
  destruct (run_completes w href options)
    as (c & s' & Hrun & n & ls & Hn & He & (Hnd & _ & Hq & Hl) & Hoff).
  exists c, s', (take n (Network.queue (locals s'))), ls.
  split_and!; [done|done| |done| |by eexists|done].
  - by apply Forall_take.
  - intros Hoff'. apply Hoff. unfold Network.links_enabled.
    destruct (links options) as [[]|]; done.
Qed.

(** * The passes of the DOM-query collector *)

(** Two computations that agree on every state. *)
Definition same {L A} (m m' : M L A) : Prop := forall s, m s = m' s.

Lemma same_bind {L A B} (m m' : M L A) (k k' : A -> M L B) :
  same m m' -> (forall a, same (k a) (k' a)) -> same (bind m k) (bind m' k').
Proof.
  intros Hm Hk s. unfold bind. rewrite Hm.
  destruct (m' s) as [[[a|e|] s1]|]; [apply Hk|done..].
Qed.

Lemma same_guard {L A} (m m' : M L A) h f :
  same m m' -> same (try_finally (try_catch m h) f) (try_finally (try_catch m' h) f).
Proof. intros Hm s. unfold try_finally, try_catch. by rewrite Hm. Qed.

Section DomPasses.

Import JsString Dom.

Variable URL : string -> option string -> option URLRecord.

Definition readable (sheet : StyleSheet) : bool :=
  match cssRules sheet with
  | Some _ => true
  | None => false
  end.

(** The document without the style sheets whose rules cannot be read. *)
Definition without_unreadable (d : Document) : Document :=
  mkDocument (elements d) (List.filter readable (styleSheets d)).

(** The world in which no page shows such a style sheet. *)
Definition without_unreadable_sheets (w : World) : World :=
  mkWorld (launch_result w) (newPage_result w) (goto_result w) (close_result w)
          (page_url w) (fun n => without_unreadable (document w n))
          (responses w) (consumer w) (delegated_throw w)
          (evaluation_message w) (evaluation_value w).

Lemma collect_skip {X Y} (f : X -> Result (list Y)) x l :
  f x = Ok [] -> collect f (x :: l) = collect f l.
Proof. intros H. simpl. rewrite H. by destruct (collect f l). Qed.

Lemma over_sheets_readable {Y} (per_rule : string -> CSSRule -> Result (list Y))
    pageURL d :
  over_sheets per_rule pageURL d
  = over_sheets per_rule pageURL (without_unreadable d).
Proof.
  unfold over_sheets, without_unreadable. simpl.
  induction (styleSheets d) as [|sheet sheets IH]; [done|].
  simpl. unfold readable at 1.
  destruct (cssRules sheet) as [rules|] eqn:Hr.
  - simpl. rewrite Hr, IH. reflexivity.
  - rewrite <-IH. by destruct (collect _ sheets).
Qed.

Lemma over_sheets_unreadable {Y} (per_rule : string -> CSSRule -> Result (list Y))
    pageURL els hrefs :
  over_sheets per_rule pageURL
    (mkDocument els (map (fun h => mkStyleSheet h None) hrefs)) = Ok [].
Proof.
  unfold over_sheets. simpl. induction hrefs as [|h hrefs IH]; [done|].
  simpl. by rewrite IH.
Qed.

Lemma evaluate_without_unreadable {A} w (f : Document -> Result A) :
  (forall d, f (without_unreadable d) = f d) ->
  same (evaluate (without_unreadable_sheets w) f) (evaluate w f).
Proof.
  intros Hf s. unfold evaluate, bind, snapshot. simpl. by rewrite Hf.
Qed.

Lemma run_without_unreadable w href :
  same (getAllSubResources URL (without_unreadable_sheets w) href)
       (getAllSubResources URL w href).
Proof.
  unfold getAllSubResources.
  apply same_bind; [done|]. intros _. apply same_bind; [done|]. intros _.
  apply same_guard. unfold body.
  apply same_bind; [done|]. intros _.
  apply same_bind; [done|]. intros response.
  apply same_bind; [done|]. intros _.
  repeat (apply same_bind;
          [apply same_bind; [|by intros ?]|intros _]);
    try (apply evaluate_without_unreadable; intros d; try done).
  - unfold getImportedStyleSheets. by rewrite <-over_sheets_readable.
  - unfold getMedia. apply same_bind; [by apply evaluate_without_unreadable|].
    intros ?. apply same_bind; [by apply evaluate_without_unreadable|]. done.
  - unfold getStyleSheetImages. by rewrite <-over_sheets_readable.
  - unfold getFonts. by rewrite <-over_sheets_readable.
  - apply same_bind; [|by intros ?]. unfold getMiscResources.
    apply same_bind; [by apply evaluate_without_unreadable|].
    intros ?. apply same_bind; [by apply evaluate_without_unreadable|]. done.
Qed.

(** C9: in the DOM-query collector each style-sheet pass ([@import],
    background-image and content, [@font-face]) gives the same result as on
    the document without the style sheets whose rules cannot be read, a
    document with only such sheets gives no candidate and no error, and the
    whole run is the run on pages without such sheets. *)
Theorem unreadable_sheets_skipped w href pageURL d :
  getImportedStyleSheets URL pageURL d
    = getImportedStyleSheets URL pageURL (without_unreadable d)
  /\ getStyleSheetImages URL pageURL d
    = getStyleSheetImages URL pageURL (without_unreadable d)
  /\ getFonts URL pageURL d = getFonts URL pageURL (without_unreadable d)
  /\ (forall els hrefs,
        let blocked := mkDocument els (map (fun h => mkStyleSheet h None) hrefs) in
        getImportedStyleSheets URL pageURL blocked = Ok []
        /\ getStyleSheetImages URL pageURL blocked = Ok []
        /\ getFonts URL pageURL blocked = Ok [])
  /\ (forall s,
        getAllSubResources URL w href s
        = getAllSubResources URL (without_unreadable_sheets w) href s).
Proof.
  split_and!.
  - apply over_sheets_readable.
  - unfold getStyleSheetImages. by rewrite <-over_sheets_readable.
  - unfold getFonts. by rewrite <-over_sheets_readable.
  - intros els hrefs blocked. subst blocked.
    unfold getImportedStyleSheets, getStyleSheetImages, getFonts.
    by rewrite !over_sheets_unreadable.
  - intros s. symmetry. apply run_without_unreadable.
Qed.

End DomPasses.

(** * The media pass *)

Section MediaPass.

Import JsString Dom Selector.

(** An audio element that holds a source element, and nothing else. *)
Definition source_in_audio : Document :=
  mkDocument
    [element "audio" [("controls", "")] [] (Some "body");
     element "source" [("src", "a.mp3")] [("src", "https://example.org/a.mp3")]
             (Some "audio")]
    [].

(** A parsed document gives an element in the HTML namespace a parent in
    the HTML namespace; [audio] is then returned for no element that the
    selector of the pass matches. *)
Lemma media_type_of_selected elem :
  matches sel_media elem = true ->
  media_type elem = Ok audio ->
  parentElement elem = Some (false, "video").
Proof.
  unfold matches, sel_media, media_type, instanceof, parent_instanceof.
  simpl. unfold compound_matches. simpl.
  destruct (isHTML elem); simpl; [|by intros _ ?].
  destruct (String.eqb_spec (localName elem) "img") as [->|_]; [done|].
  destruct (String.eqb_spec (localName elem) "video") as [->|_]; [done|].
  destruct (String.eqb_spec (localName elem) "source") as [->|_]; [|done].
  simpl. rewrite !orb_false_r.
  destruct (parentElement elem) as [[html name]|];
    [|by rewrite andb_false_r].
  destruct (String.eqb_spec name "video") as [->|_];
    [|by rewrite andb_false_r].
  by destruct html.
Qed.

(** C6, at the failing inputs: a source element inside an audio element is
    not matched by the selector of the pass, so it yields no Resource; and an
    audio element with a src makes the pass throw. *)
Lemma audio_not_collected :
  mediaSources source_in_audio = Ok []
  /\ mediaSources audio_page = Raised (JsError "Reached unreachable code.")
  /\ emitted_by (getAllSubResources sample_URL (page_world 200 source_in_audio)
                                    origin Dom.start) = [].
Proof. split_and!; by vm_compute. Qed.

(** An image whose source is a [data:] URL. *)
Definition inline_image : Document :=
  mkDocument
    [element "img" [("src", "data:image/png;base64,iVBORw0KGgo=")]
             [("src", "data:image/png;base64,iVBORw0KGgo=")] (Some "body")]
    [].

(** A page with a link to a [data:] URL. *)
Definition data_link : Document :=
  mkDocument
    [element "a" [("href", "data:text/plain,hello")]
             [("href", "data:text/plain,hello")] (Some "body")]
    [].

(** C2, at the failing inputs: the DOM-query collector emits the [data:]
    source of an image, and the network-observed collector emits the [data:]
    target of a link. *)
Lemma data_urls_emitted :
  emitted_by (getAllSubResources sample_URL (page_world 200 inline_image)
                                 origin Dom.start)
  = [mkResource image "data:image/png;base64,iVBORw0KGgo="]
  /\ emitted_by (Network.getAllSubResources (page_world 200 data_link) origin
                                            (mkOptions (Some true)) Network.start)
  = [mkResource link "data:text/plain,hello"].
Proof. split; by vm_compute. Qed.

End MediaPass.

(** * Responsive image candidates *)

Section Srcset.

Import JsString Dom.

Fixpoint all_chars (p : ascii -> bool) (s : string) : bool :=
  match s with
  | EmptyString => true
  | String c s' => p c && all_chars p s'
  end.

Definition not_comma (c : ascii) : bool := negb (Ascii.eqb c ",").
Definition not_space (c : ascii) : bool := negb (is_space c).

(** Neither white space nor a comma. *)
Definition plain (c : ascii) : bool := not_space c && not_comma c.

Definition token (s : string) : bool :=
  negb (String.eqb s "") && all_chars plain s.

(** A run of white space, not empty. *)
Definition blank (s : string) : bool :=
  negb (String.eqb s "") && all_chars is_space s.

(** An image candidate as the page author writes it: a URL, then white
    space and a descriptor or neither, and the white space that follows the
    comma after the candidate. *)
Record Candidate := mkCandidate {
  cand_url : string;
  cand_gap : string;
  cand_descriptor : string;
  cand_space : string;
}.

Definition well_formed (c : Candidate) : bool :=
  token (cand_url c)
  && (if String.eqb (cand_descriptor c) "" then String.eqb (cand_gap c) ""
      else blank (cand_gap c) && all_chars plain (cand_descriptor c))
  && blank (cand_space c).

Definition cand_text (c : Candidate) : string :=
  cand_url c +:+ cand_gap c +:+ cand_descriptor c.

(** The candidates written out, a comma and white space between them. *)
Fixpoint render (cs : list Candidate) : string :=
  match cs with
  | [] => ""
  | c :: cs' =>
      match cs' with
      | [] => cand_text c
      | _ :: _ => cand_text c +:+ "," +:+ cand_space c +:+ render cs'
      end
  end.

Definition starts_plain (s : string) : bool :=
  match s with
  | String c _ => not_space c
  | EmptyString => false
  end.

Fixpoint ends_plain (s : string) : bool :=
  match s with
  | EmptyString => false
  | String c s' =>
      match s' with
      | EmptyString => not_space c
      | String _ _ => ends_plain s'
      end
  end.

Lemma all_chars_app p a b :
  all_chars p (a +:+ b) = all_chars p a && all_chars p b.
Proof.
  induction a as [|c a IH]; [done|].
  rewrite app_cons. cbn [all_chars]. by rewrite IH, andb_assoc.
Qed.

Lemma all_chars_impl (p q : ascii -> bool) s :
  (forall c, p c = true -> q c = true) ->
  all_chars p s = true -> all_chars q s = true.
Proof.
  intros Hpq. induction s as [|c s IH]; [done|]. cbn [all_chars].
  intros [Hc Hs]%andb_true_iff. rewrite (Hpq _ Hc), IH; done.
Qed.

Lemma plain_not_space c : plain c = true -> not_space c = true.
Proof. unfold plain. by intros [? _]%andb_true_iff. Qed.

Lemma plain_not_comma c : plain c = true -> not_comma c = true.
Proof. unfold plain. by intros [_ ?]%andb_true_iff. Qed.

Lemma space_not_comma c : is_space c = true -> not_comma c = true.
Proof. by destruct c as [[] [] [] [] [] [] [] []]. Qed.

Lemma blank_inv s :
  blank s = true ->
  exists c s', s = String c s' /\ is_space c = true /\ all_chars is_space s' = true.
Proof.
  unfold blank. destruct s as [|c s']; [done|]. simpl.
  intros [Hc Hs]%andb_true_iff. by exists c, s'.
Qed.

Lemma ends_plain_app a b : ends_plain b = true -> ends_plain (a +:+ b) = true.
Proof.
  intros Hb. induction a as [|c a IH]; [done|].
  rewrite app_cons. cbn [ends_plain].
  destruct (a +:+ b) eqn:E; [|done].
  destruct a; [|done]. change (b = "") in E. by rewrite E in Hb.
Qed.

Lemma ends_plain_all s :
  s <> "" -> all_chars not_space s = true -> ends_plain s = true.
Proof.
  induction s as [|c s IH]; [done|]. intros _.
  cbn [all_chars ends_plain]. intros [Hc Hs]%andb_true_iff.
  destruct s; [done|]. by apply IH.
Qed.

Lemma token_inv s :
  token s = true ->
  exists c s', s = String c s' /\ plain c = true /\ all_chars plain s' = true.
Proof.
  unfold token. destruct s as [|c s']; [done|]. simpl.
  intros [Hc Hs]%andb_true_iff. by exists c, s'.
Qed.

Lemma token_all p s :
  (forall c, plain c = true -> p c = true) ->
  token s = true -> all_chars p s = true.
Proof.
  intros Hp (a & u & -> & Ha & Hu)%token_inv. cbn [all_chars].
  rewrite (Hp _ Ha). simpl. by eapply all_chars_impl.
Qed.

(** *** [trim] *)

Lemma trimStart_blank a s :
  all_chars is_space a = true -> trimStart (a +:+ s) = trimStart s.
Proof.
  induction a as [|c a IH]; [done|]. cbn [all_chars].
  intros [Hc Ha]%andb_true_iff. rewrite app_cons. cbn [trimStart].
  rewrite Hc. by apply IH.
Qed.

Lemma trimStart_all b : all_chars is_space b = true -> trimStart b = "".
Proof.
  intros Hb. pose proof (trimStart_blank b "" Hb) as H.
  by rewrite app_empty_r in H.
Qed.

Lemma trimEnd_blank b : all_chars is_space b = true -> trimEnd b = "".
Proof.
  induction b as [|c b IH]; [done|]. cbn [all_chars trimEnd].
  intros [Hc Hb]%andb_true_iff. by rewrite (IH Hb), Hc.
Qed.

Lemma trimEnd_id s : ends_plain s = true -> trimEnd s = s.
Proof.
  induction s as [|c s IH]; [done|]. cbn [ends_plain trimEnd].
  destruct s as [|c' s'].
  - unfold not_space. intros ->%negb_true_iff. done.
  - intros H. by rewrite (IH H).
Qed.

Lemma trimEnd_pad s b :
  ends_plain s = true -> all_chars is_space b = true -> trimEnd (s +:+ b) = s.
Proof.
  intros Hs Hb. induction s as [|c s IH]; [done|].
  rewrite app_cons. cbn [trimEnd]. cbn [ends_plain] in Hs.
  destruct s as [|c' s'].
  - change ("" +:+ b) with b. rewrite trimEnd_blank by done.
    unfold not_space in Hs. apply negb_true_iff in Hs. by rewrite Hs.
  - by rewrite (IH Hs).
Qed.

(** White space around a value that starts and ends with other characters
    is what [trim] removes. *)
Lemma trim_pad a s b :
  all_chars is_space a = true -> all_chars is_space b = true ->
  starts_plain s = true -> ends_plain s = true ->
  trim (a +:+ s +:+ b) = s.
Proof.
  intros Ha Hb Hs He. unfold trim. rewrite trimStart_blank by done.
  destruct s as [|c s]; [done|]. rewrite app_cons.
  cbn [trimStart]. simpl in Hs. unfold not_space in Hs.
  apply negb_true_iff in Hs. rewrite Hs, <-app_cons.
  by apply trimEnd_pad.
Qed.

Lemma trim_id s : starts_plain s = true -> ends_plain s = true -> trim s = s.
Proof.
  intros Hs He. pose proof (trim_pad "" s "" eq_refl eq_refl Hs He) as H.
  change ("" +:+ s +:+ "") with (s +:+ "") in H. by rewrite app_empty_r in H.
Qed.

(** *** The two splits *)

Lemma starts_plain_not_space s :
  starts_plain s = true -> starts_with_space s = false.
Proof.
  destruct s as [|c s]; [done|]. simpl. unfold not_space.
  by intros ->%negb_true_iff.
Qed.

Lemma starts_plain_app a b : starts_plain a = true -> starts_plain (a +:+ b) = true.
Proof. destruct a; [done|]. by rewrite app_cons. Qed.

Lemma split_comma_space_skip rest :
  starts_with_space rest = false ->
  split_comma_space_from true rest = split_comma_space_from false rest.
Proof.
  destruct rest as [|c rest]; [done|]. simpl. by intros ->.
Qed.

Lemma split_comma_space_run ws rest :
  all_chars is_space ws = true ->
  split_comma_space_from true (ws +:+ rest) = split_comma_space_from true rest.
Proof.
  induction ws as [|c ws IH]; [done|]. cbn [all_chars].
  intros [Hc Hws]%andb_true_iff. rewrite app_cons.
  cbn [split_comma_space_from]. rewrite Hc. by apply IH.
Qed.

Lemma split_no_comma t :
  all_chars not_comma t = true -> split_comma_space_from false t = [t].
Proof.
  induction t as [|c t IH]; [done|]. cbn [all_chars split_comma_space_from].
  intros [Hc Ht]%andb_true_iff. unfold not_comma in Hc.
  apply negb_true_iff in Hc. rewrite Hc, (IH Ht). done.
Qed.

Lemma split_separator t ws rest :
  all_chars not_comma t = true ->
  blank ws = true ->
  starts_with_space rest = false ->
  split_comma_space_from false (t +:+ "," +:+ ws +:+ rest)
  = t :: split_comma_space_from false rest.
Proof.
  intros Ht (sp & ws' & -> & Hsp & Hws)%blank_inv Hrest.
  induction t as [|c t IH].
  - change ("" +:+ "," +:+ String sp ws' +:+ rest)
      with (String "," (String sp (ws' +:+ rest))).
    cbn [split_comma_space_from starts_with_space]. rewrite Hsp. simpl.
    by rewrite split_comma_space_run, split_comma_space_skip.
  - rewrite app_cons. cbn [all_chars] in Ht.
    apply andb_true_iff in Ht as [Hc Ht]. unfold not_comma in Hc.
    apply negb_true_iff in Hc.
    cbn [split_comma_space_from]. rewrite Hc, (IH Ht). done.
Qed.

Lemma split_space_head u rest :
  all_chars not_space u = true ->
  rest = "" \/ starts_with_space rest = true ->
  exists tl, split_space_from false (u +:+ rest) = u :: tl.
Proof.
  intros Hu Hrest. induction u as [|c u IH].
  - change ("" +:+ rest) with rest. destruct Hrest as [->|Hrest]; [by eexists|].
    destruct rest as [|sp rest]; [done|]. simpl in Hrest.
    cbn [split_space_from]. rewrite Hrest. by eexists.
  - rewrite app_cons. cbn [all_chars] in Hu.
    apply andb_true_iff in Hu as [Hc Hu]. unfold not_space in Hc.
    apply negb_true_iff in Hc.
    destruct (IH Hu) as [tl Htl].
    cbn [split_space_from]. rewrite Hc, Htl. by eexists.
Qed.

(** *** Candidates as text *)

Lemma well_formed_inv c :
  well_formed c = true ->
  token (cand_url c) = true
  /\ blank (cand_space c) = true
  /\ ((cand_gap c = "" /\ cand_descriptor c = "")
      \/ (blank (cand_gap c) = true /\ cand_descriptor c <> ""
          /\ all_chars plain (cand_descriptor c) = true)).
Proof.
  unfold well_formed. intros [[Hu Hd]%andb_true_iff Hs]%andb_true_iff.
  split_and!; [done|done|].
  destruct (String.eqb_spec (cand_descriptor c) "") as [He|Hne].
  - left. by apply String.eqb_eq in Hd.
  - right. by apply andb_true_iff in Hd as [? ?].
Qed.

(** What a well-formed candidate looks like as text. *)
Lemma cand_text_shape c :
  well_formed c = true ->
  all_chars not_comma (cand_text c) = true
  /\ starts_plain (cand_text c) = true
  /\ ends_plain (cand_text c) = true
  /\ exists tl, split_space_from false (cand_text c) = cand_url c :: tl.
Proof.
  intros (Hu & _ & Hd)%well_formed_inv. unfold cand_text.
  pose proof (token_all not_comma _ plain_not_comma Hu) as Hun.
  pose proof (token_all not_space _ plain_not_space Hu) as Hus.
  destruct (token_inv _ Hu) as (a & u' & Eu & Ha & _).
  assert (Hstart : starts_plain (cand_url c) = true).
  { rewrite Eu. simpl. by apply plain_not_space. }
  destruct Hd as [[-> ->]|(Hg & Hne & Hd)].
  - change ("" +:+ "") with "". rewrite app_empty_r. split_and!; [done|done| |].
    + apply ends_plain_all; [by rewrite Eu|done].
    + destruct (split_space_head (cand_url c) "" Hus) as [tl Htl]; [by left|].
      rewrite app_empty_r in Htl. by exists tl.
  - destruct (blank_inv _ Hg) as (sp & g' & Eg & Hsp & Hg').
    split_and!.
    + rewrite !all_chars_app, Hun. simpl. apply andb_true_iff. split.
      * rewrite Eg. cbn [all_chars]. rewrite (space_not_comma _ Hsp). simpl.
        eapply all_chars_impl; [apply space_not_comma|done].
      * eapply all_chars_impl; [apply plain_not_comma|done].
    + by apply starts_plain_app.
    + apply ends_plain_app, ends_plain_app, ends_plain_all; [done|].
      eapply all_chars_impl; [apply plain_not_space|done].
    + apply split_space_head; [done|]. right. rewrite Eg, app_cons. done.
Qed.

Lemma render_shape cs :
  cs <> [] -> Forall (fun c => well_formed c = true) cs ->
  starts_plain (render cs) = true /\ ends_plain (render cs) = true.
Proof.
  induction cs as [|c cs IH]; [done|]. intros _ [Hc Hcs]%Forall_cons.
  destruct (cand_text_shape c Hc) as (_ & Hs & He & _).
  cbn [render]. destruct cs as [|c' cs']; [done|].
  destruct IH as [_ He']; [done|done|]. split.
  - by apply starts_plain_app.
  - by apply ends_plain_app, ends_plain_app, ends_plain_app.
Qed.

Lemma split_render cs :
  cs <> [] -> Forall (fun c => well_formed c = true) cs ->
  split_comma_space_from false (render cs) = map cand_text cs.
Proof.
  induction cs as [|c cs IH]; [done|]. intros _ [Hc Hcs]%Forall_cons.
  destruct (cand_text_shape c Hc) as (Hn & _ & _ & _).
  destruct (well_formed_inv c Hc) as (_ & Hsp & _).
  cbn [render]. destruct cs as [|c' cs'].
  - by apply split_no_comma.
  - destruct (render_shape (c' :: cs')) as [Hs _]; [done|done|].
    rewrite split_separator;
      [|done|done|by apply starts_plain_not_space].
    rewrite IH by done. reflexivity.
Qed.

Lemma filter_all {X} (p : X -> bool) l :
  Forall (fun x => p x = true) l -> List.filter p l = l.
Proof.
  induction 1 as [|x l Hx Hl IH]; [done|]. simpl. by rewrite Hx, IH.
Qed.

(** The pieces the pass works on are the candidates as written, whatever
    white space stands around the value. *)
Lemma candidates_render lead cs trail :
  all_chars is_space lead = true -> all_chars is_space trail = true ->
  Forall (fun c => well_formed c = true) cs ->
  candidates (lead +:+ render cs +:+ trail) = map cand_text cs.
Proof.
  intros Hlead Htrail Hcs. unfold candidates, split_comma_space.
  destruct cs as [|c cs].
  - cbn [render]. change ("" +:+ trail) with trail.
    unfold trim. rewrite trimStart_blank, trimStart_all by done. done.
  - destruct (render_shape (c :: cs)) as [Hs He]; [done|done|].
    rewrite trim_pad, split_render by done.
    apply filter_all, Forall_fmap. eapply Forall_impl; [exact Hcs|].
    intros c0 Hc0. simpl.
    destruct (cand_text_shape c0 Hc0) as (_ & Hs0 & He0 & _).
    rewrite trim_id by done. by destruct (cand_text c0).
Qed.

Lemma candidate_src_text c :
  well_formed c = true -> candidate_src (cand_text c) = cand_url c.
Proof.
  intros Hc. unfold candidate_src, split_space.
  destruct (cand_text_shape c Hc) as (_ & Hs & He & tl & Htl).
  rewrite trim_id by done. by rewrite Htl.
Qed.

Lemma collect_map {X Y Z} (f : Y -> Result (list Z)) (g : X -> Result (list Z))
    (h : X -> Y) l :
  Forall (fun x => f (h x) = g x) l -> collect f (map h l) = collect g l.
Proof.
  induction 1 as [|x l Hx Hl IH]; [done|]. simpl. by rewrite Hx, IH.
Qed.

Variable URL : string -> option string -> option URLRecord.

(** One image Resource for the URL of a candidate, resolved against the page
    URL. *)
Definition image_of (pageURL : string) (c : Candidate) : Result (list Resource) :=
  match new_URL URL (cand_url c) (Some pageURL) with
  | Ok u => Ok [mkResource image (url_href u)]
  | Raised e => Raised e
  end.

Lemma srcset_images_render pageURL lead cs trail :
  all_chars is_space lead = true -> all_chars is_space trail = true ->
  Forall (fun c => well_formed c = true) cs ->
  srcset_images URL pageURL (lead +:+ render cs +:+ trail)
  = collect (image_of pageURL) cs.
Proof.
  intros Hlead Htrail Hcs. unfold srcset_images.
  rewrite candidates_render by done.
  apply collect_map. eapply Forall_impl; [exact Hcs|].
  intros c Hc. simpl. unfold image_of. by rewrite candidate_src_text.
Qed.

End Srcset.

(** C7, the claim as stated fails: the two candidates of a srcset whose
    comma is not followed by white space are taken for one, and the second
    URL is never emitted. *)
Lemma srcset_comma_without_space :
  Dom.srcset_images sample_URL origin "a.png 1x,b.png 2x"
  = Ok [mkResource image "https://example.org/a.png"].
Proof. by vm_compute. Qed.

(** The candidates of the srcset of x1.png and x2.png. *)
Definition x1_x2 : list Candidate :=
  [mkCandidate "x1.png" " " "1x" " "; mkCandidate "x2.png" " " "2x" " "].

(** C7, as amended: the srcset value is trimmed and split at each comma that
    is followed by white space.  For candidates written as a URL, then white
    space and a descriptor or neither (URL and descriptor holding no white
    space and no comma), with a comma and white space between candidates and
    any white space around the value, the pass resolves the URL of each
    candidate against the page URL and emits one image Resource per
    candidate, for the value alone and for an element that the selector
    matches; so it does for the srcset of x1.png and x2.png. *)
Theorem srcset_candidates URL pageURL :
  (forall lead cs trail,
     all_chars JsString.is_space lead = true ->
     all_chars JsString.is_space trail = true ->
     Forall (fun c => well_formed c = true) cs ->
     Dom.srcset_images URL pageURL (lead +:+ render cs +:+ trail)
     = collect (image_of URL pageURL) cs)
  /\ (forall cs elem sheets,
        Forall (fun c => well_formed c = true) cs ->
        Selector.matches Dom.sel_srcset elem = true ->
        prop elem "srcset" = render cs ->
        Dom.imageSrcSets URL pageURL (mkDocument [elem] sheets)
        = collect (image_of URL pageURL) cs)
  /\ render x1_x2 = "x1.png 1x, x2.png 2x"
  /\ Dom.srcset_images URL pageURL "x1.png 1x, x2.png 2x"
     = collect (image_of URL pageURL) x1_x2.
Proof.
  split_and!.
  - intros lead cs trail Hlead Htrail Hcs. by apply srcset_images_render.
  - intros cs elem sheets Hcs Hm Hp.
    unfold Dom.imageSrcSets, Selector.querySelectorAll.
    cbn [elements List.filter]. rewrite Hm. cbn [collect].
    pose proof (srcset_images_render URL pageURL "" cs "" eq_refl eq_refl Hcs) as H.
    change ("" +:+ render cs +:+ "") with (render cs +:+ "") in H.
    rewrite app_empty_r in H. rewrite Hp, H.
    destruct (collect _ cs); [|done]. by rewrite app_nil_r.
  - reflexivity.
  - assert (Hcs : Forall (fun c => well_formed c = true) x1_x2)
      by (by repeat constructor).
    exact (srcset_images_render URL pageURL "" x1_x2 "" eq_refl eq_refl Hcs).
Qed.

Lemma srcset_candidates_witness :
  Dom.srcset_images sample_URL origin "  x1.png 1x,  x2.png 2x "
  = Ok [mkResource image "https://example.org/x1.png";
        mkResource image "https://example.org/x2.png"]
  /\ mkResource image "https://example.org/x1.png"
     <> mkResource image "https://example.org/x2.png".
Proof.
  destruct (srcset_candidates sample_URL origin) as (H & _ & _).
  split; [|done].
  exact (H "  " [mkCandidate "x1.png" " " "1x" "  "; mkCandidate "x2.png" " " "2x" " "]
           " " eq_refl eq_refl ltac:(by repeat constructor)).
Defined.

(** * The collectors on small pages *)

Section SmallPages.

(** A style-sheet link, a script, an image, an inline frame and a manifest
    link. *)
Definition five_elements : Document :=
  mkDocument
    [element "link" [("rel", "stylesheet"); ("href", "a.css")]
             [("href", "https://example.org/a.css")] (Some "head");
     element "link" [("rel", "manifest"); ("href", "e.webmanifest")]
             [("href", "https://example.org/e.webmanifest")] (Some "head");
     element "script" [("src", "b.js")] [("src", "https://example.org/b.js")]
             (Some "head");
     element "img" [("src", "c.png")] [("src", "https://example.org/c.png")]
             (Some "body");
     element "iframe" [("src", "d.html")] [("src", "https://example.org/d.html")]
             (Some "body")]
    [].

Example dom_five_resources :
  Dom.getAllSubResources sample_URL (page_world 200 five_elements) origin Dom.start
  = Some (Normal tt,
          mkRun [EvLaunch; EvNewPage; EvGoto origin;
                 EvYield (mkResource stylesheet "https://example.org/a.css");
                 EvYield (mkResource script "https://example.org/b.js");
                 EvYield (mkResource image "https://example.org/c.png");
                 EvYield (mkResource iframe "https://example.org/d.html");
                 EvYield (mkResource manifest "https://example.org/e.webmanifest");
                 EvClose]
                None 11 tt).
Proof. by vm_compute. Qed.

Definition pdf_response : HTTPResponse :=
  mkResponse (mkRequest "other" (Some (mkFrame "main" None)))
             "https://example.org/file.pdf" 200
             {[ "content-type" := "application/pdf" ]}.

(** The responses of a page with a logo, loaded twice, and a document in an
    object element. *)
Definition busy_page : World :=
  mkWorld None None (inr (Some (main_response 200))) None origin
          (fun _ => mkDocument [] [])
          [[main_response 200; image_response; pdf_response; image_response]]
          (fun _ => Next) (fun e => e)
          (fun _ m => m) (fun _ t => JsOther t).

Example network_object_and_image :
  emitted_by (Network.getAllSubResources busy_page origin (mkOptions None)
                                         Network.start)
  = [mkResource image "https://example.org/logo.png";
     mkResource object "https://example.org/file.pdf"].
Proof. by vm_compute. Qed.

(** The consumer stops after the first item. *)
Definition impatient : World :=
  mkWorld None None (inr (Some (main_response 200))) None origin
          (fun _ => mkDocument [] [])
          [[main_response 200; image_response; pdf_response]]
          (fun _ => DoReturn) (fun e => e)
          (fun _ m => m) (fun _ t => JsOther t).

Example early_return_closes :
  completion_of (Network.getAllSubResources impatient origin (mkOptions None)
                                            Network.start)
  = Some Return
  /\ trace_of (Network.getAllSubResources impatient origin (mkOptions None)
                                          Network.start)
     = [EvLaunch; EvNewPage; EvGoto origin;
        EvYield (mkResource image "https://example.org/logo.png"); EvClose].
Proof. split; by vm_compute. Qed.

(** A response that arrives while the consumer holds the first item is
    emitted by the same loop. *)
Definition late_response : World :=
  mkWorld None None (inr (Some (main_response 200))) None origin
          (fun _ => mkDocument [] [])
          [[main_response 200; image_response]; [pdf_response]]
          (fun _ => Next) (fun e => e)
          (fun _ m => m) (fun _ t => JsOther t).

Example late_response_emitted :
  emitted_by (Network.getAllSubResources late_response origin (mkOptions None)
                                         Network.start)
  = [mkResource image "https://example.org/logo.png";
     mkResource object "https://example.org/file.pdf"].
Proof. by vm_compute. Qed.

End SmallPages.

(** * Further properties of the classification *)

Section ClassificationTable.

Import JsString Network.

(** What each result of [mapResourceType] says about the response. *)
Definition category_of (t : ResourceType) (response : HTTPResponse) : Prop :=
  let category := resourceType (request response) in
  match t with
  | stylesheet => category = "stylesheet"
  | script => category = "script"
  | favicon =>
      category = "image"
      /\ includes_i (response_url response) "favicon"
         || includes_i (response_url response) "apple-touch-icon" = true
  | image =>
      (category = "image"
       /\ includes_i (response_url response) "favicon"
          || includes_i (response_url response) "apple-touch-icon" = false)
      \/ (category = "document"
          /\ startsWith (content_type response) "image/svg" = true)
  | audio => category = "media"
                /\ startsWith (content_type response) "audio/" = true
  | video => category = "media"
                /\ startsWith (content_type response) "video/" = true
  | font => category = "font"
  | manifest => category = "manifest"
  | iframe => category = "document"
              /\ startsWith (content_type response) "image/svg" = false
              /\ has_parent_frame (request response) = true
  | object =>
      category = "other"
      /\ includes (content_type response) "application/pdf"
         || includes (content_type response) "application/octet-stream" = true
  | link => False
  end.

(** X1: a response that [mapResourceType] classifies has a URL that does not
    start with [data:], and its type fits its request category: favicon only
    for images whose URL holds [favicon] or [apple-touch-icon] in any letter
    case, image for the other images and for SVG documents, audio and video
    only for media of that content type, iframe only for documents of a
    nested frame that are no SVG, object only for category other with a PDF
    or octet-stream content type, and never link. *)
Theorem mapResourceType_category response mainFrameUrl t :
  mapResourceType response mainFrameUrl = Some t ->
  startsWith (response_url response) "data:" = false
  /\ category_of t response.
Proof.
  unfold mapResourceType, category_of.
  destruct (startsWith (response_url response) "data:"); [done|].
  intros H. split; [done|].
  repeat match type of H with
         | context [String.eqb ?a ?b] =>
             destruct (String.eqb_spec a b) as [->|?]
         | context [if ?b then _ else _] =>
             let E := fresh "E" in destruct b eqn:E
         end;
    simplify_eq; simpl; auto.
Qed.

Lemma mapResourceType_category_witness :
  startsWith (response_url framed_a) "data:" = false
  /\ category_of iframe framed_a.
Proof.
  apply (mapResourceType_category framed_a "https://example.org/" iframe).
  by vm_compute.
Defined.

End ClassificationTable.

(** * Failures of the browser engine *)

Section EngineFailures.

Variable URL : string -> option string -> option URLRecord.
Variable w : World.
Variable href : string.
Variable options : Options.

(** X2: when the launch rejects, both collectors throw the rejection value
    as it is; no page is opened, nothing is emitted and, no browser being
    there, none is closed. *)
Theorem launch_failure e :
  launch_result w = Some e ->
  Network.getAllSubResources w href options Network.start
    = Some (Throw e, mkRun [EvLaunch] None 0 (Network.mkVars ∅ [] []))
  /\ Dom.getAllSubResources URL w href Dom.start
     = Some (Throw e, mkRun [EvLaunch] None 0 tt).
Proof.
  intros Hl.
  unfold Network.getAllSubResources, Dom.getAllSubResources, bind,
    declare_caughtError, launch, bind, log, modify, settle, throw.
  simpl. by rewrite Hl.
Qed.

Lemma guarded_close_fails {L} (idle b : M L unit) (s0 : Run L) e' :
  launch_result w = None ->
  close_result w = Some e' ->
  EvClose ∉ events s0 ->
  silent idle -> total b -> keeps calm b ->
  completion_of
    (bind declare_caughtError (fun _ => bind (launch w) (fun _ =>
       try_finally (try_catch b set_caughtError) (teardown w idle))) s0)
  = Some (Throw e').
Proof.
  intros Hl Hclose Hs0 Hidle Ht Hc. rewrite launch_run by done.
  destruct (Ht (launched s0)) as [[c1 s2] Hb].
  assert (Hcalm : calm s2).
  { eapply Hc; [|exact Hb]. split; [done|]. simpl.
    intros [?|?%list_elem_of_singleton]%elem_of_app; done. }
  destruct Hcalm as [Hce _].
  destruct (guarded_run w idle b _ _ _ Hidle Hb Hce) as (s3 & Hrun & _).
  rewrite Hrun. unfold after_teardown. by rewrite Hclose.
Qed.

(** X3: when the browser has launched and [browser.close()] rejects, both
    collectors throw the value of that rejection, whatever happened in the
    [try] block: an error caught there is lost. *)
Theorem close_failure_masks e' :
  launch_result w = None ->
  close_result w = Some e' ->
  completion_of (Network.getAllSubResources w href options Network.start)
    = Some (Throw e')
  /\ completion_of (Dom.getAllSubResources URL w href Dom.start)
     = Some (Throw e').
Proof.
  intros Hl Hclose. split.
  - apply guarded_close_fails; [done|done|by apply not_elem_of_nil| | |].
    + apply silent_set_locals.
    + apply body_total.
    + apply network_body_calm.
  - apply guarded_close_fails; [done|done|by apply not_elem_of_nil| | |].
    + apply silent_ret.
    + apply dom_body_total.
    + apply dom_body_calm.
Qed.

End EngineFailures.

(** The page does not load and the browser then fails to close. *)
Definition stuck_browser : World :=
  mkWorld None None (inl (JsError "net::ERR_NAME_NOT_RESOLVED"))
          (Some (JsError "Protocol error: Target closed")) origin
          (fun _ => mkDocument [] []) [] (fun _ => Next) (fun e => e)
          (fun _ m => m) (fun _ t => JsOther t).

Lemma close_failure_masks_witness :
  completion_of (Network.getAllSubResources stuck_browser origin (mkOptions None)
                                            Network.start)
    = Some (Throw (JsError "Protocol error: Target closed"))
  /\ completion_of (Dom.getAllSubResources sample_URL stuck_browser origin
                                           Dom.start)
     = Some (Throw (JsError "Protocol error: Target closed")).
Proof.
  apply (close_failure_masks sample_URL stuck_browser origin (mkOptions None));
    reflexivity.
Defined.

(** The browser cannot be started. *)
Definition no_browser : World :=
  mkWorld (Some (JsError "Failed to launch the browser process"))
          None (inr None) None origin
          (fun _ => mkDocument [] []) [] (fun _ => Next) (fun e => e)
          (fun _ m => m) (fun _ t => JsOther t).

Lemma launch_failure_witness :
  Network.getAllSubResources no_browser origin (mkOptions None) Network.start
    = Some (Throw (JsError "Failed to launch the browser process"),
            mkRun [EvLaunch] None 0 (Network.mkVars ∅ [] []))
  /\ Dom.getAllSubResources sample_URL no_browser origin Dom.start
     = Some (Throw (JsError "Failed to launch the browser process"),
             mkRun [EvLaunch] None 0 tt).
Proof.
  apply (launch_failure sample_URL no_browser origin (mkOptions None)).
  reflexivity.
Defined.

(** * Further properties of the DOM passes *)

Section PassFacts.

Import JsString Dom Selector.

Variable URL : string -> option string -> option URLRecord.

Lemma collect_Raised {X Y} (f : X -> Result (list Y)) l e :
  collect f l = Raised e -> exists x, x ∈ l /\ f x = Raised e.
Proof.
  induction l as [|x l IH]; [done|]. simpl.
  destruct (f x) as [ys|e'] eqn:Hx.
  - destruct (collect f l) as [zs|e''] eqn:Hl; [done|].
    intros [= <-]. destruct IH as (y & Hy & Hfy); [done|].
    exists y. split; [by right|done].
  - intros [= <-]. exists x. split; [by left|done].
Qed.

Lemma collect_Ok {X Y} (f : X -> Result (list Y)) l ys :
  collect f l = Ok ys ->
  exists yss, Forall2 (fun x y => f x = Ok y) l yss /\ ys = concat yss.
Proof.
  revert ys. induction l as [|x l IH]; intros ys; simpl.
  - intros [= <-]. by exists [].
  - destruct (f x) as [y|] eqn:Hx; [|done].
    destruct (collect f l) as [zs|] eqn:Hl; [|done].
    intros [= <-]. destruct (IH zs eq_refl) as (yss & HF & ->).
    exists (y :: yss). split; [by constructor|done].
Qed.

Lemma new_URL_Raised input base e :
  new_URL URL input base = Raised e -> e = invalid_url.
Proof. unfold new_URL. destruct (URL input base); by intros [= <-]. Qed.

Lemma over_sheets_Raised {Y} (per_rule : string -> CSSRule -> Result (list Y))
    pageURL d e :
  (forall base rule e', per_rule base rule = Raised e' -> e' = invalid_url) ->
  over_sheets per_rule pageURL d = Raised e -> e = invalid_url.
Proof.
  intros Hrule (sheet & _ & Hs)%collect_Raised.
  destruct (cssRules sheet) as [rules|]; [|done].
  apply collect_Raised in Hs as (rule & _ & Hr). by eapply Hrule.
Qed.

Lemma resolve_all_Raised base us e :
  resolve_all URL base us = Raised e -> e = invalid_url.
Proof.
  intros (u & _ & Hu)%collect_Raised.
  destruct (new_URL URL u (Some base)) eqn:E; [done|].
  injection Hu as <-. by eapply new_URL_Raised.
Qed.

Lemma as_type_Raised t r e :
  as_type t r = Raised e -> r = Raised e.
Proof. destruct r; [done|]. by intros [= <-]. Qed.

Definition unreachable : JsValue := JsError "Reached unreachable code.".

Lemma srcset_images_Raised pageURL srcset e :
  srcset_images URL pageURL srcset = Raised e -> e = invalid_url.
Proof.
  intros (part & _ & Hp)%collect_Raised.
  destruct (new_URL URL _ (Some pageURL)) eqn:E; [done|].
  injection Hp as <-. by eapply new_URL_Raised.
Qed.

Lemma page_function_errors pageURL d e :
  (getImportedStyleSheets URL pageURL d = Raised e -> e = invalid_url)
  /\ (mediaSources d = Raised e -> e = unreachable)
  /\ (imageSrcSets URL pageURL d = Raised e ->
      e = invalid_url \/ e = undefined_trim)
  /\ (getStyleSheetImages URL pageURL d = Raised e -> e = invalid_url)
  /\ (getFonts URL pageURL d = Raised e -> e = invalid_url)
  /\ (getFavicons URL d = Raised e -> e = invalid_url).
Proof.
  split_and!.
  - apply over_sheets_Raised. intros base [href| | |] e'; simpl; try done.
    destruct (new_URL URL href (Some base)) eqn:E; [done|].
    intros [= <-]. by eapply new_URL_Raised.
  - intros (elem & _ & He)%collect_Raised. unfold media_type in He.
    repeat match type of He with
           | context [if ?b then _ else _] => destruct b
           end; by simplify_eq.
  - intros (elem & _ & He)%collect_Raised.
    destruct (prop elem "srcset") as [srcset|]; [|right; by simplify_eq].
    left. by eapply srcset_images_Raised.
  - intros H%as_type_Raised. revert H. apply over_sheets_Raised.
    intros base [| bg content | |] e'; simpl; try done.
    destruct (negb (bg =? "")%string); [apply resolve_all_Raised|].
    destruct (negb (content =? "")%string); [|done].
    destruct (match_url content) as [g|]; [|done].
    destruct (trim g =? "")%string; [done|].
    destruct (new_URL URL (trim g) (Some base)) as [r|e''] eqn:E.
    + by destruct (protocol r =? "data:")%string.
    + intros [= <-]. by eapply new_URL_Raised.
  - intros H%as_type_Raised. revert H. apply over_sheets_Raised.
    intros base [| | src |] e'; simpl; try done.
    destruct (negb (src =? "")%string); [apply resolve_all_Raised|done].
  - intros (elem & _ & He)%collect_Raised.
    destruct (prop elem "href") as [href|]; [|done].
    destruct (href =? "")%string; [done|].
    destruct (new_URL URL href None) as [r|e''] eqn:E.
    + by destruct (protocol r =? "data:")%string.
    + injection He as <-. by eapply new_URL_Raised.
Qed.

(** An HTML element that the srcset selector matches has a [srcset]. *)
Lemma srcset_of_selected elem :
  matches sel_srcset elem = true -> isHTML elem = true ->
  exists srcset : string, prop elem "srcset" = srcset.
Proof.
  unfold matches, sel_srcset, prop. simpl. unfold compound_matches. simpl.
  intros Hm ->. rewrite orb_false_r in Hm.
  destruct (String.eqb_spec (localName elem) "img") as [->|_];
    [by eexists|].
  destruct (String.eqb_spec (localName elem) "source") as [->|_];
    [by eexists|done].
Qed.

(** X4: the style-sheet passes of the DOM-query collector, for [@import]
    rules, for background and content images and for fonts, raise no error
    but the TypeError of the URL parser. *)
Theorem sheet_pass_errors pageURL d e :
  (getImportedStyleSheets URL pageURL d = Raised e -> e = invalid_url)
  /\ (getStyleSheetImages URL pageURL d = Raised e -> e = invalid_url)
  /\ (getFonts URL pageURL d = Raised e -> e = invalid_url).
Proof.
  destruct (page_function_errors pageURL d e) as (? & ? & ? & ? & ? & ?).
  by split_and!.
Qed.

(** X5: of the passes over elements that can throw, the first loop of
    [getMedia] raises no error but the Error of its unreachable branch and
    [getFavicons] none but the TypeError of the URL parser.  The srcset loop
    raises that TypeError or the TypeError of calling [trim] on
    [undefined]: the latter only when a matched element is outside the HTML
    namespace, where it has no [srcset] property, and always when the first
    matched element is. *)
Theorem element_pass_errors pageURL d e :
  (mediaSources d = Raised e -> e = unreachable)
  /\ (imageSrcSets URL pageURL d = Raised e ->
      e = invalid_url \/ e = undefined_trim)
  /\ (imageSrcSets URL pageURL d = Raised undefined_trim ->
      exists elem, elem ∈ querySelectorAll sel_srcset d
                   /\ isHTML elem = false)
  /\ (forall elem rest,
        querySelectorAll sel_srcset d = elem :: rest ->
        isHTML elem = false ->
        imageSrcSets URL pageURL d = Raised undefined_trim)
  /\ (getFavicons URL d = Raised e -> e = invalid_url).
Proof.
  destruct (page_function_errors pageURL d e) as (? & ? & ? & ? & ? & ?).
  split_and!; [done|done| | |done].
  - intros (elem & Hin & He)%collect_Raised. exists elem. split; [done|].
    destruct (isHTML elem) eqn:Hhtml; [|done].
    apply list_elem_of_In, filter_In in Hin as [_ Hm].
    destruct (srcset_of_selected elem Hm Hhtml) as [srcset Hs].
    rewrite Hs in He. by apply srcset_images_Raised in He.
  - intros elem rest Hsel Hsvg. unfold imageSrcSets. rewrite Hsel.
    cbn [collect]. unfold prop. by rewrite Hsvg.
Qed.

End PassFacts.

Section PassShapes.

Import JsString Dom Selector.

Variable URL : string -> option string -> option URLRecord.

(** The interfaces the media loop tests for. *)
Definition recognised (elem : Element) : bool :=
  instanceof elem "img" || instanceof elem "video" || instanceof elem "source".

Definition media_kind (elem : Element) : ResourceType :=
  if instanceof elem "img" then image
  else if instanceof elem "video" then video
  else if parent_instanceof elem "video" then video
  else audio.

Lemma media_type_recognised elem :
  media_type elem
  = if recognised elem then Ok (media_kind elem) else Raised unreachable.
Proof.
  unfold media_type, recognised, media_kind.
  destruct (instanceof elem "img"); [done|].
  destruct (instanceof elem "video"); [done|].
  destruct (instanceof elem "source"); [|done]. simpl.
  by destruct (parent_instanceof elem "video").
Qed.

Lemma media_loop l :
  collect (fun elem =>
             match media_type elem with
             | Ok t => Ok [resource_of t (prop elem "src")]
             | Raised e => Raised e
             end) l
  = if forallb recognised l
    then Ok (map (fun elem => mkResource (media_kind elem) (prop elem "src")) l)
    else Raised unreachable.
Proof.
  induction l as [|elem l IH]; [done|].
  simpl. rewrite media_type_recognised.
  destruct (recognised elem); [|done]. simpl. rewrite IH.
  by destruct (forallb recognised l).
Qed.

(** X6: the first loop of [getMedia] is all or nothing.  When every
    element the selector matches is an HTML img, video or source element,
    it returns one Resource for each of them, in tree order, with the
    element's [src]; one matched element of another interface, wherever it
    stands, makes the whole loop throw and the Resources of the elements
    before it are lost. *)
Theorem mediaSources_all_or_nothing d :
  mediaSources d
  = if forallb recognised (querySelectorAll sel_media d)
    then Ok (map (fun elem => mkResource (media_kind elem) (prop elem "src"))
                 (querySelectorAll sel_media d))
    else Raised unreachable.
Proof. apply media_loop. Qed.

(** X7: a document that holds an HTML audio element with a [src]
    attribute, anywhere, makes the first loop of [getMedia] throw: the
    selector matches the element and the loop knows no interface for it. *)
Theorem audio_src_breaks_media d elem :
  elem ∈ elements d ->
  instanceof elem "audio" = true ->
  is_Some (assoc "src" (attributes elem)) ->
  mediaSources d = Raised unreachable.
Proof.
  intros Hin Haudio Hsrc. unfold mediaSources. rewrite media_loop.
  destruct (forallb recognised (querySelectorAll sel_media d)) eqn:Hall; [|done].
  rewrite forallb_forall in Hall.
  assert (Hsel : In elem (querySelectorAll sel_media d)).
  { apply filter_In. split; [by apply list_elem_of_In|].
    unfold instanceof in Haudio. apply andb_true_iff in Haudio as [_ Hname].
    apply String.eqb_eq in Hname.
    unfold matches, sel_media. simpl. unfold compound_matches. simpl.
    rewrite Hname. simpl. by rewrite bool_decide_true by done. }
  apply Hall in Hsel. unfold recognised, instanceof in *.
  apply andb_true_iff in Haudio as [_ Hname]. apply String.eqb_eq in Hname.
  rewrite Hname in Hsel. simpl in Hsel. by rewrite !andb_false_r in Hsel.
Qed.

(** X8: every Resource [getFavicons] returns has type favicon and, for its
    URL, a non-empty string that the URL parser accepts on its own, with a
    protocol other than [data:]; and there is at most one Resource for each
    element the selector matches. *)
Theorem getFavicons_sound d rs :
  getFavicons URL d = Ok rs ->
  Forall (fun r => type r = favicon
                   /\ exists href : string,
                        url r = href /\ href <> ""
                        /\ exists u, URL href None = Some u
                                     /\ protocol u <> "data:") rs
  /\ length rs <= length (querySelectorAll sel_favicons d).
Proof.
  unfold getFavicons. generalize (querySelectorAll sel_favicons d).
  intros l. revert rs. induction l as [|elem l IH]; intros rs; simpl.
  - intros [= <-]. split; [constructor|done].
  - destruct (prop elem "href") as [href|] eqn:Hprop.
    + destruct (String.eqb_spec href "") as [Hempty|Hfull].
      * destruct (collect _ l) as [zs|] eqn:Hl; [|done].
        intros [= <-]. destruct (IH zs eq_refl) as [HF Hlen]. simpl.
        split; [done|lia].
      * unfold new_URL. destruct (URL href None) as [u|] eqn:Hu; [|done].
        destruct (String.eqb_spec (protocol u) "data:") as [Hdata|Hproto].
        -- destruct (collect _ l) as [zs|] eqn:Hl; [|done].
           intros [= <-]. destruct (IH zs eq_refl) as [HF Hlen]. simpl.
           split; [done|lia].
        -- destruct (collect _ l) as [zs|] eqn:Hl; [|done].
           intros [= <-]. destruct (IH zs eq_refl) as [HF Hlen]. simpl.
           split; [|lia]. constructor; [|done]. simpl.
           split; [done|]. exists href. split_and!; [done|done|].
           by exists u.
    + destruct (collect _ l) as [zs|] eqn:Hl; [|done].
      intros [= <-]. destruct (IH zs eq_refl) as [HF Hlen]. simpl.
      split; [done|lia].
Qed.

Variable w : World.

(** X9: [getMiscResources] never throws, whatever the document and the
    URL parser do.  It makes two evaluations in the page and hands nothing
    to the consumer; what it returns is at most one manifest Resource, which
    comes first, followed by object Resources only, at most one for each
    element the selector matches. *)
Theorem getMiscResources_shape (s : Run unit) :
  exists ms os,
    getMiscResources URL w s
    = Some (Normal (ms ++ os),
            mkRun (events s) (caughtError s) (S (S (evals s))) (locals s))
    /\ length ms <= 1
    /\ Forall (fun r => type r = manifest) ms
    /\ Forall (fun r => type r = object) os
    /\ length os
       <= length (querySelectorAll sel_objects (document w (S (evals s)))).
Proof.
  exists (manifest_of (document w (evals s))),
         (dataObjects URL (page_url w) (document w (S (evals s)))).
  split_and!.
  - done.
  - unfold manifest_of. by destruct (querySelectorAll _ _); simpl; lia.
  - unfold manifest_of. destruct (querySelectorAll _ _); repeat constructor.
  - unfold dataObjects. generalize (querySelectorAll sel_objects (document w (S (evals s)))).
    intros l. induction l as [|elem l IH]; [constructor|]. simpl.
    destruct (URL (to_string (prop elem "data")) (Some (page_url w))); [|done].
    by constructor.
  - unfold dataObjects. generalize (querySelectorAll sel_objects (document w (S (evals s)))).
    intros l. induction l as [|elem l IH]; [done|]. simpl.
    destruct (URL (to_string (prop elem "data")) (Some (page_url w))); simpl;
      change (list_omap Element Resource) with (@omap list _ Element Resource) in *;
      lia.
Qed.

End PassShapes.

(** An image followed by an audio element with a source of its own. *)
Definition image_then_audio : Document :=
  mkDocument
    [element "img" [("src", "a.png")] [("src", "https://example.org/a.png")]
             (Some "body");
     element "audio" [("src", "a.mp3")] [("src", "https://example.org/a.mp3")]
             (Some "body")]
    [].

Lemma audio_src_breaks_media_witness :
  Dom.mediaSources image_then_audio = Raised unreachable.
Proof.
  apply (audio_src_breaks_media image_then_audio
           (element "audio" [("src", "a.mp3")]
                    [("src", "https://example.org/a.mp3")] (Some "body"))).
  - right. left.
  - reflexivity.
  - by eexists.
Defined.

(** Three icon links: one to a file, one inline, one without a target. *)
Definition icons_page : Document :=
  mkDocument
    [element "link" [("rel", "icon"); ("href", "favicon.ico")]
             [("href", "https://example.org/favicon.ico")] (Some "head");
     element "link" [("rel", "shortcut icon"); ("href", "data:image/png;base64,AA==")]
             [("href", "data:image/png;base64,AA==")] (Some "head");
     element "link" [("rel", "apple-touch-icon")] [] (Some "head")]
    [].

Lemma getFavicons_sound_witness :
  Forall (fun r => type r = favicon
                   /\ exists href : string,
                        url r = href /\ href <> ""
                        /\ exists u, sample_URL href None = Some u
                                     /\ protocol u <> "data:")
         [mkResource favicon "https://example.org/favicon.ico"]
  /\ length [mkResource favicon "https://example.org/favicon.ico"]
     <= length (Selector.querySelectorAll Dom.sel_favicons icons_page).
Proof.
  apply (getFavicons_sound sample_URL icons_page). reflexivity.
Defined.

(** * The [url(...)] values of a style declaration *)

Section QuotedUrls.

Import JsString Dom.

Definition not_rparen (c : ascii) : bool := negb (Ascii.eqb c ")").

Lemma all_chars_skip p n s :
  all_chars p s = true -> all_chars p (skip n s) = true.
Proof.
  revert s. induction n as [|n IH]; intros s; [by destruct s|].
  destruct s as [|c s]; [done|]. cbn [skip all_chars].
  intros [_ Hs]%andb_true_iff. by apply IH.
Qed.

Lemma group_to_close_sub p s g :
  group_to_close s = Some g -> all_chars p s = true -> all_chars p g = true.
Proof.
  revert g. induction s as [|c s IH]; intros g; [done|].
  cbn [group_to_close all_chars]. destruct (Ascii.eqb c ")"); [done|].
  destruct (Ascii.eqb c quote && String.prefix ")" s); [by intros [= <-]|].
  destruct (group_to_close s) as [g'|]; [|done].
  intros [= <-] [Hc Hs]%andb_true_iff. cbn [all_chars]. rewrite Hc. simpl.
  by apply IH.
Qed.

Lemma group_to_close_open s g :
  group_to_close s = Some g -> all_chars not_rparen g = true.
Proof.
  revert g. induction s as [|c s IH]; intros g; [done|].
  cbn [group_to_close]. destruct (Ascii.eqb c ")") eqn:Hc; [done|].
  destruct (Ascii.eqb c quote && String.prefix ")" s); [by intros [= <-]|].
  destruct (group_to_close s) as [g'|]; [|done].
  intros [= <-]. cbn [all_chars]. unfold not_rparen at 1. rewrite Hc. simpl.
  by apply IH.
Qed.

Lemma match_url_here_inv s g :
  match_url_here s = Some g ->
  g <> "" /\ all_chars not_rparen g = true
  /\ forall p, all_chars p s = true -> all_chars p g = true.
Proof.
  unfold match_url_here. destruct (String.prefix url_open s); [|done].
  destruct (group_to_close (skip 5 s)) as [[|c g']|] eqn:E; [done| |done].
  intros [= <-]. split_and!; [done|by eapply group_to_close_open|].
  intros p Hp. eapply group_to_close_sub; [done|]. by apply all_chars_skip.
Qed.

Lemma match_url_eq s :
  match_url s
  = match match_url_here s with
    | Some g => Some g
    | None => match s with
              | EmptyString => None
              | String _ s' => match_url s'
              end
    end.
Proof. by destruct s. Qed.

Lemma match_url_inv s g :
  match_url s = Some g ->
  g <> "" /\ all_chars not_rparen g = true
  /\ forall p, all_chars p s = true -> all_chars p g = true.
Proof.
  induction s as [|c s IH]; rewrite match_url_eq;
    destruct (match_url_here _) as [g'|] eqn:E; try done.
  - intros [= <-]. by apply match_url_here_inv in E.
  - intros H. destruct (IH H) as (? & ? & Hsub). split_and!; [done|done|].
    intros p. cbn [all_chars]. intros [_ Hs]%andb_true_iff. by apply Hsub.
Qed.

Lemma all_chars_trimStart p s :
  all_chars p s = true -> all_chars p (trimStart s) = true.
Proof.
  induction s as [|c s IH]; [done|]. cbn [trimStart].
  destruct (is_space c); [|done]. cbn [all_chars].
  intros [_ Hs]%andb_true_iff. by apply IH.
Qed.

Lemma all_chars_trimEnd p s :
  all_chars p s = true -> all_chars p (trimEnd s) = true.
Proof.
  induction s as [|c s IH]; [done|]. cbn [trimEnd all_chars].
  intros [Hc Hs]%andb_true_iff. specialize (IH Hs).
  destruct (trimEnd s) as [|c' t].
  - destruct (is_space c); [done|]. cbn [all_chars]. by rewrite Hc.
  - cbn [all_chars] in *. by rewrite Hc.
Qed.

Lemma trimStart_starts s :
  trimStart s <> "" -> starts_plain (trimStart s) = true.
Proof.
  induction s as [|c s IH]; [done|]. cbn [trimStart].
  destruct (is_space c) eqn:Hc; [done|]. intros _. simpl.
  unfold not_space. by rewrite Hc.
Qed.

Lemma trimEnd_ends s : trimEnd s <> "" -> ends_plain (trimEnd s) = true.
Proof.
  induction s as [|c s IH]; [done|]. cbn [trimEnd].
  destruct (trimEnd s) as [|c' t].
  - destruct (is_space c) eqn:Hc; [done|]. intros _. simpl.
    unfold not_space. by rewrite Hc.
  - intros _. cbn [ends_plain]. by apply IH.
Qed.

Lemma trimEnd_starts s :
  starts_plain s = true -> starts_plain (trimEnd s) = true.
Proof.
  destruct s as [|c s]; [done|]. cbn [trimEnd]. simpl. unfold not_space.
  intros Hc%negb_true_iff. destruct (trimEnd s); rewrite ?Hc; simpl;
    unfold not_space; by rewrite Hc.
Qed.

(** What [trim] returns, when it is not empty, starts and ends with a
    character that is no white space, and is left alone by [trim]. *)
Lemma trim_shape s :
  trim s <> "" ->
  starts_plain (trim s) = true /\ ends_plain (trim s) = true
  /\ trim (trim s) = trim s.
Proof.
  unfold trim at 1 2 3. intros Hne.
  assert (Hs : starts_plain (trimEnd (trimStart s)) = true).
  { apply trimEnd_starts, trimStart_starts. by intros E; rewrite E in Hne. }
  assert (He : ends_plain (trimEnd (trimStart s)) = true)
    by by apply trimEnd_ends.
  split_and!; [done|done|]. by apply trim_id.
Qed.

Lemma split_comma_pieces s :
  Forall (fun piece => all_chars not_comma piece = true) (split_comma s).
Proof.
  induction s as [|c s IH]; cbn [split_comma]; [by repeat constructor|].
  destruct (Ascii.eqb c ",") eqn:Hc; [by constructor|].
  destruct (split_comma s) as [|piece rest]; simpl.
  - repeat constructor. cbn. unfold not_comma. by rewrite Hc.
  - inversion IH; subst. constructor; [|done]. cbn [all_chars].
    unfold not_comma at 1. by rewrite Hc.
Qed.

(** X10: the strings that the background-image branch of
    [getStyleSheetImages] and [getFonts] hand to the URL parser are never
    empty, carry no white space at either end, and hold neither a closing
    parenthesis nor a comma; so a URL with a comma in it, as every
    base64 [data:] URL has, is never resolved from these values. *)
Theorem quoted_urls_clean value :
  Forall (fun u => u <> "" /\ trim u = u
                   /\ all_chars not_rparen u = true
                   /\ all_chars not_comma u = true)
         (quoted_urls value).
Proof.
  unfold quoted_urls. pose proof (split_comma_pieces value) as Hpieces.
  induction Hpieces as [|piece rest Hpiece _ IH]; [constructor|].
  cbn [omap list_omap]. destruct (match_url piece) as [g|] eqn:Hg; [|done].
  cbn [List.filter].
  destruct (String.eqb_spec (trim g) "") as [|Hne]; [done|]. simpl.
  constructor; [|done].
  apply match_url_inv in Hg as (_ & Hopen & Hsub).
  destruct (trim_shape g Hne) as (_ & _ & Hid).
  split_and!; [done|done| |]; unfold trim;
    apply all_chars_trimEnd, all_chars_trimStart; [done|by apply Hsub].
Qed.

(** A URL as the engine serialises it in a declaration, and a list of
    them separated by a comma and a space. *)
Definition css_url (u : string) : string :=
  url_open +:+ u +:+ String quote ")".

Fixpoint css_list (us : list string) : string :=
  match us with
  | [] => ""
  | u :: us' =>
      match us' with
      | [] => css_url u
      | _ :: _ => css_url u +:+ ", " +:+ css_list us'
      end
  end.

Definition clean (u : string) : bool :=
  negb (String.eqb u "") && starts_plain u && ends_plain u
  && all_chars not_rparen u && all_chars not_comma u.

Lemma clean_inv u :
  clean u = true ->
  u <> "" /\ trim u = u /\ all_chars not_rparen u = true
  /\ all_chars not_comma u = true.
Proof.
  unfold clean. rewrite !andb_true_iff.
  intros ((((Hne & Hs) & He) & Hp) & Hc). split_and!; try done.
  - intros ->. done.
  - by apply trim_id.
Qed.

Lemma not_prefix_rparen u :
  all_chars not_rparen u = true ->
  String.prefix ")" (u +:+ String quote ")") = false.
Proof.
  destruct u as [|c u]; [done|]. rewrite app_cons. cbn [all_chars].
  intros [Hc _]%andb_true_iff. cbn [String.prefix].
  destruct (ascii_dec ")" c) as [Heq|]; [|done].
  by rewrite <-Heq in Hc.
Qed.

Lemma group_to_close_clean u :
  all_chars not_rparen u = true ->
  group_to_close (u +:+ String quote ")") = Some u.
Proof.
  induction u as [|c u IH]; [done|]. rewrite app_cons.
  cbn [group_to_close all_chars]. intros [Hc Hu]%andb_true_iff.
  unfold not_rparen in Hc. apply negb_true_iff in Hc. rewrite Hc.
  rewrite not_prefix_rparen by done. rewrite andb_false_r.
  by rewrite IH.
Qed.

Lemma match_url_css_url u :
  u <> "" -> all_chars not_rparen u = true -> match_url (css_url u) = Some u.
Proof.
  intros Hne Hu. rewrite match_url_eq. unfold match_url_here, css_url.
  rewrite prefix_app.
  change (skip 5 (url_open +:+ u +:+ String quote ")"))
    with (u +:+ String quote ")").
  rewrite group_to_close_clean by done. by destruct u.
Qed.

Lemma match_url_padded u :
  u <> "" -> all_chars not_rparen u = true ->
  match_url (" " +:+ css_url u) = Some u.
Proof.
  intros Hne Hu. rewrite match_url_eq.
  change (" " +:+ css_url u) with (String " " (css_url u)).
  change (match_url_here (String " " (css_url u))) with (@None string).
  by apply match_url_css_url.
Qed.

Lemma split_comma_plain a :
  all_chars not_comma a = true -> split_comma a = [a].
Proof.
  induction a as [|c a IH]; [done|]. cbn [all_chars split_comma].
  intros [Hc Ha]%andb_true_iff. unfold not_comma in Hc.
  apply negb_true_iff in Hc. by rewrite Hc, IH.
Qed.

Lemma split_comma_app a rest :
  all_chars not_comma a = true ->
  split_comma (a +:+ "," +:+ rest) = a :: split_comma rest.
Proof.
  induction a as [|c a IH]; [done|]. cbn [all_chars].
  intros [Hc Ha]%andb_true_iff. rewrite app_cons. cbn [split_comma].
  unfold not_comma in Hc. apply negb_true_iff in Hc. by rewrite Hc, IH.
Qed.

Lemma css_url_no_comma u :
  all_chars not_comma u = true -> all_chars not_comma (css_url u) = true.
Proof.
  intros Hu. unfold css_url. by rewrite !all_chars_app, Hu.
Qed.

Lemma css_list_cons u u' us :
  css_list (u :: u' :: us)
  = css_url u +:+ "," +:+ (" " +:+ css_list (u' :: us)).
Proof. reflexivity. Qed.

Lemma quoted_urls_padded pad us :
  pad = "" \/ pad = " " -> us <> [] -> forallb clean us = true ->
  quoted_urls (pad +:+ css_list us) = us.
Proof.
  revert pad. induction us as [|u us IH]; intros pad Hpad Hne; [done|].
  cbn [forallb]. intros [Hu Hus]%andb_true_iff.
  destruct (clean_inv u Hu) as (Hu1 & Hu2 & Hu3 & Hu4).
  assert (Hm : match_url (pad +:+ css_url u) = Some u).
  { destruct Hpad as [->| ->];
      [by apply match_url_css_url|by apply match_url_padded]. }
  assert (Hc : all_chars not_comma (pad +:+ css_url u) = true).
  { rewrite all_chars_app, css_url_no_comma by done.
    by destruct Hpad as [->| ->]. }
  destruct us as [|u' us'].
  - cbn [css_list]. unfold quoted_urls. rewrite split_comma_plain by done.
    cbn [omap list_omap]. rewrite Hm, Hu2. cbn [List.filter].
    by destruct (String.eqb_spec u "").
  - rewrite css_list_cons, <-app_assoc_s. unfold quoted_urls.
    rewrite split_comma_app by done. cbn [omap list_omap].
    rewrite Hm, Hu2. cbn [List.filter].
    destruct (String.eqb_spec u "") as [|_]; [done|]. simpl. f_equal.
    apply (IH " "); [by right|done|done].
Qed.

(** X11: the pipeline that reads the URLs of a background-image or font
    src value undoes the engine's serialisation: from a list of [url(...)]
    items with double quotes, separated by a comma and a space, it returns
    the URLs in order, when each is non-empty, has no white space at its
    ends and holds neither a closing parenthesis nor a comma. *)
Theorem quoted_urls_round_trip us :
  forallb clean us = true -> quoted_urls (css_list us) = us.
Proof.
  intros Hus. destruct us as [|u us]; [done|].
  apply (quoted_urls_padded "" (u :: us)); [by left|done|done].
Qed.

End QuotedUrls.

Lemma quoted_urls_round_trip_witness :
  Dom.quoted_urls
    (css_list ["a.woff2"; "https://example.org/fonts/b.woff"; "c d.ttf"])
  = ["a.woff2"; "https://example.org/fonts/b.woff"; "c d.ttf"].
Proof.
  apply (quoted_urls_round_trip
           ["a.woff2"; "https://example.org/fonts/b.woff"; "c d.ttf"]).
  reflexivity.
Defined.

(** * More on image candidates *)

Section CandidateFacts.

Import JsString Dom.

Variable URL : string -> option string -> option URLRecord.

Lemma split_space_first s :
  exists first rest,
    split_space_from false s = first :: rest
    /\ all_chars not_space first = true
    /\ (starts_plain s = true -> first <> "").
Proof.
  induction s as [|c s (first & rest & Hs & Hfirst & _)].
  - by exists "", [].
  - cbn [split_space_from]. destruct (is_space c) eqn:Hc.
    + exists "", (split_space_from true s). split_and!; [done|done|].
      simpl. unfold not_space. by rewrite Hc.
    + rewrite Hs. exists (String c first), rest. split_and!; [done| |done].
      cbn [all_chars]. unfold not_space at 1. by rewrite Hc.
Qed.

Lemma candidate_src_plain part :
  trim part <> "" ->
  candidate_src part <> "" /\ all_chars not_space (candidate_src part) = true.
Proof.
  intros Hne. destruct (trim_shape part Hne) as (Hstart & _ & _).
  unfold candidate_src, split_space.
  destruct (split_space_first (trim part)) as (first & rest & -> & Hall & Hfirst).
  simpl. split; [by apply Hfirst|done].
Qed.

(** X12: whatever the srcset attribute holds, every string the srcset
    loop of [getMedia] hands to the URL parser is non-empty and free of
    white space. *)
Theorem srcset_sources_plain srcset :
  Forall (fun part => candidate_src part <> ""
                      /\ all_chars not_space (candidate_src part) = true)
         (candidates srcset).
Proof.
  unfold candidates. apply Forall_forall. intros part Hin.
  apply list_elem_of_In, filter_In in Hin as [_ Hkeep].
  apply candidate_src_plain. apply negb_true_iff in Hkeep.
  by apply String.eqb_neq.
Qed.

(** X13: a srcset attribute that is empty or holds white space only
    gives no Resource and no call of the URL parser, so it cannot make the
    pass throw. *)
Theorem srcset_blank pageURL srcset :
  all_chars is_space srcset = true ->
  candidates srcset = [] /\ srcset_images URL pageURL srcset = Ok [].
Proof.
  intros Hblank. assert (Hc : candidates srcset = []).
  { unfold candidates, trim. by rewrite trimStart_all. }
  split; [done|]. unfold srcset_images. by rewrite Hc.
Qed.

End CandidateFacts.

Lemma srcset_blank_witness :
  Dom.candidates "  " = []
  /\ Dom.srcset_images (fun _ _ => None) origin "  " = Ok [].
Proof.
  apply (srcset_blank (fun _ _ => None) origin "  "). reflexivity.
Defined.

(** * The network-observed collector on a quiet page *)

(** The Resources of a list that are the first with their URL, given the
    URLs met before. *)
Fixpoint first_from (seen : gset Text) (rs : list Resource) : list Resource :=
  match rs with
  | [] => []
  | r :: rs' =>
      if decide (url r ∈ seen) then first_from seen rs'
      else r :: first_from ({[url r]} ∪ seen) rs'
  end.

Definition first_by_url (rs : list Resource) : list Resource := first_from ∅ rs.

Definition seen_after (seen : gset Text) (rs : list Resource) : gset Text :=
  list_to_set (url <$> rs) ∪ seen.

(** The responses that [mapResourceType] gives a type, as Resources. *)
Definition classified (href : string) (batch : list HTTPResponse) : list Resource :=
  omap (fun response =>
          match Network.mapResourceType response href with
          | Some t => Some (mkResource t (response_url response))
          | None => None
          end) batch.

(** The HTML anchors with an [href] attribute, as link Resources. *)
Definition anchors (d : Document) : list Resource :=
  map (fun el => mkResource link (prop el "href"))
      (List.filter (fun el => instanceof el "a")
                   (Selector.querySelectorAll Network.sel_links d)).

Lemma seen_after_nil seen : seen_after seen [] = seen.
Proof. unfold seen_after. simpl. apply (left_id_L ∅ (∪)). Qed.

Lemma seen_after_new seen r rs :
  seen_after seen (r :: rs) = seen_after ({[url r]} ∪ seen) rs.
Proof.
  unfold seen_after. rewrite fmap_cons, list_to_set_cons.
  by rewrite (comm_L (∪) {[url r]} (list_to_set (url <$> rs))), <-(assoc_L (∪)).
Qed.

Lemma seen_after_known seen r rs :
  url r ∈ seen -> seen_after seen (r :: rs) = seen_after seen rs.
Proof.
  intros Hin. rewrite seen_after_new. f_equal.
  apply subseteq_union_1_L. by apply singleton_subseteq_l.
Qed.

Section Quiescent.

Import Network.
Local Open Scope run_scope.

Variable w : World.
Variable href : string.
Variable options : Options.

Lemma bind_run {L A B} (m : M L A) (k : A -> M L B) s a s1 :
  m s = Some (Normal a, s1) -> bind m k s = k a s1.
Proof. intros H. unfold bind. by rewrite H. Qed.

Lemma first_from_app seen rs rs' :
  first_from seen (rs ++ rs')
  = first_from seen rs ++ first_from (seen_after seen rs) rs'.
Proof.
  revert seen. induction rs as [|r rs IH]; intros seen.
  - simpl. by rewrite seen_after_nil.
  - simpl. destruct (decide (url r ∈ seen)) as [Hin|Hout].
    + by rewrite IH, seen_after_known.
    + by rewrite IH, seen_after_new.
Qed.

Lemma emitted_of_yields rs : emitted_of (map EvYield rs) = rs.
Proof. induction rs as [|r rs IH]; [done|]. simpl. by rewrite IH. Qed.

(** The listener, run on a batch of responses. *)
Lemma foldl_on_response_first batch : forall v,
  foldl (on_response href) v batch
  = mkVars (seen_after (seen v) (classified href batch))
           (queue v ++ first_from (seen v) (classified href batch))
           (pending v).
Proof.
  induction batch as [|response batch IH]; intros v.
  - simpl. destruct v as [sn q p]. simpl.
    by rewrite app_nil_r, seen_after_nil.
  - cbn [foldl]. rewrite IH. unfold on_response, classified.
    cbn [omap list_omap].
    destruct (mapResourceType response href) as [t|]; [|done].
    cbn [first_from url]. destruct (decide (text (response_url response) ∈ seen v)).
    + by rewrite seen_after_known.
    + cbn [seen queue pending]. by rewrite <-app_assoc, seen_after_new.
Qed.

Hypothesis Hconsumer : forall n, consumer w n = Next.

Lemma deliver_quiet v : pending v = [] -> deliver href v = v.
Proof. intros H. unfold deliver. by rewrite H. Qed.

Lemma yield_quiet r s :
  pending (locals s) = [] ->
  yield_ w href r s
  = Some (Normal tt,
          mkRun (events s ++ [EvYield r]) (caughtError s) (evals s) (locals s)).
Proof.
  intros Hp. unfold yield_, bind, emit, log, suspend, set_locals, modify, resume.
  simpl. by rewrite Hconsumer, deliver_quiet.
Qed.

Lemma yield_queue_quiet fuel : forall i s,
  pending (locals s) = [] ->
  length (queue (locals s)) - i < fuel ->
  yield_queue w href fuel i s
  = Some (Normal tt,
          mkRun (events s ++ map EvYield (drop i (queue (locals s))))
                (caughtError s) (evals s) (locals s)).
Proof.
  induction fuel as [|fuel IH]; intros i s Hp Hfuel; [lia|].
  cbn [yield_queue]. unfold bind at 1, get.
  destruct (queue (locals s) !! i) as [r|] eqn:Hi.
  - erewrite bind_run by by apply yield_quiet.
    apply lookup_lt_Some in Hi as Hlt.
    rewrite IH; simpl; [|done|lia].
    by rewrite (drop_S _ _ _ Hi), <-app_assoc.
  - apply lookup_ge_None in Hi. rewrite drop_ge by done. simpl.
    rewrite app_nil_r. by destruct s.
Qed.

Lemma yield_links_quiet ls : forall s,
  pending (locals s) = [] ->
  yield_links w href ls s
  = Some (Normal tt,
          mkRun (events s ++ map EvYield (first_from (seen (locals s)) ls))
                (caughtError s) (evals s)
                (mkVars (seen_after (seen (locals s)) ls)
                        (queue (locals s)) [])).
Proof.
  induction ls as [|l ls IH]; intros s Hp.
  - simpl. unfold ret. rewrite app_nil_r. destruct s as [evs ce n [sn q p]].
    simpl in *. subst p. by rewrite seen_after_nil.
  - cbn [yield_links first_from]. unfold bind at 1, get.
    destruct (decide (url l ∈ seen (locals s))) as [Hin|Hout].
    + erewrite bind_run by reflexivity. rewrite IH by done.
      by rewrite seen_after_known.
    + erewrite bind_run; cycle 1.
      { erewrite bind_run by reflexivity. by apply yield_quiet. }
      rewrite IH by done. simpl. rewrite <-app_assoc. simpl.
      by rewrite seen_after_new.
Qed.

Variable response : option HTTPResponse.
Variable batch : list HTTPResponse.

Hypothesis Hnew : newPage_result w = None.
Hypothesis Hgoto : goto_result w = inr response.
Hypothesis Hnav : navigation_failed response = false.
Hypothesis Hresponses : responses w = [batch].

(** What the consumer gets on a quiet page. *)
Definition quiet_output : list Resource :=
  first_by_url (classified href batch
                ++ if links_enabled options then anchors (document w 0) else []).

Lemma body_quiet :
  exists v,
    body w href options (mkRun [EvLaunch] None 0 (mkVars ∅ [] []))
    = Some (Normal tt,
            mkRun ([EvLaunch; EvNewPage; EvGoto href] ++ map EvYield quiet_output)
                  None (if links_enabled options then 1 else 0) v).
Proof.
  unfold body.
  erewrite bind_run; cycle 1.
  { unfold newPage, bind, log, modify, settle. simpl. by rewrite Hnew. }
  erewrite bind_run by reflexivity.
  erewrite bind_run; cycle 1.
  { unfold goto, bind, log, suspend, set_locals, modify. simpl.
    rewrite Hgoto. unfold ret. reflexivity. }
  unfold check_navigation. rewrite Hnav.
  erewrite bind_run by reflexivity.
  erewrite bind_run by reflexivity.
  cbn [locals]. rewrite Hresponses. unfold deliver. cbn [pending seen queue].
  rewrite foldl_on_response_first. cbn [pending seen queue app].
  erewrite bind_run; cycle 1.
  { apply yield_queue_quiet; [done|]. unfold steps. simpl. lia. }
  cbn [events caughtError evals locals queue]. rewrite drop_0.
  unfold quiet_output, first_by_url. rewrite first_from_app.
  destruct (links_enabled options).
  - erewrite bind_run; cycle 1.
    { unfold eval_links, bind, snapshot, suspend, set_locals, modify. simpl.
      rewrite deliver_quiet by done. unfold ret. reflexivity. }
    rewrite yield_links_quiet by done. simpl.
    eexists. do 3 f_equal. rewrite map_app. reflexivity.
  - unfold ret. eexists. by rewrite app_nil_r.
Qed.

Hypothesis Hlaunch : launch_result w = None.
Hypothesis Hclose : close_result w = None.

Lemma quiet_run :
  exists s',
    getAllSubResources w href options start = Some (Normal tt, s')
    /\ emitted s' = quiet_output
    /\ events s'
       = [EvLaunch; EvNewPage; EvGoto href] ++ map EvYield quiet_output
         ++ [EvClose].
Proof.
  destruct body_quiet as [v Hbody].
  unfold getAllSubResources. rewrite launch_run by done.
  destruct (guarded_run w (suspend href) _ _ _ _
              (silent_set_locals _) Hbody eq_refl) as (s3 & Hrun & Hev).
  exists s3. unfold after_teardown in Hrun. rewrite Hclose in Hrun.
  split_and!; [done| |].
  - unfold emitted. rewrite Hev. simpl. rewrite emitted_of_app, emitted_of_yields.
    simpl. by rewrite app_nil_r.
  - by rewrite Hev.
Qed.

End Quiescent.

(** X14: the network-observed collector on a quiet page.  When the browser
    starts and closes, the navigation succeeds, every response arrives while
    the navigation is awaited and the consumer pulls every item, the run
    ends normally and the consumer gets, in this order and once per URL, the
    responses that [mapResourceType] gives a type, in order of arrival,
    followed, when the links option is on, by the HTML anchors of the
    document in tree order; the first Resource met with a URL decides its
    type.  The browser is closed last. *)
Theorem network_quiescent_run w href options response batch :
  (forall n, consumer w n = Next) ->
  newPage_result w = None ->
  goto_result w = inr response ->
  navigation_failed response = false ->
  responses w = [batch] ->
  launch_result w = None ->
  close_result w = None ->
  exists s',
    Network.getAllSubResources w href options Network.start
    = Some (Normal tt, s')
    /\ emitted s'
       = first_by_url (classified href batch
                       ++ if Network.links_enabled options
                          then anchors (document w 0) else [])
    /\ events s'
       = [EvLaunch; EvNewPage; EvGoto href] ++ map EvYield (emitted s')
         ++ [EvClose].
Proof.
  intros Hc Hn Hg Hv Hr Hl Hx.
  destruct (quiet_run w href options Hc response batch Hn Hg Hv Hr Hl Hx)
    as (s' & Hrun & Hem & Hev).
  exists s'. split_and!; [done|done|]. by rewrite Hem.
Qed.

(** A page whose logo is loaded twice and is also the target of one of its
    three anchors. *)
Definition quiet_page : World :=
  mkWorld None None (inr (Some (main_response 200))) None origin
          (fun _ => mkDocument
             [element "a" [("href", "/about")]
                      [("href", "https://example.org/about")] (Some "body");
              element "a" [("href", "logo.png")]
                      [("href", "https://example.org/logo.png")] (Some "body");
              element "a" [("href", "/about")]
                      [("href", "https://example.org/about")] (Some "body")]
             [])
          [[main_response 200; image_response; pdf_response; image_response]]
          (fun _ => Next) (fun e => e)
          (fun _ m => m) (fun _ t => JsOther t).

Lemma network_quiescent_run_witness :
  exists s',
    Network.getAllSubResources quiet_page origin (mkOptions (Some true))
                               Network.start
    = Some (Normal tt, s')
    /\ emitted s'
       = [mkResource image "https://example.org/logo.png";
          mkResource object "https://example.org/file.pdf";
          mkResource link "https://example.org/about"]
    /\ events s'
       = [EvLaunch; EvNewPage; EvGoto origin] ++ map EvYield (emitted s')
         ++ [EvClose].
Proof.
  apply (network_quiescent_run quiet_page origin (mkOptions (Some true))
           (Some (main_response 200))
           [main_response 200; image_response; pdf_response; image_response]);
    reflexivity.
Defined.

(** * The DOM-query collector on a page that answers *)

(** What a run of passes hands over: the Resources of the passes before the
    first one that throws, and what that one throws. *)
Fixpoint outcome_from (out : list Resource) (ps : list (Result (list Resource)))
  : list Resource * option JsValue :=
  match ps with
  | [] => (out, None)
  | Ok rs :: ps' => outcome_from (out ++ rs) ps'
  | Raised e :: _ => (out, Some e)
  end.

Definition outcome (ps : list (Result (list Resource)))
  : list Resource * option JsValue :=
  outcome_from [] ps.

Section DomRun.

Import Dom.
Local Open Scope run_scope.

Variable URL : string -> option string -> option URLRecord.
Variable w : World.
Variable href : string.

(** What the collector receives from the evaluation numbered [n]: the
    value the page function returns, or the rejection the library makes of
    what it throws. *)
Definition received {A} (n : nat) (r : Result A) : Result A :=
  match r with
  | Ok a => Ok a
  | Raised e => Raised (rejected w n e)
  end.

(** The passes in the order of the [try] block, each on the document as
    its evaluation finds it. *)
Definition passes : list (Result (list Resource)) :=
  [received 0 (getStyleSheets (document w 0));
   received 1 (getImportedStyleSheets URL (page_url w) (document w 1));
   received 2 (getScripts (document w 2));
   match received 3 (mediaSources (document w 3)) with
   | Raised e => Raised e
   | Ok sources =>
       match received 4 (imageSrcSets URL (page_url w) (document w 4)) with
       | Raised e => Raised e
       | Ok sets => Ok (sources ++ sets)
       end
   end;
   received 5 (getStyleSheetImages URL (page_url w) (document w 5));
   received 6 (getFonts URL (page_url w) (document w 6));
   received 7 (getFavicons URL (document w 7));
   received 8 (getIframes (document w 8));
   Ok (manifest_of (document w 9) ++ dataObjects URL (page_url w) (document w 10))].

Hypothesis Hconsumer : forall n, consumer w n = Next.

(** The state after [out] was handed over and [n] evaluations were made. *)
Definition at_ (evs : list Event) (out : list Resource) (n : nat) : Run unit :=
  mkRun (evs ++ map EvYield out) None n tt.

Lemma yield_run r evs out n :
  yield_ w r (at_ evs out n) = Some (Normal tt, at_ evs (out ++ [r]) n).
Proof.
  unfold yield_, bind, emit, log, modify, resume_delegated. simpl.
  rewrite Hconsumer. unfold at_. by rewrite map_app, app_assoc.
Qed.

Lemma yield_all_run rs : forall evs out n,
  yield_all w rs (at_ evs out n) = Some (Normal tt, at_ evs (out ++ rs) n).
Proof.
  induction rs as [|r rs IH]; intros evs out n.
  - simpl. by rewrite app_nil_r.
  - cbn [yield_all]. rewrite (bind_run _ _ _ _ _ (yield_run r evs out n)).
    rewrite IH. by rewrite <-app_assoc.
Qed.

Lemma bind_throw {L A B} (m : M L A) (k : A -> M L B) s e s1 :
  m s = Some (Throw e, s1) -> bind m k s = Some (Throw e, s1).
Proof. intros H. unfold bind. by rewrite H. Qed.

Lemma evaluate_run {A} (f : Document -> Result A) evs out n :
  evaluate w f (at_ evs out n)
  = match received n (f (document w n)) with
    | Ok a => Some (Normal a, at_ evs out (S n))
    | Raised e => Some (Throw e, at_ evs out (S n))
    end.
Proof.
  unfold evaluate, bind, get, snapshot. simpl. by destruct (f (document w n)).
Qed.

Lemma pass_step (f : Document -> Result (list Resource)) (k : M unit unit)
    evs out n :
  bind (bind (evaluate w f) (fun rs => yield_all w rs)) (fun _ => k)
       (at_ evs out n)
  = match received n (f (document w n)) with
    | Ok rs => k (at_ evs (out ++ rs) (S n))
    | Raised e => Some (Throw e, at_ evs out (S n))
    end.
Proof.
  pose proof (evaluate_run f evs out n) as Hf.
  destruct (received n (f (document w n))) as [rs|e].
  - erewrite bind_run; [done|].
    erewrite bind_run; [apply yield_all_run|done].
  - apply bind_throw. by apply bind_throw.
Qed.

Lemma media_step (k : M unit unit) evs out n :
  bind (bind (getMedia URL w) (fun rs => yield_all w rs)) (fun _ => k)
       (at_ evs out n)
  = match received n (mediaSources (document w n)) with
    | Raised e => Some (Throw e, at_ evs out (S n))
    | Ok sources =>
        match received (S n)
                (imageSrcSets URL (page_url w) (document w (S n))) with
        | Raised e => Some (Throw e, at_ evs out (S (S n)))
        | Ok sets => k (at_ evs (out ++ (sources ++ sets)) (S (S n)))
        end
    end.
Proof.
  pose proof (evaluate_run mediaSources evs out n) as H1.
  pose proof (evaluate_run (imageSrcSets URL (page_url w)) evs out (S n)) as H2.
  unfold getMedia.
  destruct (received n (mediaSources (document w n))) as [sources|e].
  - destruct (received (S n) (imageSrcSets URL (page_url w) (document w (S n))))
      as [sets|e].
    + erewrite bind_run; [done|].
      erewrite bind_run; [apply yield_all_run|].
      erewrite bind_run; [|done]. erewrite bind_run; [|done]. done.
    + apply bind_throw, bind_throw. erewrite bind_run; [|done].
      by apply bind_throw.
  - by apply bind_throw, bind_throw, bind_throw.
Qed.

Lemma misc_step evs out n :
  bind (getMiscResources URL w) (fun rs => yield_all w rs) (at_ evs out n)
  = Some (Normal tt,
          at_ evs (out ++ (manifest_of (document w n)
                           ++ dataObjects URL (page_url w) (document w (S n))))
              (S (S n))).
Proof.
  erewrite bind_run; [apply yield_all_run|].
  unfold getMiscResources.
  erewrite bind_run; [|by rewrite evaluate_run].
  erewrite bind_run; [|by rewrite evaluate_run]. done.
Qed.

Definition completion_for (e : option JsValue) : Completion unit :=
  match e with
  | Some e => Throw e
  | None => Normal tt
  end.

Variable response : option HTTPResponse.

Hypothesis Hnew : newPage_result w = None.
Hypothesis Hgoto : goto_result w = inr response.
Hypothesis Hnav : navigation_failed response = false.

(** The errors of the page functions are Error objects, and so are the
    rejections made of them. *)
Lemma received_truthy {A} n (r : Result A) e :
  (forall e0, r = Raised e0 -> exists m, e0 = JsError m) ->
  received n r = Raised e -> is_truthy e = true.
Proof.
  intros Hr. destruct r as [a|e0]; [done|].
  destruct (Hr e0 eq_refl) as [m ->]. by intros [= <-].
Qed.

Lemma page_errors_are_Errors pageURL d e :
  (getImportedStyleSheets URL pageURL d = Raised e
   \/ mediaSources d = Raised e
   \/ imageSrcSets URL pageURL d = Raised e
   \/ getStyleSheetImages URL pageURL d = Raised e
   \/ getFonts URL pageURL d = Raised e
   \/ getFavicons URL d = Raised e) ->
  exists m, e = JsError m.
Proof.
  destruct (page_function_errors URL pageURL d e)
    as (H1 & H2 & H3 & H4 & H5 & H6).
  intros [H|[H|[H|[H|[H|H]]]]].
  - rewrite (H1 H). by eexists.
  - rewrite (H2 H). by eexists.
  - destruct (H3 H) as [-> | ->]; by eexists.
  - rewrite (H4 H). by eexists.
  - rewrite (H5 H). by eexists.
  - rewrite (H6 H). by eexists.
Qed.

Ltac raised E :=
  eexists; split; [reflexivity|];
  intros ? [= <-];
  eapply received_truthy; [|exact E];
  intros ? ?; eapply (page_errors_are_Errors (page_url w)); eauto 10.

Lemma dom_body_run :
  exists n,
    body URL w href (mkRun [EvLaunch] None 0 tt)
    = Some (completion_for (snd (outcome passes)),
            at_ [EvLaunch; EvNewPage; EvGoto href] (fst (outcome passes)) n)
    /\ forall e, snd (outcome passes) = Some e -> is_truthy e = true.
Proof.
  unfold body.
  erewrite bind_run; cycle 1.
  { unfold newPage, bind, log, modify, settle. simpl. by rewrite Hnew. }
  erewrite bind_run; cycle 1.
  { unfold goto, bind, log, modify. simpl. rewrite Hgoto. reflexivity. }
  unfold check_navigation. rewrite Hnav.
  erewrite bind_run by reflexivity.
  change (mkRun _ None 0 tt) with (at_ [EvLaunch; EvNewPage; EvGoto href] [] 0).
  unfold outcome, passes, getStyleSheets, getScripts, getIframes.
  rewrite pass_step. cbn [outcome_from received].
  rewrite pass_step.
  destruct (received 1 (getImportedStyleSheets URL (page_url w) (document w 1)))
    as [r1|e] eqn:E1; cbn [outcome_from fst snd completion_for];
    [|raised E1].
  rewrite pass_step. cbn [outcome_from received].
  rewrite media_step.
  destruct (received 3 (mediaSources (document w 3))) as [r3|e] eqn:E3;
    cbn [outcome_from fst snd completion_for]; [|raised E3].
  destruct (received 4 (imageSrcSets URL (page_url w) (document w 4)))
    as [r4|e] eqn:E4;
    cbn [outcome_from fst snd completion_for]; [|raised E4].
  rewrite pass_step.
  destruct (received 5 (getStyleSheetImages URL (page_url w) (document w 5)))
    as [r5|e] eqn:E5; cbn [outcome_from fst snd completion_for];
    [|raised E5].
  rewrite pass_step.
  destruct (received 6 (getFonts URL (page_url w) (document w 6)))
    as [r6|e] eqn:E6; cbn [outcome_from fst snd completion_for];
    [|raised E6].
  rewrite pass_step.
  destruct (received 7 (getFavicons URL (document w 7)))
    as [r7|e] eqn:E7; cbn [outcome_from fst snd completion_for];
    [|raised E7].
  rewrite pass_step. cbn [outcome_from received].
  rewrite misc_step. eexists. split; [reflexivity|done].
Qed.

Hypothesis Hlaunch : launch_result w = None.
Hypothesis Hclose : close_result w = None.

Lemma dom_run :
  exists s',
    getAllSubResources URL w href start
    = Some (completion_for (snd (outcome passes)), s')
    /\ emitted s' = fst (outcome passes)
    /\ events s'
       = [EvLaunch; EvNewPage; EvGoto href]
         ++ map EvYield (fst (outcome passes)) ++ [EvClose].
Proof.
  destruct dom_body_run as (n & Hbody & Htruthy).
  unfold getAllSubResources. rewrite launch_run by done.
  destruct (guarded_run w (ret tt) _ _ _ _ silent_ret Hbody eq_refl)
    as (s3 & Hrun & Hev).
  exists s3. unfold after_teardown in Hrun. rewrite Hclose in Hrun.
  split_and!.
  - change (launched start) with (mkRun [EvLaunch] None 0 tt).
    rewrite Hrun. do 2 f_equal.
    destruct (snd (outcome passes)) as [e|] eqn:E; [|done]. simpl.
    by rewrite (Htruthy e eq_refl).
  - unfold emitted. rewrite Hev. simpl.
    rewrite emitted_of_app, emitted_of_yields. simpl. by rewrite app_nil_r.
  - by rewrite Hev.
Qed.

End DomRun.

(** X15: the DOM-query collector on a page that answers.  When the
    browser starts and closes, the navigation succeeds and the consumer
    pulls every item, the passes run in the order style sheets, imported
    style sheets, scripts, media, style-sheet images, fonts, favicons,
    iframes, manifest and objects, each on the document as it is at its own
    evaluation.  The consumer gets the Resources of the passes before the
    first one whose page function throws; the media pass hands over nothing
    when either of its two loops throws.  The run ends normally when no
    pass throws; otherwise it throws what the library rejected that
    evaluation with, an Error made from the one thrown in the page, after
    the browser was closed. *)
Theorem dom_quiescent_run URL w href response :
  (forall n, consumer w n = Next) ->
  newPage_result w = None ->
  goto_result w = inr response ->
  navigation_failed response = false ->
  launch_result w = None ->
  close_result w = None ->
  exists s',
    Dom.getAllSubResources URL w href Dom.start
    = Some (completion_for (snd (outcome (passes URL w))), s')
    /\ emitted s' = fst (outcome (passes URL w))
    /\ events s'
       = [EvLaunch; EvNewPage; EvGoto href] ++ map EvYield (emitted s')
         ++ [EvClose].
Proof.
  intros Hc Hn Hg Hv Hl Hx.
  destruct (dom_run URL w href Hc response Hn Hg Hv Hl Hx)
    as (s' & Hrun & Hem & Hev).
  exists s'. split_and!; [done|done|]. by rewrite Hem.
Qed.

(** A page with a style sheet, a script, an image and an audio element
    that has a source of its own. *)
Definition page_with_audio : Document :=
  mkDocument
    [element "link" [("rel", "stylesheet"); ("href", "main.css")]
             [("href", "https://example.org/main.css")] (Some "head");
     element "script" [("src", "app.js")]
             [("src", "https://example.org/app.js")] (Some "head");
     element "img" [("src", "a.png")] [("src", "https://example.org/a.png")]
             (Some "body");
     element "audio" [("src", "a.mp3")] [("src", "https://example.org/a.mp3")]
             (Some "body")]
    [].

(** The same page seen through a library that puts a prefix before the
    message of an error thrown in the page. *)
Definition prefixing (w : World) : World :=
  mkWorld (launch_result w) (newPage_result w) (goto_result w) (close_result w)
          (page_url w) (document w) (responses w) (consumer w)
          (delegated_throw w)
          (fun _ m => "Evaluation failed: " +:+ m)
          (fun _ _ => JsError "Evaluation failed").

Lemma dom_quiescent_run_witness :
  exists s',
    Dom.getAllSubResources sample_URL (prefixing (page_world 200 page_with_audio))
                           origin Dom.start
    = Some (Throw (JsError "Evaluation failed: Reached unreachable code."),
            s')
    /\ emitted s'
       = [mkResource stylesheet "https://example.org/main.css";
          mkResource script "https://example.org/app.js"]
    /\ events s'
       = [EvLaunch; EvNewPage; EvGoto origin] ++ map EvYield (emitted s')
         ++ [EvClose].
Proof.
  apply (dom_quiescent_run sample_URL (prefixing (page_world 200 page_with_audio))
           origin (Some (main_response 200))); reflexivity.
Defined.

(** * The earlier DOM-query collector *)

(** The style-sheet passes of the earlier version of the collector, which
    reads [stylesheet.cssRules] outside any [try] and knows no [content]
    branch. *)
Module Earlier.

Import JsString.

Section Collector.

Variable URL : string -> option string -> option URLRecord.

(** What the engine throws when the rules of a style sheet of another
    origin are read. *)
Variable security_error : JsValue.

(** [for (const stylesheet of document.styleSheets)
       for (const rule of stylesheet.cssRules) ...] *)
Definition over_sheets {Y} (per_rule : string -> CSSRule -> Result (list Y))
  (pageURL : string) (d : Document) : Result (list Y) :=
  collect (fun sheet =>
             let baseURL := Dom.base_of sheet pageURL in
             match cssRules sheet with
             | None => Raised security_error
             | Some rules => collect (per_rule baseURL) rules
             end)
          (styleSheets d).

Definition getImportedStyleSheets (pageURL : string) (d : Document)
  : Result (list Resource) :=
  over_sheets (Dom.imported_of_rule URL) pageURL d.

Definition images_of_rule (baseURL : string) (rule : CSSRule)
  : Result (list string) :=
  match rule with
  | CSSStyleRule backgroundImage _ =>
      if negb (String.eqb backgroundImage "") then
        Dom.resolve_all URL baseURL (Dom.quoted_urls backgroundImage)
      else Ok []
  | _ => Ok []
  end.

Definition getStyleSheetImages (pageURL : string) (d : Document)
  : Result (list Resource) :=
  Dom.as_type image (over_sheets images_of_rule pageURL d).

End Collector.

End Earlier.

Section EarlierSheets.

Import Dom.

Variable URL : string -> option string -> option URLRecord.
Variable security_error : JsValue.

Lemma earlier_over_sheets_readable {Y}
    (per_rule : string -> CSSRule -> Result (list Y)) pageURL d :
  forallb readable (styleSheets d) = true ->
  Earlier.over_sheets security_error per_rule pageURL d
  = over_sheets per_rule pageURL d.
Proof.
  unfold Earlier.over_sheets, over_sheets.
  induction (styleSheets d) as [|sheet sheets IH]; [done|].
  cbn [forallb collect]. intros [Hsheet Hsheets]%andb_true_iff.
  rewrite (IH Hsheets). unfold readable in Hsheet.
  by destruct (cssRules sheet).
Qed.

Lemma earlier_over_sheets_unreadable {Y}
    (per_rule : string -> CSSRule -> Result (list Y)) pageURL d :
  (forall base rule e, per_rule base rule = Raised e -> e = invalid_url) ->
  forallb readable (styleSheets d) = false ->
  exists e, Earlier.over_sheets security_error per_rule pageURL d = Raised e
            /\ (e = security_error \/ e = invalid_url).
Proof.
  intros Hrule. unfold Earlier.over_sheets.
  induction (styleSheets d) as [|sheet sheets IH]; [done|].
  cbn [forallb collect]. unfold readable at 1.
  destruct (cssRules sheet) as [rules|]; [|by eexists; eauto].
  simpl. intros Hsheets. destruct (IH Hsheets) as (e & -> & He).
  destruct (collect _ rules) as [ys|e'] eqn:Hr; [by eexists|].
  exists e'. split; [done|]. right.
  apply collect_Raised in Hr as (rule & _ & Hr). by eapply Hrule.
Qed.

Lemma earlier_images_of_rule_Raised base rule e :
  Earlier.images_of_rule URL base rule = Raised e -> e = invalid_url.
Proof.
  destruct rule as [| bg content | |]; simpl; try done.
  destruct (negb (bg =? "")%string); [apply resolve_all_Raised|done].
Qed.

Lemma imported_of_rule_Raised base rule e :
  imported_of_rule URL base rule = Raised e -> e = invalid_url.
Proof.
  destruct rule as [href| | |]; simpl; try done.
  destruct (new_URL URL href (Some base)) eqn:E; [done|].
  intros [= <-]. by eapply new_URL_Raised.
Qed.

(** X16: the earlier collector reads the rules of every style sheet
    unguarded.  On a document whose style sheets can all be read its
    [@import] pass returns what the present one returns; on any other
    document its [@import] pass and its background-image pass both throw,
    the engine's security error or, when an earlier sheet holds a URL the
    parser rejects, the parser's error. *)
Theorem earlier_sheets_unguarded pageURL d :
  (forallb readable (styleSheets d) = true ->
   Earlier.getImportedStyleSheets URL security_error pageURL d
   = getImportedStyleSheets URL pageURL d)
  /\ (forallb readable (styleSheets d) = false ->
      (exists e,
         Earlier.getImportedStyleSheets URL security_error pageURL d = Raised e
         /\ (e = security_error \/ e = invalid_url))
      /\ (exists e,
            Earlier.getStyleSheetImages URL security_error pageURL d = Raised e
            /\ (e = security_error \/ e = invalid_url))).
Proof.
  split.
  - apply earlier_over_sheets_readable.
  - intros Hd. split.
    + apply earlier_over_sheets_unreadable; [|done].
      apply imported_of_rule_Raised.
    + unfold Earlier.getStyleSheetImages.
      destruct (earlier_over_sheets_unreadable
                  (Earlier.images_of_rule URL) pageURL d
                  earlier_images_of_rule_Raised Hd) as (e & -> & He).
      by exists e.
Qed.

(** The document with the [content] declaration taken out of every style
    rule. *)
Definition without_content_rule (rule : CSSRule) : CSSRule :=
  match rule with
  | CSSStyleRule backgroundImage _ => CSSStyleRule backgroundImage ""
  | _ => rule
  end.

Definition without_content (d : Document) : Document :=
  mkDocument (elements d)
    (map (fun sheet =>
            mkStyleSheet (sheet_href sheet)
                         (option_map (map without_content_rule) (cssRules sheet)))
         (styleSheets d)).

Lemma earlier_images_of_rule_eq base rule :
  Earlier.images_of_rule URL base rule
  = images_of_rule URL base (without_content_rule rule).
Proof.
  by destruct rule as [| bg content | |].
Qed.

Lemma collect_fmap {X X' Y} (g : X -> X') (f : X' -> Result (list Y)) l :
  collect f (map g l) = collect (fun x => f (g x)) l.
Proof. induction l as [|x l IH]; [done|]. simpl. by rewrite IH. Qed.

Lemma collect_ext {X Y} (f g : X -> Result (list Y)) l :
  (forall x, f x = g x) -> collect f l = collect g l.
Proof.
  intros Hfg. induction l as [|x l IH]; [done|]. simpl. by rewrite Hfg, IH.
Qed.

Lemma earlier_images_without_content pageURL d :
  forallb readable (styleSheets d) = true ->
  Earlier.getStyleSheetImages URL security_error pageURL d
  = getStyleSheetImages URL pageURL (without_content d).
Proof.
  intros Hd. unfold getStyleSheetImages, Earlier.getStyleSheetImages.
  rewrite earlier_over_sheets_readable by done. f_equal.
  unfold over_sheets, without_content. cbn [styleSheets].
  rewrite collect_fmap. apply collect_ext. intros sheet.
  unfold base_of. cbn [sheet_href cssRules].
  destruct (cssRules sheet) as [rules|]; [|done]. cbn [option_map].
  rewrite collect_fmap. apply collect_ext. intros rule.
  apply earlier_images_of_rule_eq.
Qed.

Lemma collect_sublist {X Y} (f g : X -> Result (list Y)) l zs' :
  (forall x ys', g x = Ok ys' -> exists ys, f x = Ok ys /\ sublist ys ys') ->
  collect g l = Ok zs' ->
  exists zs, collect f l = Ok zs /\ sublist zs zs'.
Proof.
  intros Hfg. revert zs'. induction l as [|x l IH]; intros zs'; simpl.
  - intros [= <-]. by exists [].
  - destruct (g x) as [ys'|] eqn:Hx; [|done].
    destruct (collect g l) as [ws'|] eqn:Hl; [|done].
    intros [= <-]. destruct (Hfg x ys' Hx) as (ys & -> & Hys).
    destruct (IH ws' eq_refl) as (ws & -> & Hws).
    exists (ys ++ ws). split; [done|]. by apply sublist_app.
Qed.

Lemma earlier_images_of_rule_sublist base rule ys' :
  images_of_rule URL base rule = Ok ys' ->
  exists ys, Earlier.images_of_rule URL base rule = Ok ys /\ sublist ys ys'.
Proof.
  destruct rule as [| bg content | |]; simpl;
    try (intros [= <-]; by exists []).
  destruct (negb (bg =? "")%string); [by eexists|].
  intros _. exists []. split; [done|]. apply sublist_nil_l.
Qed.

Lemma earlier_images_before pageURL d rs' :
  forallb readable (styleSheets d) = true ->
  getStyleSheetImages URL pageURL d = Ok rs' ->
  exists rs,
    Earlier.getStyleSheetImages URL security_error pageURL d = Ok rs
    /\ sublist rs rs'.
Proof.
  intros Hd. unfold getStyleSheetImages, Earlier.getStyleSheetImages.
  rewrite earlier_over_sheets_readable by done.
  destruct (over_sheets (images_of_rule URL) pageURL d) as [us'|] eqn:Hnew;
    [|done].
  intros [= <-]. unfold over_sheets in *.
  eapply collect_sublist in Hnew as (us & -> & Hsub).
  - eexists. split; [done|]. simpl.
    by apply (fmap_sublist (fun url : string => resource_of image url)).
  - intros sheet ys'. simpl. destruct (cssRules sheet) as [rules|].
    + apply collect_sublist. apply earlier_images_of_rule_sublist.
    + intros [= <-]. by exists [].
Qed.

(** X17: on a document whose style sheets can all be read, the earlier
    style-sheet image pass does what the present one does on the document
    whose style rules have lost their [content] declaration: the same
    result, Resources or error.  So the Resources it leaves out are those
    the present pass takes from [content], and whenever the present pass
    returns on the document itself, the earlier one returns too, a part of
    the present result in the same order. *)
Theorem earlier_images_sublist pageURL d :
  forallb readable (styleSheets d) = true ->
  Earlier.getStyleSheetImages URL security_error pageURL d
  = getStyleSheetImages URL pageURL (without_content d)
  /\ forall rs',
       getStyleSheetImages URL pageURL d = Ok rs' ->
       exists rs,
         Earlier.getStyleSheetImages URL security_error pageURL d = Ok rs
         /\ sublist rs rs'.
Proof.
  intros Hd. split; [by apply earlier_images_without_content|].
  intros rs'. by apply earlier_images_before.
Qed.

End EarlierSheets.

(** A readable sheet with one rule of each branch. *)
Definition two_rules : Document :=
  mkDocument []
    [mkStyleSheet (Some "https://example.org/main.css")
       (Some [CSSStyleRule (css_url "bg.png") "";
              CSSStyleRule "" (css_url "bullet.png")])].

Lemma earlier_images_sublist_witness :
  Earlier.getStyleSheetImages sample_URL (JsOther true) origin two_rules
  = Ok [mkResource image "https://example.org/bg.png"]
  /\ forall rs',
       Dom.getStyleSheetImages sample_URL origin two_rules = Ok rs' ->
       exists rs,
         Earlier.getStyleSheetImages sample_URL (JsOther true) origin two_rules
         = Ok rs
         /\ sublist rs rs'.
Proof.
  apply (earlier_images_sublist sample_URL (JsOther true) origin two_rules).
  reflexivity.
Defined.

(** * Where the Resources of the network-observed collector come from *)

Section NetworkProvenance.

Import JsString Network.
Local Open Scope run_scope.

Variable w : World.
Variable href : string.
Variable options : Options.

(** [r] is a response of the page, with the type [mapResourceType] gives
    it. *)
Definition from_response (r : Resource) : Prop :=
  exists response,
    response ∈ concat (responses w)
    /\ mapResourceType response href = Some (type r)
    /\ url r = response_url response.

Definition explained (r : Resource) : Prop :=
  from_response r \/ r ∈ anchors (document w 0).

Definition Sound (v : Vars) : Prop :=
  Forall from_response (queue v)
  /\ forall response, response ∈ concat (pending v) ->
                      response ∈ concat (responses w).

(** [b] tells whether the links were asked of the page yet. *)
Definition Explained (b : bool) (s : Run Vars) : Prop :=
  Sound (locals s)
  /\ Forall explained (emitted s)
  /\ if b then evals s <= 1 else evals s = 0.

Lemma Explained_frame b s s' :
  locals s' = locals s -> emitted s' = emitted s -> evals s' = evals s ->
  Explained b s -> Explained b s'.
Proof. unfold Explained. by intros -> -> ->. Qed.

Lemma Explained_true b s : Explained b s -> Explained true s.
Proof.
  intros (? & ? & He). split_and!; [done|done|]. destruct b; lia.
Qed.

Lemma on_response_Sound v response :
  response ∈ concat (responses w) -> Sound v ->
  Sound (on_response href v response).
Proof.
  intros Hin [Hq Hp]. unfold on_response.
  destruct (mapResourceType response href) as [t|] eqn:Ht; [|done].
  case_decide; [done|]. split; [|done]. simpl.
  apply Forall_app. split; [done|]. constructor; [|done].
  by exists response.
Qed.

Lemma foldl_on_response_Sound batch : forall v,
  (forall response, response ∈ batch -> response ∈ concat (responses w)) ->
  Sound v -> Sound (foldl (on_response href) v batch).
Proof.
  induction batch as [|response batch IH]; intros v Hbatch Hv; [done|].
  simpl. apply IH.
  - intros r Hr. apply Hbatch. by right.
  - apply on_response_Sound; [|done]. apply Hbatch. by left.
Qed.

Lemma deliver_Sound v : Sound v -> Sound (deliver href v).
Proof.
  intros Hv. unfold deliver.
  destruct (pending v) as [|batch rest] eqn:E; [done|].
  destruct Hv as [Hq Hp]. rewrite E in Hp.
  simpl in Hp. apply foldl_on_response_Sound.
  - intros r Hr. apply Hp, elem_of_app. by left.
  - split; [done|]. simpl. intros r Hr. apply Hp, elem_of_app. by right.
Qed.

Lemma Explained_log b ev :
  (forall r, ev <> EvYield r) -> keeps (Explained b) (@log Vars ev).
Proof.
  intros Hev. apply keeps_modify. intros s.
  apply Explained_frame; [done| |done]. unfold emitted. simpl.
  rewrite emitted_of_app. destruct ev; simpl; try by rewrite app_nil_r.
  by destruct (Hev r).
Qed.

Lemma Explained_suspend b : keeps (Explained b) (suspend href).
Proof.
  apply keeps_modify. intros s (Hs & He & Hn).
  split_and!; [by apply deliver_Sound|done|done].
Qed.

Lemma Explained_yield b r :
  explained r -> keeps (Explained b) (yield_ w href r).
Proof.
  intros Hr. unfold yield_, emit.
  apply keeps_bind; [|intros _; apply keeps_bind;
                      [apply Explained_suspend|intros _; apply keeps_resume]].
  apply keeps_modify. intros s (Hs & He & Hn). split_and!; [done| |done].
  unfold emitted. simpl. rewrite emitted_of_app. apply Forall_app.
  split; [done|]. simpl. by constructor.
Qed.

Lemma Explained_yield_queue b fuel : forall i,
  keeps (Explained b) (yield_queue w href fuel i).
Proof.
  induction fuel as [|fuel IH]; intros i; simpl; [by intros s c s' _ ?|].
  apply keeps_bind_get. intros s0.
  destruct (queue (locals s0) !! i) as [r|] eqn:Hi.
  - apply triple_seq with (R := Explained b);
      [|intros _; apply IH|done].
    intros s c s' [-> HE] Hrun. eapply Explained_yield; [|exact HE|exact Hrun].
    left. destruct HE as ((Hq & _) & _).
    rewrite Forall_forall in Hq. apply Hq. by eapply list_elem_of_lookup_2.
  - intros s c s' [_ HE] Hrun. unfold ret in Hrun. by simplify_eq.
Qed.

Lemma Explained_yield_links ls :
  Forall (fun l => l ∈ anchors (document w 0)) ls ->
  keeps (Explained true) (yield_links w href ls).
Proof.
  induction ls as [|l ls IH]; simpl; [intros _; apply keeps_ret|].
  intros Hls. inversion Hls as [|? ? Hl Hrest]; subst.
  apply keeps_bind; [apply keeps_get|]. intros s.
  apply keeps_bind; [|intros _; by apply IH].
  case_decide; [apply keeps_ret|].
  apply keeps_bind; [|intros _; apply Explained_yield; by right].
  apply keeps_modify. by intros s1 ((Hq & Hp) & He & Hn).
Qed.

Lemma Explained_eval_links :
  triple (Explained false) (eval_links w href)
         (fun c s => Explained true s
                     /\ forall ls, c = Normal ls -> ls = anchors (document w 0)).
Proof.
  intros s c s' (Hs & He & Hn) Hrun.
  unfold eval_links, bind, snapshot, suspend, set_locals, modify, ret in Hrun.
  simpl in Hrun. simplify_eq. rewrite Hn. split.
  - split_and!; [by apply deliver_Sound|done|simpl; lia].
  - by intros ls [= <-].
Qed.

Lemma Explained_newPage b : keeps (Explained b) (@newPage Vars w).
Proof.
  apply keeps_bind; [by apply Explained_log|]. intros _. apply keeps_settle.
Qed.

Lemma Explained_launch b : keeps (Explained b) (@launch Vars w).
Proof.
  apply keeps_bind; [by apply Explained_log|]. intros _. apply keeps_settle.
Qed.

Lemma Explained_goto b : keeps (Explained b) (goto w href).
Proof.
  apply keeps_bind; [by apply Explained_log|]. intros _.
  apply keeps_bind; [apply Explained_suspend|]. intros _.
  destruct (goto_result w); [apply keeps_throw|apply keeps_ret].
Qed.

Lemma Explained_teardown b : keeps (Explained b) (teardown w (suspend href)).
Proof.
  apply keeps_bind.
  - apply keeps_bind; [by apply Explained_log|]. intros _.
    apply keeps_bind; [apply Explained_suspend|]. intros _. apply keeps_settle.
  - intros _. apply keeps_bind; [apply keeps_get|]. intros s.
    destruct (caughtError s) as [e|]; [|apply keeps_ret].
    destruct (is_truthy e); [apply keeps_throw|apply keeps_ret].
Qed.

Lemma Explained_body :
  triple (Explained false) (body w href options)
         (fun _ => Explained (links_enabled options)).
Proof.
  assert (Hweak : forall s, Explained false s ->
                            Explained (links_enabled options) s).
  { intros s H. destruct (links_enabled options);
      [by eapply Explained_true|done]. }
  unfold body.
  eapply triple_seq; [apply Explained_newPage| |exact Hweak]. intros _.
  eapply triple_seq with (R := Explained false); [| |exact Hweak].
  { apply keeps_modify. intros s (_ & He & Hn).
    split_and!; [|done|done]. split; [constructor|done]. }
  intros _.
  eapply triple_seq; [apply Explained_goto| |exact Hweak]. intros response.
  eapply triple_seq; [apply keeps_check_navigation| |exact Hweak]. intros _.
  eapply triple_seq; [apply keeps_get| |exact Hweak]. intros s0.
  eapply triple_seq; [apply Explained_yield_queue| |exact Hweak]. intros _.
  destruct (links_enabled options); [|apply keeps_ret].
  eapply triple_bind; [apply Explained_eval_links| | |].
  - intros ls s1 c1 s1' [HE Hls] H1.
    eapply Explained_yield_links; [|exact HE|exact H1].
    rewrite (Hls ls eq_refl). by apply Forall_forall.
  - by intros e s1 [HE _].
  - by intros s1 [HE _].
Qed.

Lemma Explained_run :
  triple (Explained false) (getAllSubResources w href options)
         (fun _ => Explained (links_enabled options)).
Proof.
  assert (Hweak : forall s, Explained false s ->
                            Explained (links_enabled options) s).
  { intros s H. destruct (links_enabled options);
      [by eapply Explained_true|done]. }
  unfold getAllSubResources.
  eapply triple_seq with (R := Explained false); [| |exact Hweak].
  { apply keeps_modify. intros s. by apply Explained_frame. }
  intros _.
  eapply triple_seq; [apply Explained_launch| |exact Hweak]. intros _.
  apply triple_try_finally; [|apply Explained_teardown].
  apply triple_try_catch; [apply Explained_body|].
  intros e. apply keeps_modify. intros s. by apply Explained_frame.
Qed.

Lemma anchor_href el :
  instanceof el "a" = true -> exists h : string, prop el "href" = h.
Proof.
  unfold instanceof, prop. intros [-> Hname%String.eqb_eq]%andb_true_iff.
  rewrite Hname. by eexists.
Qed.

Lemma anchors_inv r :
  r ∈ anchors (document w 0) ->
  type r = link
  /\ exists el, el ∈ elements (document w 0)
                /\ instanceof el "a" = true
                /\ is_Some (assoc "href" (attributes el))
                /\ url r = prop el "href"
                /\ exists h : string, url r = h.
Proof.
  unfold anchors. intros Hr. apply list_elem_of_In, in_map_iff in Hr
    as (el & <- & Hel). split; [done|].
  apply filter_In in Hel as [Hel Ha].
  apply filter_In in Hel as [Hel Hm].
  exists el.
  split_and!; [by apply list_elem_of_In|done| |done|by apply anchor_href].
  unfold Selector.matches, sel_links in Hm. simpl in Hm.
  rewrite orb_false_r in Hm. unfold Selector.compound_matches in Hm.
  apply andb_true_iff in Hm as [_ Hm]. simpl in Hm.
  by apply bool_decide_eq_true in Hm.
Qed.

Lemma network_explained :
  exists c s',
    getAllSubResources w href options start = Some (c, s')
    /\ Explained (links_enabled options) s'.
Proof.
  destruct (getAllSubResources_total w href options start) as [[c s'] Hrun].
  exists c, s'. split; [done|].
  eapply Explained_run; [|exact Hrun].
  split_and!; [|constructor|done]. split; [constructor|]. simpl.
  intros r Hr. by apply elem_of_nil in Hr.
Qed.

End NetworkProvenance.

(** X18: whatever the responses, the browser and the consumer do, every
    run of the network-observed collector completes, and every Resource it
    hands over is accounted for.  One of a type other than link has the URL
    of a response of the page to which [mapResourceType] gives that type,
    so its URL does not start with [data:].  One of type link has the [href]
    of an HTML anchor with an [href] attribute of the document as the first
    evaluation in the page finds it, which is a string.  That evaluation is
    the only one the run makes, and it makes none unless [options.links] is
    true. *)
Theorem network_resources_explained w href options :
  exists c s',
    Network.getAllSubResources w href options Network.start = Some (c, s')
    /\ Forall (fun r =>
                 (type r <> link
                  /\ exists response,
                       response ∈ concat (responses w)
                       /\ Network.mapResourceType response href = Some (type r)
                       /\ url r = response_url response
                       /\ JsString.startsWith (response_url response) "data:"
                          = false)
                 \/ (type r = link
                     /\ exists el,
                          el ∈ elements (document w 0)
                          /\ instanceof el "a" = true
                          /\ is_Some (assoc "href" (attributes el))
                          /\ url r = prop el "href"
                          /\ exists h : string, url r = h))
              (emitted s')
    /\ evals s' <= 1
    /\ (Network.links_enabled options = false -> evals s' = 0).
Proof.
  destruct (network_explained w href options)
    as (c & s' & Hrun & _ & He & Hn).
  exists c, s'. split_and!; [done| | |].
  - eapply Forall_impl; [exact He|]. intros r [(response & Hin & Ht & Hu)|Ha].
    + left. split; [by eapply mapResourceType_not_link|].
      exists response. split_and!; [done|done|done|].
      unfold Network.mapResourceType in Ht.
      by destruct (JsString.startsWith (response_url response) "data:").
    + right. by apply anchors_inv.
  - destruct (Network.links_enabled options); lia.
  - intros Hoff. by rewrite Hoff in Hn.
Qed.

(** * The consumer's answer is obeyed *)

Section ConsumerStop.

Local Open Scope run_scope.

Variable w : World.

(** Every item handed over was answered with [next()]. *)
Definition answered {L} (s : Run L) : Prop :=
  forall i, i < length (emitted s) -> consumer w i = Next.

(** Every item but the last was answered with [next()]. *)
Definition heard {L} (s : Run L) : Prop :=
  forall i, S i < length (emitted s) -> consumer w i = Next.

Definition obeys {L A} (m : M L A) : Prop :=
  triple answered m (fun c s => heard s /\ forall a, c = Normal a -> answered s).

(** [m] hands nothing over. *)
Definition mute {L A} (m : M L A) : Prop :=
  forall s c s', m s = Some (c, s') -> emitted s' = emitted s.

Lemma answered_heard {L} (s : Run L) : answered s -> heard s.
Proof. intros H i Hi. apply H. lia. Qed.

Lemma mute_obeys {L A} (m : M L A) : mute m -> obeys m.
Proof.
  intros Hm s c s' Hs Hrun. apply Hm in Hrun.
  unfold heard, answered in *. rewrite Hrun.
  split; [intros i Hi; apply Hs; lia|done].
Qed.

Lemma mute_heard {L A} (m : M L A) : mute m -> keeps heard m.
Proof.
  intros Hm s c s' Hs Hrun. apply Hm in Hrun. unfold heard in *.
  by rewrite Hrun.
Qed.

Lemma obeys_bind {L A B} (m : M L A) (k : A -> M L B) :
  obeys m -> (forall a, obeys (k a)) -> obeys (bind m k).
Proof.
  intros Hm Hk. eapply triple_bind; [exact Hm| | |].
  - intros a. eapply triple_weaken; [apply Hk| |done].
    intros s [_ Hs]. by eapply Hs.
  - intros e s [Hs _]. by split.
  - intros s [Hs _]. by split.
Qed.

Lemma mute_bind {L A B} (m : M L A) (k : A -> M L B) :
  mute m -> (forall a, mute (k a)) -> mute (bind m k).
Proof.
  intros Hm Hk s c s' Hrun.
  apply bind_Some in Hrun as [(a & s1 & H1 & H2)|[(e & H1 & ->)|[H1 ->]]].
  - apply Hm in H1. apply Hk in H2. congruence.
  - by apply Hm in H1.
  - by apply Hm in H1.
Qed.

Lemma mute_ret {L A} (a : A) : mute (@ret L A a).
Proof. intros s c s' H. unfold ret in H. by simplify_eq. Qed.

Lemma mute_throw {L A} e : mute (@throw L A e).
Proof. intros s c s' H. unfold throw in H. by simplify_eq. Qed.

Lemma mute_get {L} : mute (@get L).
Proof. intros s c s' H. unfold get in H. by simplify_eq. Qed.

Lemma mute_settle {L} r : mute (@settle L r).
Proof. destruct r; [apply mute_throw|apply mute_ret]. Qed.

Lemma mute_log {L} ev : (forall r, ev <> EvYield r) -> mute (@log L ev).
Proof.
  intros Hev s c s' H. unfold log, modify in H. simplify_eq.
  unfold emitted. simpl. rewrite emitted_of_app.
  destruct ev; simpl; try by rewrite app_nil_r. by destruct (Hev r).
Qed.

Lemma mute_set_locals {L} (f : L -> L) : mute (set_locals f).
Proof. intros s c s' H. unfold set_locals, modify in H. by simplify_eq. Qed.

Lemma mute_snapshot {L} : mute (@snapshot L w).
Proof. intros s c s' H. unfold snapshot in H. by simplify_eq. Qed.

Lemma mute_check_navigation {L} href response :
  mute (@check_navigation L href response).
Proof.
  unfold check_navigation. destruct (navigation_failed response);
    [apply mute_throw|apply mute_ret].
Qed.

Lemma mute_teardown {L} (idle : M L unit) : mute idle -> mute (teardown w idle).
Proof.
  intros Hidle. apply mute_bind.
  - apply mute_bind; [by apply mute_log|]. intros _.
    apply mute_bind; [done|]. intros _. apply mute_settle.
  - intros _. apply mute_bind; [apply mute_get|]. intros s.
    destruct (caughtError s) as [e|]; [|apply mute_ret].
    destruct (is_truthy e); [apply mute_throw|apply mute_ret].
Qed.

(** An answer of the consumer: the run goes on only after [next()]. *)
Definition answers {L} (answer : M L unit) : Prop :=
  forall s c s',
    answer s = Some (c, s') ->
    s' = s /\ forall a, c = Normal a ->
                        consumer w (Nat.pred (length (emitted s))) = Next.

Lemma answers_resume {L} : answers (@resume L w).
Proof.
  intros s c s' H. unfold resume in H.
  destruct (consumer w _); by simplify_eq.
Qed.

Lemma answers_resume_delegated {L} : answers (@resume_delegated L w).
Proof.
  intros s c s' H. unfold resume_delegated in H.
  destruct (consumer w _); by simplify_eq.
Qed.

(** The item is handed over, something that hands nothing over runs, and
    the consumer answers. *)
Lemma obeys_handover {L} (r : Resource) (idle answer : M L unit) :
  mute idle -> answers answer -> obeys (emit r ;; idle ;; answer).
Proof.
  intros Hidle Hanswer s c s' Hs Hrun.
  assert (Hlen : forall s2 : Run L,
             emitted s2 = emitted s ++ [r] ->
             length (emitted s2) = S (length (emitted s))).
  { intros s2 ->. rewrite length_app. simpl. lia. }
  assert (He1 : emitted (mkRun (events s ++ [EvYield r]) (caughtError s)
                               (evals s) (locals s)) = emitted s ++ [r]).
  { unfold emitted. simpl. by rewrite emitted_of_app. }
  apply bind_Some in Hrun as [(a & s1 & H1 & H2)|[(e & H1 & ->)|[H1 ->]]];
    unfold emit, log, modify in H1; simplify_eq.
  apply bind_Some in H2 as [(a & s2 & H2 & H3)|[(e & H2 & ->)|[H2 ->]]].
  - apply Hidle in H2 as He2. rewrite He1 in He2.
    destruct (Hanswer _ _ _ H3) as [-> Hnext].
    rewrite (Hlen _ He2) in Hnext. simpl in Hnext.
    split.
    + intros i Hi. apply Hs. rewrite (Hlen _ He2) in Hi. lia.
    + intros a' ->. intros i Hi. rewrite (Hlen _ He2) in Hi.
      destruct (decide (i = length (emitted s))) as [->|Hne];
        [by eapply Hnext|apply Hs; lia].
  - apply Hidle in H2 as He2. rewrite He1 in He2. split; [|done].
    intros i Hi. apply Hs. rewrite (Hlen _ He2) in Hi. lia.
  - apply Hidle in H2 as He2. rewrite He1 in He2. split; [|done].
    intros i Hi. apply Hs. rewrite (Hlen _ He2) in Hi. lia.
Qed.

End ConsumerStop.

Section ConsumerStopRuns.

Local Open Scope run_scope.

Variable URL : string -> option string -> option URLRecord.
Variable w : World.
Variable href : string.
Variable options : Options.

Lemma obeys_same {L A} (m m' : M L A) :
  (forall s, m s = m' s) -> obeys w m' -> obeys w m.
Proof. intros Hmm Hm s c s' Hs Hrun. rewrite Hmm in Hrun. by eapply Hm. Qed.

Lemma mute_answered {L A} (m : M L A) : mute m -> keeps (answered w) m.
Proof.
  intros Hm s c s' Hs Hrun. apply Hm in Hrun. unfold answered in *.
  by rewrite Hrun.
Qed.

(** The frame around the [try] block, from a block that obeys. *)
Lemma guarded_heard {L} (b idle : M L unit) :
  obeys w b -> mute idle ->
  triple (answered w)
         (declare_caughtError ;; launch w ;;
          try_finally (try_catch b set_caughtError) (teardown w idle))
         (fun _ => heard w).
Proof.
  intros Hb Hidle.
  eapply triple_seq with (R := answered w);
    [| |apply answered_heard].
  { apply mute_answered. intros s c s' H.
    unfold declare_caughtError, modify in H. by simplify_eq. }
  intros _.
  eapply triple_seq with (R := answered w);
    [| |apply answered_heard].
  { apply mute_answered, mute_bind; [by apply mute_log|].
    intros _. apply mute_settle. }
  intros _.
  apply triple_try_finally; [|by apply mute_heard, mute_teardown].
  apply triple_try_catch.
  - eapply triple_weaken; [exact Hb|done|]. by intros c s [? _].
  - intros e. apply mute_heard. intros s c s' H.
    unfold set_caughtError, modify in H. by simplify_eq.
Qed.

(** *** The network-observed collector *)

Lemma network_yield_obeys r : obeys w (Network.yield_ w href r).
Proof.
  apply obeys_handover; [apply mute_set_locals|apply answers_resume].
Qed.

Lemma network_yield_queue_obeys fuel : forall i,
  obeys w (Network.yield_queue w href fuel i).
Proof.
  induction fuel as [|fuel IH]; intros i; simpl; [by intros s c s' _ ?|].
  apply obeys_bind; [apply mute_obeys, mute_get|]. intros s.
  destruct (Network.queue (locals s) !! i); [|apply mute_obeys, mute_ret].
  apply obeys_bind; [apply network_yield_obeys|]. intros _. apply IH.
Qed.

Lemma network_yield_links_obeys ls : obeys w (Network.yield_links w href ls).
Proof.
  induction ls as [|l ls IH]; simpl; [apply mute_obeys, mute_ret|].
  apply obeys_bind; [apply mute_obeys, mute_get|]. intros s.
  apply obeys_bind; [|intros _; apply IH].
  case_decide; [apply mute_obeys, mute_ret|].
  apply obeys_bind; [apply mute_obeys, mute_set_locals|]. intros _.
  apply network_yield_obeys.
Qed.

Lemma network_body_obeys : obeys w (Network.body w href options).
Proof.
  unfold Network.body.
  apply obeys_bind.
  { apply mute_obeys, mute_bind; [by apply mute_log|].
    intros _. apply mute_settle. }
  intros _. apply obeys_bind; [apply mute_obeys, mute_set_locals|]. intros _.
  apply obeys_bind.
  { apply mute_obeys. unfold Network.goto.
    apply mute_bind; [by apply mute_log|]. intros _.
    apply mute_bind; [apply mute_set_locals|]. intros _.
    destruct (goto_result w); [apply mute_throw|apply mute_ret]. }
  intros response.
  apply obeys_bind; [apply mute_obeys, mute_check_navigation|]. intros _.
  apply obeys_bind; [apply mute_obeys, mute_get|]. intros s.
  apply obeys_bind; [apply network_yield_queue_obeys|]. intros _.
  destruct (Network.links_enabled options); [|apply mute_obeys, mute_ret].
  apply obeys_bind; [|intros ls; apply network_yield_links_obeys].
  apply mute_obeys. unfold Network.eval_links.
  apply mute_bind; [apply mute_snapshot|]. intros d.
  apply mute_bind; [apply mute_set_locals|]. intros _. apply mute_ret.
Qed.

(** *** The DOM-query collector *)

Lemma dom_evaluate_mute {A} (f : Document -> Result A) :
  mute (Dom.evaluate w f).
Proof.
  unfold Dom.evaluate. apply mute_bind; [apply mute_get|]. intros s.
  apply mute_bind; [apply mute_snapshot|]. intros d.
  destruct (f d); [apply mute_ret|apply mute_throw].
Qed.

Lemma dom_yield_all_obeys rs : obeys w (Dom.yield_all w rs).
Proof.
  induction rs as [|r rs IH]; simpl; [apply mute_obeys, mute_ret|].
  apply obeys_bind; [|intros _; apply IH].
  apply obeys_same
    with (m' := emit r ;; ret tt ;; resume_delegated w); [done|].
  apply obeys_handover; [apply mute_ret|apply answers_resume_delegated].
Qed.

Lemma dom_body_obeys : obeys w (Dom.body URL w href).
Proof.
  unfold Dom.body.
  apply obeys_bind.
  { apply mute_obeys, mute_bind; [by apply mute_log|].
    intros _. apply mute_settle. }
  intros _. apply obeys_bind.
  { apply mute_obeys. unfold Dom.goto.
    apply mute_bind; [by apply mute_log|]. intros _.
    destruct (goto_result w); [apply mute_throw|apply mute_ret]. }
  intros response.
  apply obeys_bind; [apply mute_obeys, mute_check_navigation|]. intros _.
  repeat (apply obeys_bind;
          [apply obeys_bind; [|intros ?; apply dom_yield_all_obeys]|intros _]);
    try (apply mute_obeys, dom_evaluate_mute).
  - apply mute_obeys. unfold Dom.getMedia.
    apply mute_bind; [apply dom_evaluate_mute|]. intros ?.
    apply mute_bind; [apply dom_evaluate_mute|]. intros ?. apply mute_ret.
  - apply obeys_bind; [|intros ?; apply dom_yield_all_obeys].
    apply mute_obeys. unfold Dom.getMiscResources.
    apply mute_bind; [apply dom_evaluate_mute|]. intros ?.
    apply mute_bind; [apply dom_evaluate_mute|]. intros ?. apply mute_ret.
Qed.

Lemma dom_run_total : total (Dom.getAllSubResources URL w href).
Proof.
  unfold Dom.getAllSubResources.
  apply total_bind; [apply total_modify|]. intros _.
  apply total_bind.
  { apply total_bind; [apply total_modify|intros _; apply total_settle]. }
  intros _. apply total_try_finally.
  - apply total_try_catch; [apply dom_body_total|]. intros e. apply total_modify.
  - apply total_bind.
    + apply total_bind; [apply total_modify|]. intros _.
      apply total_bind; [apply total_ret|intros _; apply total_settle].
    + intros _. apply total_bind; [apply total_get|]. intros s.
      destruct (caughtError s) as [e|]; [|apply total_ret].
      destruct (is_truthy e); [apply total_throw|apply total_ret].
Qed.

Lemma answered_nothing {L} (s : Run L) : emitted s = [] -> answered w s.
Proof. intros H i Hi. rewrite H in Hi. simpl in Hi. lia. Qed.

End ConsumerStopRuns.

(** X19: both collectors obey the consumer.  Every run completes, and
    every item handed over, the last one apart, was answered by the consumer
    with [next()]: once the consumer answers an item with [return()] or
    [throw()], no further item is handed over. *)
Theorem consumer_answer_obeyed URL w href options :
  (exists c s',
     Network.getAllSubResources w href options Network.start = Some (c, s')
     /\ forall i, S i < length (emitted s') -> consumer w i = Next)
  /\ (exists c s',
        Dom.getAllSubResources URL w href Dom.start = Some (c, s')
        /\ forall i, S i < length (emitted s') -> consumer w i = Next).
Proof.
  split.
  - destruct (getAllSubResources_total w href options Network.start)
      as [[c s'] Hrun].
    exists c, s'. split; [done|].
    eapply (guarded_heard w (Network.body w href options)
                          (Network.suspend href));
      [apply network_body_obeys|apply mute_set_locals| |exact Hrun].
    by apply answered_nothing.
  - destruct (dom_run_total URL w href Dom.start) as [[c s'] Hrun].
    exists c, s'. split; [done|].
    eapply (guarded_heard w (Dom.body URL w href) (ret tt));
      [apply dom_body_obeys|apply mute_ret| |exact Hrun].
    by apply answered_nothing.
Qed.

(** * The queue is read while it grows *)

Section LiveQueue.

Import Network.
Local Open Scope run_scope.

Variable w : World.
Variable href : string.
Variable options : Options.

(** The typed responses of the first [k] batches. *)
Definition arrived (k : nat) : list Resource :=
  classified href (concat (take k (responses w))).

(** The variables of the run once [k] batches were delivered. *)
Definition vars_at (k : nat) : Vars :=
  mkVars (seen_after ∅ (arrived k)) (first_from ∅ (arrived k))
         (drop k (responses w)).

Lemma classified_app a b :
  classified href (a ++ b) = classified href a ++ classified href b.
Proof. apply omap_app. Qed.

Lemma seen_after_app rs : forall seen rs',
  seen_after (seen_after seen rs) rs' = seen_after seen (rs ++ rs').
Proof.
  induction rs as [|r rs IH]; intros seen rs'.
  - by rewrite seen_after_nil.
  - simpl. by rewrite !seen_after_new, IH.
Qed.

Lemma deliver_at k : deliver href (vars_at k) = vars_at (S k).
Proof.
  unfold deliver, vars_at. cbn [pending seen queue].
  destruct (drop k (responses w)) as [|batch rest] eqn:E.
  - apply drop_nil_inv in E as Hlen. unfold arrived.
    rewrite !take_ge by lia. by rewrite drop_ge by lia.
  - assert (Hk : responses w !! k = Some batch).
    { pose proof (lookup_drop (responses w) k 0) as H.
      rewrite E, Nat.add_0_r in H. done. }
    rewrite (drop_S _ _ _ Hk) in E. injection E as <-.
    rewrite foldl_on_response_first. cbn [pending seen queue].
    unfold arrived. rewrite (take_S_r _ _ _ Hk), concat_app. simpl.
    rewrite app_nil_r, classified_app.
    by rewrite seen_after_app, <-first_from_app.
Qed.

Lemma vars_at_grows a : forall b, a <= b -> grows (vars_at a) (vars_at b).
Proof.
  intros b Hab. induction Hab as [|b Hab IH]; [apply grows_refl|].
  eapply grows_trans; [exact IH|]. rewrite <-deliver_at.
  apply (deliver_frame href).
Qed.

Hypothesis Hconsumer : forall n, consumer w n = Next.

Lemma yield_next r s :
  yield_ w href r s
  = Some (Normal tt,
          mkRun (events s ++ [EvYield r]) (caughtError s) (evals s)
                (deliver href (locals s))).
Proof.
  unfold yield_, bind, emit, log, suspend, set_locals, modify, resume.
  simpl. by rewrite Hconsumer.
Qed.

Lemma yield_queue_live fuel : forall i s,
  locals s = vars_at (S i) ->
  i <= length (queue (vars_at (S i))) ->
  load (vars_at (S i)) - i < fuel ->
  exists j,
    i <= j /\ length (queue (vars_at (S j))) = j
    /\ yield_queue w href fuel i s
       = Some (Normal tt,
               mkRun (events s ++ map EvYield (drop i (queue (vars_at (S j)))))
                     (caughtError s) (evals s) (vars_at (S j))).
Proof.
  induction fuel as [|fuel IH]; intros i s Hs Hi Hfuel; [lia|].
  cbn [yield_queue]. unfold bind at 1, get. rewrite Hs.
  destruct (queue (vars_at (S i)) !! i) as [r|] eqn:Hr.
  - rewrite (bind_run _ _ _ _ _ (yield_next r s)). rewrite Hs, deliver_at.
    apply lookup_lt_Some in Hr as Hlt.
    destruct (deliver_frame href (vars_at (S i))) as [Hgrow Hload].
    rewrite deliver_at in Hgrow, Hload.
    destruct (IH (S i) (mkRun (events s ++ [EvYield r]) (caughtError s)
                              (evals s) (vars_at (S (S i)))))
      as (j & Hj & Hlen & Hrun).
    + done.
    + destruct Hgrow as [new ->]. rewrite length_app. lia.
    + unfold load in *. lia.
    + exists j. split_and!; [lia|done|]. rewrite Hrun.
      cbn [events caughtError evals].
      destruct (vars_at_grows (S i) (S j) ltac:(lia)) as [new Hnew].
      assert (Hrj : queue (vars_at (S j)) !! i = Some r).
      { rewrite Hnew. by apply lookup_app_l_Some. }
      by rewrite (drop_S _ _ _ Hrj), <-app_assoc.
  - apply lookup_ge_None in Hr. exists i. split_and!; [done|lia|].
    rewrite drop_ge by done. simpl. rewrite app_nil_r.
    destruct s. simpl in *. by subst.
Qed.

Variable response : option HTTPResponse.

Hypothesis Hnew : newPage_result w = None.
Hypothesis Hgoto : goto_result w = inr response.
Hypothesis Hnav : navigation_failed response = false.
Hypothesis Hlinks : links_enabled options = false.

Lemma vars_at_0 : mkVars ∅ [] (responses w) = vars_at 0.
Proof.
  unfold vars_at, arrived. simpl. by rewrite seen_after_nil.
Qed.

Lemma body_live :
  exists j,
    length (queue (vars_at (S j))) = j
    /\ body w href options (mkRun [EvLaunch] None 0 (mkVars ∅ [] []))
       = Some (Normal tt,
               mkRun ([EvLaunch; EvNewPage; EvGoto href]
                      ++ map EvYield (queue (vars_at (S j))))
                     None 0 (vars_at (S j))).
Proof.
  destruct (yield_queue_live (steps (vars_at 1)) 0
              (mkRun [EvLaunch; EvNewPage; EvGoto href] None 0 (vars_at 1)))
    as (j & _ & Hlen & Hrun); [done|lia|unfold steps, load; lia|].
  exists j. split; [done|]. unfold body.
  erewrite bind_run; cycle 1.
  { unfold newPage, bind, log, modify, settle. simpl. by rewrite Hnew. }
  erewrite bind_run by reflexivity.
  erewrite bind_run; cycle 1.
  { unfold goto, bind, log, suspend, set_locals, modify. simpl.
    rewrite Hgoto, vars_at_0, deliver_at. unfold ret. reflexivity. }
  unfold check_navigation. rewrite Hnav.
  erewrite bind_run by reflexivity.
  erewrite bind_run by reflexivity.
  cbn [locals]. rewrite (bind_run _ _ _ _ _ Hrun).
  rewrite Hlinks, drop_0. reflexivity.
Qed.

Hypothesis Hlaunch : launch_result w = None.
Hypothesis Hclose : close_result w = None.

Lemma live_run :
  exists s',
    getAllSubResources w href options start = Some (Normal tt, s')
    /\ emitted s' = first_by_url (arrived (S (length (emitted s')))).
Proof.
  destruct body_live as (j & Hlen & Hbody).
  unfold getAllSubResources. rewrite launch_run by done.
  destruct (guarded_run w (suspend href) _ _ _ _
              (silent_set_locals _) Hbody eq_refl) as (s3 & Hrun & Hev).
  exists s3. unfold after_teardown in Hrun. rewrite Hclose in Hrun.
  split; [done|].
  assert (Hem : emitted s3 = queue (vars_at (S j))).
  { unfold emitted. rewrite Hev. simpl.
    rewrite emitted_of_app, emitted_of_yields. simpl. by rewrite app_nil_r. }
  rewrite Hem, Hlen. reflexivity.
Qed.

End LiveQueue.

(** X20: the queue loop of the network-observed collector reads the queue
    while the listener fills it.  With the links option off, a browser that
    starts and closes, a navigation that succeeds and a consumer that pulls
    every item, the run ends normally, and when it has handed over [n]
    items these are, in order of arrival and once per URL, the typed
    responses of the batches that came in while the navigation and the [n]
    items were awaited: a response that arrives while an item is with the
    consumer is still handed over, one that arrives after the loop found the
    queue exhausted is not. *)
Theorem network_live_queue w href options response :
  (forall n, consumer w n = Next) ->
  newPage_result w = None ->
  goto_result w = inr response ->
  navigation_failed response = false ->
  Network.links_enabled options = false ->
  launch_result w = None ->
  close_result w = None ->
  exists s',
    Network.getAllSubResources w href options Network.start
    = Some (Normal tt, s')
    /\ emitted s'
       = first_by_url
           (classified href
              (concat (take (S (length (emitted s'))) (responses w)))).
Proof.
  intros Hc Hn Hg Hv Hk Hl Hx.
  apply (live_run w href options Hc response Hn Hg Hv Hk Hl Hx).
Qed.

Definition script_response : HTTPResponse :=
  mkResponse (mkRequest "script" (Some (mkFrame "main" None)))
             "https://example.org/late.js" 200
             {[ "content-type" := "text/javascript" ]}.

(** A page whose responses come in one after the other: the logo during
    the navigation, a document for an object element while the first item is
    with the consumer, nothing during the second item, and a script when the
    browser is being closed. *)
Definition trickle : World :=
  mkWorld None None (inr (Some (main_response 200))) None origin
          (fun _ => mkDocument [] [])
          [[main_response 200; image_response]; [pdf_response]; [];
           [script_response]]
          (fun _ => Next) (fun e => e)
          (fun _ m => m) (fun _ t => JsOther t).

Lemma network_live_queue_witness :
  exists s',
    Network.getAllSubResources trickle origin (mkOptions None) Network.start
    = Some (Normal tt, s')
    /\ emitted s'
       = first_by_url
           (classified origin
              (concat (take (S (length (emitted s'))) (responses trickle)))).
Proof.
  apply (network_live_queue trickle origin (mkOptions None)
           (Some (main_response 200))); reflexivity.
Defined.

Example trickle_output :
  emitted_by (Network.getAllSubResources trickle origin (mkOptions None)
                                         Network.start)
  = [mkResource image "https://example.org/logo.png";
     mkResource object "https://example.org/file.pdf"].
Proof. by vm_compute. Qed.

(** A source element with a srcset inside a picture element, both in the
    SVG namespace, as the parser leaves them inside an [svg] element. *)
Definition svg_picture : Document :=
  mkDocument
    [mkElement false "picture" [] [] (Some (false, "svg"));
     mkElement false "source" [("srcset", "a.png 1x")] []
               (Some (false, "picture"))]
    [].

Example srcset_outside_html :
  Dom.imageSrcSets sample_URL origin svg_picture = Raised Dom.undefined_trim
  /\ completion_of (Dom.getAllSubResources sample_URL
                      (prefixing (page_world 200 svg_picture)) origin Dom.start)
     = Some (Throw (JsError
          "Evaluation failed: Cannot read properties of undefined (reading 'trim')")).
Proof. split; by vm_compute. Qed.
